(** * Voronoi tessellation engine (voronoi.go): model and properties

    A shallow embedding of the tessellation engine of voronoi-golang:
    the [Voronoi] struct, [NewVoronoi], [Init], [Tessellate] and
    [ToPixels], with the helper methods they call; the two earlier
    revisions of the engine that build their rings with
    [getIncrementalVectors] (part_003); and the game loops that drive the
    engine (game.go, main.go, part_001).

    Conventions of the model.
    - Go's [int] is modelled by [Z].  The engine allocates
      [width*height*4] bytes and a table of [(2*width+1)*(2*height+1)]
      ints, so every value it computes on a grid that fits in memory is
      far below [2^63]; the model does not wrap.
    - A slice is a [list]; indexing out of range, dereferencing [nil],
      [make] with a negative length and [Intn] with a non-positive bound
      are run-time panics in Go and [None] here.
    - A [*Point] is an [option Point] ([None] is [nil]).  Points stored in
      the diagram are never mutated through their pointer (a fresh copy is
      stored on every assignment), so the pointer is modelled by its value.
    - Methods on [*Voronoi] are computations in a state-and-panic monad
      [M] over the struct.
    - [rand.Rand] is a stream of raw draws with a cursor; [Intn n] reduces
      the next raw draw modulo [n]. *)

From Stdlib Require Import ZArith Lia Strings.Byte Strings.String.
From stdpp Require Import base tactics option list numbers list_numbers.

#[local] Open Scope Z_scope.

(** ** Data model (model.go, voronoi.go) *)

Record Color := mkColor { R : byte; G : byte; B : byte; A : byte }.

(** [PColor] is the field [Color] of the Go struct [Point]. *)
Record Point := mkPoint {
  X : Z;
  Y : Z;
  Distance : option Z;
  PColor : option Color
}.

Record Voronoi := mkVoronoi {
  width : Z;
  height : Z;
  numSeeds : Z;
  seeds : list Point;
  activeSeeds : list Point;
  diagram : list (list (option Point));
  radius : Z;
  distances : list (list Z)
}.

Definition set_diagram (d : list (list (option Point))) (v : Voronoi) : Voronoi :=
  mkVoronoi (width v) (height v) (numSeeds v) (seeds v) (activeSeeds v)
            d (radius v) (distances v).

Definition set_distances (t : list (list Z)) (v : Voronoi) : Voronoi :=
  mkVoronoi (width v) (height v) (numSeeds v) (seeds v) (activeSeeds v)
            (diagram v) (radius v) t.

Definition set_seeds (s : list Point) (v : Voronoi) : Voronoi :=
  mkVoronoi (width v) (height v) (numSeeds v) s (activeSeeds v)
            (diagram v) (radius v) (distances v).

Definition set_activeSeeds (s : list Point) (v : Voronoi) : Voronoi :=
  mkVoronoi (width v) (height v) (numSeeds v) (seeds v) s
            (diagram v) (radius v) (distances v).

Definition set_radius (r : Z) (v : Voronoi) : Voronoi :=
  mkVoronoi (width v) (height v) (numSeeds v) (seeds v) (activeSeeds v)
            (diagram v) r (distances v).

(** ** Slices *)

(** [l[i]]: panics unless [0 <= i < len(l)]. *)
Definition index {T} (l : list T) (i : Z) : option T :=
  if i <? 0 then None else l !! Z.to_nat i.

(** [l[i] = x]: panics unless [0 <= i < len(l)]. *)
Definition store {T} (l : list T) (i : Z) (x : T) : option (list T) :=
  if (i <? 0) || (Z.of_nat (length l) <=? i) then None
  else Some (<[Z.to_nat i := x]> l).

(** [make([]T, n)]: zero-filled, panics on a negative length. *)
Definition make {T} (n : Z) (zero : T) : option (list T) :=
  if n <? 0 then None else Some (replicate (Z.to_nat n) zero).

(** [m[x][y]] and [m[x][y] = c] on a slice of slices. *)
Definition index2 {T} (m : list (list T)) (x y : Z) : option T :=
  match index m x with
  | Some col => index col y
  | None => None
  end.

Definition store2 {T} (m : list (list T)) (x y : Z) (c : T) : option (list (list T)) :=
  match index m x with
  | Some col =>
      match store col y c with
      | Some col' => store m x col'
      | None => None
      end
  | None => None
  end.

(** ** The state-and-panic monad of the methods on [*Voronoi] *)

Definition M (T : Type) : Type := Voronoi -> option (T * Voronoi).

Definition ret {T} (x : T) : M T := fun v => Some (x, v).

Definition bind {T U} (m : M T) (k : T -> M U) : M U :=
  fun v => match m v with
           | Some (x, v') => k x v'
           | None => None
           end.

Definition panic {T} : M T := fun _ => None.

Definition get : M Voronoi := fun v => Some (v, v).

Definition modify (f : Voronoi -> Voronoi) : M unit := fun v => Some (tt, f v).

Definition lift {T} (o : option T) : M T :=
  fun v => match o with Some x => Some (x, v) | None => None end.

Notation "'let*' x ':=' m 'in' k" := (bind m (fun x => k))
  (at level 10, x name, m at level 100, k at level 200).

Notation "m1 ';;' m2" := (bind m1 (fun _ => m2))
  (at level 100, m2 at level 200, right associativity, only parsing).

(** [v.diagram[x][y]] *)
Definition readCell (x y : Z) : M (option Point) :=
  let* v := get in lift (index2 (diagram v) x y).

(** [v.diagram[x][y] = c] *)
Definition writeCell (x y : Z) (c : option Point) : M unit :=
  let* v := get in
  let* d := lift (store2 (diagram v) x y c) in
  modify (set_diagram d).

(** ** Claiming cells (voronoi.go, lines 164-216) *)

(** pointFromDiagram gets the point of the diagram at the given
    coordinates, storing an empty point there first when the entry is nil. *)
Definition pointFromDiagram (x y : Z) : M Point :=
  let* c := readCell x y in
  (match c with
   | None => writeCell x y (Some (mkPoint x y None None))
   | Some _ => ret tt
   end) ;;
  let* c' := readCell x y in
  match c' with
  | Some p => ret p
  | None => panic
  end.

(** [p.Distance != nil && *p.Distance < distance] *)
Definition closer (p : Point) (distance : Z) : bool :=
  match Distance p with
  | Some d => d <? distance
  | None => false
  end.

Definition assignPointToSeed (seed : Point) (distance dx dy : Z) : M bool :=
  let* v := get in
  if (X seed + dx <? 0) || (X seed + dx >=? width v) ||
     (Y seed + dy <? 0) || (Y seed + dy >=? height v)
  then ret false
  else
    let* p := pointFromDiagram (X seed + dx) (Y seed + dy) in
    if closer p distance then ret false
    else
      writeCell (X p) (Y p)
        (Some (mkPoint (X p) (Y p) (Some distance) (PColor seed))) ;;
      ret true.

(** assignPointsToSeed assigns all the eligible points at a given distance
    to the seed.  In [f() || stillActive] the call is the left operand, so
    all eight calls are made. *)
Definition assignPointsToSeed (seed : Point) (distance dx dy : Z) : M bool :=
  let stillActive := false in
  let* b := assignPointToSeed seed distance dx dy in
  let stillActive := b || stillActive in
  let* b := assignPointToSeed seed distance dx (- dy) in
  let stillActive := b || stillActive in
  let* b := assignPointToSeed seed distance dy dx in
  let stillActive := b || stillActive in
  let* b := assignPointToSeed seed distance dy (- dx) in
  let stillActive := b || stillActive in
  let* b := assignPointToSeed seed distance (- dx) dy in
  let stillActive := b || stillActive in
  let* b := assignPointToSeed seed distance (- dx) (- dy) in
  let stillActive := b || stillActive in
  let* b := assignPointToSeed seed distance (- dy) dx in
  let stillActive := b || stillActive in
  let* b := assignPointToSeed seed distance (- dy) (- dx) in
  let stillActive := b || stillActive in
  ret stillActive.

(** ** Ring generation and the tessellation loop (voronoi.go, lines 119-204) *)

(** The loop [for dy >= dx { append; dx++; dy-- }] of getProximityDistances.
    The fuel bounds the number of iterations; [octantLoop_fuel] below shows
    that the fuel given by [getProximityDistances] is never exhausted. *)
Fixpoint octantLoop (fuel : nat) (dx dy : Z) (combinations : list Point) : list Point :=
  match fuel with
  | O => combinations
  | S fuel' =>
      if dy >=? dx
      then octantLoop fuel' (dx + 1) (dy - 1)
             (combinations ++ [mkPoint dx dy None None])
      else combinations
  end.

Definition getProximityDistances : M (list Point) :=
  modify (fun v => set_radius (radius v + 1) v) ;;
  let* v := get in
  let dx := 0 in
  let dy := radius v in
  ret (octantLoop (Z.to_nat (dy + 1)) dx dy []).

(** [for _, x := range l { acc = body(x, acc) }] *)
Fixpoint forRange {T S} (l : list T) (body : T -> S -> M S) (acc : S) : M S :=
  match l with
  | [] => ret acc
  | x :: l' => let* acc' := body x acc in forRange l' body acc'
  end.

(** [for i := lo; i < hi; i++ { acc = body(i, acc) }] *)
Definition forZ {S} (lo hi : Z) (body : Z -> S -> M S) (acc : S) : M S :=
  forRange (seqZ lo (hi - lo)) body acc.

(** The body of the inner loop of Tessellate: the table entry is read
    before the call, as an argument of it. *)
Definition growBody (seed : Point) (distance : Point) (stillActive : bool) : M bool :=
  let* v := get in
  let* d := lift (index2 (distances v) (X distance) (Y distance)) in
  let* b := assignPointsToSeed seed d (X distance) (Y distance) in
  ret (b || stillActive).

(** The inner loop of Tessellate for one seed: the result is [stillActive]. *)
Definition growSeed (seed : Point) (proximityDistances : list Point) : M bool :=
  forRange proximityDistances (growBody seed) false.

(** The body of the loop over the active seeds. *)
Definition ringBody (proximityDistances : list Point) (seed : Point)
    (stillActiveSeeds : list Point) : M (list Point) :=
  let* stillActive := growSeed seed proximityDistances in
  ret (if stillActive then stillActiveSeeds ++ [seed] else stillActiveSeeds).

(** One iteration of the loop of Tessellate: one ring. *)
Definition ring : M unit :=
  let* proximityDistances := getProximityDistances in
  let* v := get in
  let* stillActiveSeeds :=
    forRange (activeSeeds v) (ringBody proximityDistances) [] in
  modify (set_activeSeeds stillActiveSeeds).

Inductive outcome : Type :=
| Returned (v : Voronoi)   (* Tessellate returned nil *)
| Panicked                 (* a run-time panic *)
| OutOfFuel.               (* the loop would go on *)

(** [Tessellate]: the loop [for len(v.activeSeeds) > 0] runs at most [fuel]
    rings in the model. *)
Fixpoint Tessellate (fuel : nat) (hideIterations : bool) (v : Voronoi) : outcome :=
  match activeSeeds v with
  | [] => Returned v
  | _ :: _ =>
      match fuel with
      | O => OutOfFuel
      | S fuel' =>
          match ring v with
          | None => Panicked
          | Some (_, v') =>
              if negb hideIterations then Returned v'
              else Tessellate fuel' hideIterations v'
          end
      end
  end.

(** ** Construction and initialisation (voronoi.go, lines 28-117) *)

Definition tooManySeeds : string :=
  "Number of seeds cannot be more than the pixels in the canvas".

(** [NewVoronoi]: [None] is a panic (of [make]), [inr] the returned error. *)
Definition NewVoronoi (width height numSeeds : Z) : option (Voronoi + string) :=
  if numSeeds >? width * height then Some (inr tooManySeeds)
  else
    match make (2 * width + 1) [], make width [] with
    | Some distances, Some diagram =>
        Some (inl (mkVoronoi width height numSeeds [] [] diagram 0 distances))
    | _, _ => None
    end.

Definition initDistances : M unit :=
  let* v := get in
  forZ 0 (2 * width v + 1)
    (fun i _ =>
       let* column := lift (make (2 * height v + 1) 0) in
       let* v := get in
       let* t := lift (store (distances v) i column) in
       modify (set_distances t) ;;
       forZ 0 (2 * height v + 1)
         (fun j _ =>
            let* v := get in
            let* t := lift (store2 (distances v) i j (i * i + j * j)) in
            modify (set_distances t))
         tt)
    tt.

Definition initDiagram : M unit :=
  let* v := get in
  forZ 0 (width v)
    (fun i _ =>
       let* column := lift (make (height v) None) in
       let* v := get in
       let* d := lift (store (diagram v) i column) in
       modify (set_diagram d) ;;
       forZ 0 (height v) (fun j _ => writeCell i j None) tt)
    tt.

(** The random source: raw draws and the number of draws made so far. *)
Record Rand := mkRand { draws : nat -> Z; cursor : nat }.

(** [r.Intn(n)]: panics when [n <= 0], else a value in [[0, n)]. *)
Definition Intn (n : Z) (r : Rand) : option (Z * Rand) :=
  if n <=? 0 then None
  else Some (draws r (cursor r) mod n, mkRand (draws r) (S (cursor r))).

(** The conversion [uint8(n)]. *)
Definition uint8 (n : Z) : byte :=
  match Byte.of_N (Z.to_N (n mod 256)) with
  | Some b => b
  | None => x00
  end.

(** The body of the loop of [initSeeds]: the draws are made in the order
    of the source ([x], [y], then the four colour channels). *)
Definition seedBody (i : Z) (r : Rand) : M Rand :=
  let* v := get in
  let* xr := lift (Intn (width v) r) in
  let* yr := lift (Intn (height v) xr.2) in
  let d := 0 in
  let* cr := lift (Intn 256 yr.2) in
  let* cg := lift (Intn 256 cr.2) in
  let* cb := lift (Intn 256 cg.2) in
  let* ca := lift (Intn 256 cb.2) in
  let seed :=
    mkPoint xr.1 yr.1 (Some d)
      (Some (mkColor (uint8 cr.1) (uint8 cg.1) (uint8 cb.1) (uint8 ca.1))) in
  modify (fun v => set_seeds (seeds v ++ [seed]) v) ;;
  writeCell (X seed) (Y seed) (Some seed) ;;
  ret ca.2.

Definition initSeeds (r : Rand) : M unit :=
  modify (set_seeds []) ;;
  let* v := get in
  let* _ := forZ 0 (numSeeds v) seedBody r in
  ret tt.

Definition initTessellation : M unit :=
  modify (set_radius 0) ;;
  modify (fun v => set_activeSeeds (seeds v) v).

(** [Init]; the argument is the random source that initSeeds creates. *)
Definition Init (r : Rand) : M unit :=
  initDistances ;;
  initDiagram ;;
  initSeeds r ;;
  initTessellation.

(** ** Export (voronoi.go, lines 221-255) *)

(** The four stores [pixels[pos] = r; ...; pixels[pos+3] = a]. *)
Definition storePixel (pixels : list byte) (pos : Z) (r g b a : byte) : option (list byte) :=
  match store pixels pos r with
  | Some p1 =>
      match store p1 (pos + 1) g with
      | Some p2 =>
          match store p2 (pos + 2) b with
          | Some p3 => store p3 (pos + 3) a
          | None => None
          end
      | None => None
      end
  | None => None
  end.

(** The body of the inner loop of [ToPixels], for the cell [(i, j)]:
    [v.diagram[i][j] != nil && v.diagram[i][j].Color != nil] chooses between
    the stored colour and black. *)
Definition pixelBody (v : Voronoi) (i j : Z) (pixels : list byte) : M (list byte) :=
  let pos := (j * width v + i) * 4 in
  let* c := readCell i j in
  match c with
  | Some (mkPoint _ _ _ (Some col)) =>
      lift (storePixel pixels pos (R col) (G col) (B col) (A col))
  | _ =>
      lift (storePixel pixels pos x00 x00 x00 x00)
  end.

(** The body of the loop of [ToPixels] over the seeds. *)
Definition markSeed (v : Voronoi) (s : Point) (pixels : list byte) : M (list byte) :=
  let pos := (Y s * width v + X s) * 4 in
  lift (storePixel pixels pos x00 x00 x00 x00).

Definition ToPixels : M (list byte) :=
  let* v := get in
  let* pixels := lift (make (width v * height v * 4) x00) in
  let* pixels :=
    forZ 0 (width v)
      (fun i pixels => forZ 0 (height v) (pixelBody v i) pixels)
      pixels in
  forRange (seeds v) (markSeed v) pixels.

(** ** The revisions of the engine with getIncrementalVectors (part_003)

    Two later revisions of voronoi.go generate the eight reflections in
    the ring generator and look the distance up by absolute values.  The
    struct, NewVoronoi, Init, assignPointToSeed, pointFromDiagram and
    ToPixels are those of voronoi.go. *)

(** abs is a utility function to compute the absolute value of an int. *)
Definition abs (x : Z) : Z := if x <? 0 then - x else x.

(** The eight appends of one iteration of getIncrementalVectors. *)
Definition eightVectors (dx dy : Z) : list Point :=
  [ mkPoint dx dy None None; mkPoint dx (- dy) None None;
    mkPoint (- dx) dy None None; mkPoint (- dx) (- dy) None None;
    mkPoint dy dx None None; mkPoint dy (- dx) None None;
    mkPoint (- dy) dx None None; mkPoint (- dy) (- dx) None None ].

(** The body of the inner loop of Tessellate in both revisions. *)
Definition vectorBody (seed : Point) (incrementalVector : Point) (stillActive : bool) :
    M bool :=
  let* v := get in
  let* d := lift (index2 (distances v)
                    (abs (X incrementalVector)) (abs (Y incrementalVector))) in
  let* b := assignPointToSeed seed d (X incrementalVector) (Y incrementalVector) in
  ret (b || stillActive).

(** The body of the loop over the active seeds in both revisions. *)
Definition vectorSeedBody (incrementalVectors : list Point) (seed : Point)
    (stillActiveSeeds : list Point) : M (list Point) :=
  let* stillActive := forRange incrementalVectors (vectorBody seed) false in
  ret (if stillActive then stillActiveSeeds ++ [seed] else stillActiveSeeds).

(** One iteration of the loop of Tessellate, over the ring generator of
    the revision. *)
Definition vectorRing (getIncrementalVectors : M (list Point)) : M unit :=
  let* incrementalVectors := getIncrementalVectors in
  let* v := get in
  let* stillActiveSeeds :=
    forRange (activeSeeds v) (vectorSeedBody incrementalVectors) [] in
  modify (set_activeSeeds stillActiveSeeds).

(** Tessellate of both revisions (part_003, lines 134-175 and 437-470). *)
Fixpoint vectorTessellate (getIncrementalVectors : M (list Point))
    (fuel : nat) (hideIterations : bool) (v : Voronoi) : outcome :=
  match activeSeeds v with
  | [] => Returned v
  | _ :: _ =>
      match fuel with
      | O => OutOfFuel
      | S fuel' =>
          match vectorRing getIncrementalVectors v with
          | None => Panicked
          | Some (_, v') =>
              if negb hideIterations then Returned v'
              else vectorTessellate getIncrementalVectors fuel' hideIterations v'
          end
      end
  end.

(** The revision of part_003, lines 1-304: the walk starts at [(radius, 0)]. *)
Module FromRight.

(** The loop [for dx >= dy { eight appends; dx--; dy++ }]. *)
Fixpoint vectorsLoop (fuel : nat) (dx dy : Z) (combinations : list Point) : list Point :=
  match fuel with
  | O => combinations
  | S fuel' =>
      if dx >=? dy
      then vectorsLoop fuel' (dx - 1) (dy + 1) (combinations ++ eightVectors dx dy)
      else combinations
  end.

Definition getIncrementalVectors : M (list Point) :=
  modify (fun v => set_radius (radius v + 1) v) ;;
  let* v := get in
  let dx := radius v in
  let dy := 0 in
  ret (vectorsLoop (Z.to_nat (dx + 1)) dx dy []).

Definition ring : M unit := vectorRing getIncrementalVectors.

Definition Tessellate : nat -> bool -> Voronoi -> outcome :=
  vectorTessellate getIncrementalVectors.

End FromRight.

(** The revision of part_003, lines 305-582: the walk starts at
    [(0, radius)], as in voronoi.go. *)
Module FromTop.

(** The loop [for dy >= dx { eight appends; dx++; dy-- }]. *)
Fixpoint vectorsLoop (fuel : nat) (dx dy : Z) (combinations : list Point) : list Point :=
  match fuel with
  | O => combinations
  | S fuel' =>
      if dy >=? dx
      then vectorsLoop fuel' (dx + 1) (dy - 1) (combinations ++ eightVectors dx dy)
      else combinations
  end.

Definition getIncrementalVectors : M (list Point) :=
  modify (fun v => set_radius (radius v + 1) v) ;;
  let* v := get in
  let dx := 0 in
  let dy := radius v in
  ret (vectorsLoop (Z.to_nat (dy + 1)) dx dy []).

Definition ring : M unit := vectorRing getIncrementalVectors.

Definition Tessellate : nat -> bool -> Voronoi -> outcome :=
  vectorTessellate getIncrementalVectors.

End FromTop.

(** ** The game loop (game.go, main.go)

    [Game] drives the engine from the callbacks of the ebiten library.  The
    field [voronoi] is the interface value [VoronoiDiagram]; its only
    implementation is [*Voronoi], so the field is modelled by the engine
    state.  The keys read by [inpututil.IsKeyJustPressed] and the random
    source of each [Init] are inputs of the model; [time.Sleep] has no
    effect on the state. *)

Record Game := mkGame {
  g_width : Z;
  g_height : Z;
  frameDuration : Z;
  gameRunning : bool;
  g_numSeeds : Z;
  voronoi : Voronoi
}.

Definition set_gameRunning (b : bool) (g : Game) : Game :=
  mkGame (g_width g) (g_height g) (frameDuration g) b (g_numSeeds g) (voronoi g).

Definition set_voronoi (v : Voronoi) (g : Game) : Game :=
  mkGame (g_width g) (g_height g) (frameDuration g) (gameRunning g) (g_numSeeds g) v.

(** [NewGame]: [None] is a panic of [voronoi.Init()]; the returned error is
    always nil.  The field [numSeeds] is left at its zero value. *)
Definition NewGame (width height : Z) (voronoi : Voronoi) (frameDuration : Z)
    (r : Rand) : option Game :=
  match Init r voronoi with
  | Some (_, voronoi') => Some (mkGame width height frameDuration true 0 voronoi')
  | None => None
  end.

Inductive gameOutcome : Type :=
| GameReturned (g : Game)   (* Update returned nil *)
| GamePanicked
| GameOutOfFuel.

(** [Update]: [enterPressed] and [spacePressed] are the results of
    [inpututil.IsKeyJustPressed] for the keys Enter and Space. *)
Definition Update (enterPressed spacePressed : bool) (r : Rand) (fuel : nat)
    (g : Game) : gameOutcome :=
  let g := if enterPressed then set_gameRunning (negb (gameRunning g)) g else g in
  match (if spacePressed then Init r (voronoi g) else Some (tt, voronoi g)) with
  | None => GamePanicked
  | Some (_, v1) =>
      let g := set_voronoi v1 g in
      if gameRunning g then
        match Tessellate fuel true (voronoi g) with
        | Returned v2 => GameReturned (set_voronoi v2 g)
        | Panicked => GamePanicked
        | OutOfFuel => GameOutOfFuel
        end
      else GameReturned g
  end.

(** [Draw]: the bytes handed to [screen.WritePixels], and the game after
    the call. *)
Definition Draw (g : Game) : option (list byte * Game) :=
  match ToPixels (voronoi g) with
  | Some (pixels, v') => Some (pixels, set_voronoi v' g)
  | None => None
  end.

Definition Layout (outsideWidth outsideHeight : Z) (g : Game) : Z * Z :=
  (g_width g, g_height g).

(** The inputs of one tick of the game loop. *)
Record Tick := mkTick {
  enterPressed : bool;
  spacePressed : bool;
  tickRand : Rand;
  tickFuel : nat
}.

(** The calls [ebiten.RunGame] makes: [Update] at every tick. *)
Fixpoint updates (ticks : list Tick) (g : Game) : gameOutcome :=
  match ticks with
  | [] => GameReturned g
  | t :: rest =>
      match Update (enterPressed t) (spacePressed t) (tickRand t) (tickFuel t) g with
      | GameReturned g' => updates rest g'
      | GamePanicked => GamePanicked
      | GameOutOfFuel => GameOutOfFuel
      end
  end.

(** [main] up to the call of [ebiten.RunGame]: the game it builds; [None]
    is one of its panics. *)
Definition mainGame (r : Rand) : option Game :=
  let w := 400 in
  let h := 400 in
  let numSeeds := 100 in
  let frameDuration := 0 in
  match NewVoronoi w h numSeeds with
  | Some (inl v) => NewGame w h v frameDuration r
  | _ => None
  end.

(** ** The canvas with hideIterations (part_001) *)

Module Canvas.

Record Canvas := mkCanvas {
  c_width : Z;
  c_height : Z;
  gameRunning : bool;
  hideIterations : bool;
  voronoi : Voronoi
}.

Definition NewCanvas (width height : Z) (hideIterations : bool) (voronoi : Voronoi)
    (r : Rand) : option Canvas :=
  match Init r voronoi with
  | Some (_, voronoi') => Some (mkCanvas width height true hideIterations voronoi')
  | None => None
  end.

Inductive canvasOutcome : Type :=
| CanvasReturned (g : Canvas)
| CanvasPanicked
| CanvasOutOfFuel.

Definition Update (enterPressed spacePressed : bool) (r : Rand) (fuel : nat)
    (g : Canvas) : canvasOutcome :=
  let running := if enterPressed then negb (gameRunning g) else gameRunning g in
  match (if spacePressed then Init r (voronoi g) else Some (tt, voronoi g)) with
  | None => CanvasPanicked
  | Some (_, v1) =>
      if running then
        match Tessellate fuel (hideIterations g) v1 with
        | Returned v2 =>
            CanvasReturned (mkCanvas (c_width g) (c_height g) running (hideIterations g) v2)
        | Panicked => CanvasPanicked
        | OutOfFuel => CanvasOutOfFuel
        end
      else CanvasReturned (mkCanvas (c_width g) (c_height g) running (hideIterations g) v1)
  end.

End Canvas.

(** [k] ticks of the canvas with no key pressed. *)
Fixpoint idleTicks (k : nat) (r : Rand) (fuel : nat) (g : Canvas.Canvas) :
    Canvas.canvasOutcome :=
  match k with
  | O => Canvas.CanvasReturned g
  | S k' =>
      match Canvas.Update false false r fuel g with
      | Canvas.CanvasReturned g' => idleTicks k' r fuel g'
      | Canvas.CanvasPanicked => Canvas.CanvasPanicked
      | Canvas.CanvasOutOfFuel => Canvas.CanvasOutOfFuel
      end
  end.

(** ** Views of the state used in the statements *)

(** The diagram entry at [(x, y)]: [None] when the indices are out of range,
    [Some None] for a nil entry. *)
Definition cell (v : Voronoi) (x y : Z) : option (option Point) :=
  index2 (diagram v) x y.

Definition inGrid (v : Voronoi) (x y : Z) : Prop :=
  0 <= x < width v /\ 0 <= y < height v.

(** The stored distance of a cell; [None] for an unassigned cell (a nil
    entry or an empty point). *)
Definition dist_at (v : Voronoi) (x y : Z) : option Z :=
  match cell v x y with
  | Some (Some p) => Distance p
  | _ => None
  end.

(** The stored colour of a cell. *)
Definition color_at (v : Voronoi) (x y : Z) : option Color :=
  match cell v x y with
  | Some (Some p) => PColor p
  | _ => None
  end.

Definition assignedAt (v : Voronoi) (x y : Z) : Prop := is_Some (dist_at v x y).

(** The diagram has an entry exactly at the coordinates of the grid, and a
    stored point carries its own coordinates. *)
Record shaped (v : Voronoi) : Prop := mkShaped {
  shaped_len : Z.of_nat (length (diagram v)) = width v;
  shaped_grid : forall x y, is_Some (cell v x y) <-> inGrid v x y;
  shaped_pos : forall x y p, cell v x y = Some (Some p) -> X p = x /\ Y p = y
}.

(** The other fields of [v'] are those of [v]. *)
Definition sameButDiagram (v v' : Voronoi) : Prop :=
  v' = set_diagram (diagram v') v /\ length (diagram v') = length (diagram v).

(** Stored distances never grow and assignments are never lost. *)
Definition mono (v v' : Voronoi) : Prop :=
  forall x y d, dist_at v x y = Some d ->
    exists d', dist_at v' x y = Some d' /\ d' <= d.

(** The eight offsets probed by [assignPointsToSeed seed _ dx dy], in the
    order of the calls. *)
Definition reflections (dx dy : Z) : list (Z * Z) :=
  [ (dx, dy); (dx, - dy); (dy, dx); (dy, - dx);
    (- dx, dy); (- dx, - dy); (- dy, dx); (- dy, - dx) ].

(** The octant points of the ring of radius [r]. *)
Definition octant (r : Z) : list Point :=
  octantLoop (Z.to_nat (r + 1)) 0 r [].

(** All offsets probed for one seed during the ring of radius [r]. *)
Definition ringOffsets (r : Z) : list (Z * Z) :=
  flat_map (fun p => reflections (X p) (Y p)) (octant r).

(** The distance table is the one built by [initDistances]. *)
Definition inTable (v : Voronoi) (i j : Z) : bool :=
  (0 <=? i) && (i <=? 2 * width v) && (0 <=? j) && (j <=? 2 * height v).

Record tableReady (v : Voronoi) : Prop := mkTableReady {
  table_len : Z.of_nat (length (distances v)) = 2 * width v + 1;
  table_at : forall i j,
    index2 (distances v) i j =
    if inTable v i j then Some (i * i + j * j) else None
}.

(** The probes of one [assignPointsToSeed] call: offsets with the candidate
    distance. *)
Definition probes (distance dx dy : Z) : list (Z * Z * Z) :=
  map (fun o => (o.1, o.2, distance)) (reflections dx dy).

(** The probes made for one seed over the octant points [prox], with the
    candidate distances a ready table provides. *)
Definition ringProbes (prox : list Point) : list (Z * Z * Z) :=
  flat_map (fun p => probes (X p * X p + Y p * Y p) (X p) (Y p)) prox.

(** What a sequence of claim attempts [offs] of [seed] does to the state:
    [b] tells whether some attempt succeeded. *)
Record grows (seed : Point) (offs : list (Z * Z * Z)) (v v' : Voronoi) (b : bool) : Prop :=
  mkGrows {
  grows_same : sameButDiagram v v';
  grows_shaped : shaped v';
  grows_mono : mono v v';
  grows_cells : forall x y,
    cell v' x y = cell v x y \/
    (b = true /\ inGrid v x y /\
     exists d, (x - X seed, y - Y seed, d) ∈ offs /\
       cell v' x y = Some (Some (mkPoint x y (Some d) (PColor seed))));
  grows_cover : forall dx dy d, (dx, dy, d) ∈ offs ->
    inGrid v (X seed + dx) (Y seed + dy) ->
    assignedAt v' (X seed + dx) (Y seed + dy);
  grows_active : b = true ->
    exists dx dy d, (dx, dy, d) ∈ offs /\ inGrid v (X seed + dx) (Y seed + dy)
}.

(** [v'] is [v] with the diagram entry at [(x, y)] replaced by [p]. *)
Definition updatedAt (v v' : Voronoi) (x y : Z) (p : Point) : Prop :=
  sameButDiagram v v' /\
  forall x' y', cell v' x' y' =
    if (x' =? x) && (y' =? y) then Some (Some p) else cell v x' y'.

(** The loop over the active seeds as a chain of [grows] steps: from the
    seeds [todo] still to process and the seeds [still] kept so far. *)
Inductive ringRun (prox : list Point) :
    list Point -> list Point -> Voronoi -> list Point -> Voronoi -> Prop :=
| ringRun_nil still v : ringRun prox [] still v still v
| ringRun_cons seed todo still v b v1 still' v' :
    grows seed (ringProbes prox) v v1 b ->
    ringRun prox todo (if b then still ++ [seed] else still) v1 still' v' ->
    ringRun prox (seed :: todo) still v still' v'.

(** The distance in rings (L1) from a seed to a cell. *)
Definition l1 (s : Point) (x y : Z) : Z := Z.abs (x - X s) + Z.abs (y - Y s).

(** Every cell of the grid within [k] rings of [s] is assigned. *)
Definition covered (v : Voronoi) (s : Point) (k : Z) : Prop :=
  forall x y, inGrid v x y -> l1 s x y <= k -> assignedAt v x y.

(** The wavefront invariant between rings: an active seed has covered its
    rings up to the current radius, and an assigned cell was claimed by a
    seed that has covered, or is about to cover, the next ring around it. *)
Record wave (v : Voronoi) : Prop := mkWave {
  wave_active : forall s, s ∈ activeSeeds v -> covered v s (radius v);
  wave_cells : forall x y, assignedAt v x y ->
    exists s, covered v s (l1 s x y + 1) \/
              (l1 s x y = radius v /\ s ∈ activeSeeds v)
}.

(** The wavefront invariant inside the ring of radius [r]. *)
Record midwave (r : Z) (v : Voronoi) (todo still : list Point) : Prop := mkMidwave {
  mid_still : forall s, s ∈ still -> covered v s r;
  mid_todo : forall s, s ∈ todo -> covered v s (r - 1);
  mid_cells : forall x y, assignedAt v x y ->
    exists s, covered v s (l1 s x y + 1) \/
              (l1 s x y = r - 1 /\ s ∈ todo) \/
              (l1 s x y = r /\ s ∈ still)
}.

(** Every assigned cell carries the colour of a seed and the squared
    Euclidean distance to it. *)
Definition owned (v : Voronoi) : Prop :=
  forall x y p d, cell v x y = Some (Some p) -> Distance p = Some d ->
    exists s, s ∈ seeds v /\ PColor p = PColor s /\
              d = (x - X s) * (x - X s) + (y - Y s) * (y - Y s).

(** The invariant of the engine states: what [Init] establishes and each
    ring preserves. *)
Record good (v : Voronoi) : Prop := mkGood {
  good_width : 0 < width v;
  good_height : 0 < height v;
  good_radius : 0 <= radius v;
  good_shaped : shaped v;
  good_table : tableReady v;
  good_seeds : forall s, s ∈ seeds v -> inGrid v (X s) (Y s);
  good_active : forall s, s ∈ activeSeeds v -> s ∈ seeds v;
  good_planted : forall s, s ∈ seeds v -> assignedAt v (X s) (Y s);
  good_bound : forall s, s ∈ activeSeeds v -> radius v <= width v + height v - 2;
  good_wave : wave v;
  good_owned : owned v
}.

(** What every ring, and so every call of [Tessellate], preserves. *)
Record advances (v v' : Voronoi) : Prop := mkAdvances {
  adv_width : width v' = width v;
  adv_height : height v' = height v;
  adv_numSeeds : numSeeds v' = numSeeds v;
  adv_seeds : seeds v' = seeds v;
  adv_distances : distances v' = distances v;
  adv_radius : radius v <= radius v';
  adv_active : sublist (activeSeeds v') (activeSeeds v);
  adv_mono : mono v v'
}.

(** A sequence of calls of [Tessellate], each with its fuel and its
    [hideIterations] flag. *)
Fixpoint TessellateMany (calls : list (nat * bool)) (v : Voronoi) : outcome :=
  match calls with
  | [] => Returned v
  | (fuel, hideIterations) :: rest =>
      match Tessellate fuel hideIterations v with
      | Returned v' => TessellateMany rest v'
      | Panicked => Panicked
      | OutOfFuel => OutOfFuel
      end
  end.

(** *** The state after [Init], in closed form *)

(** The distance table built by [initDistances]. *)
Definition table (w h : Z) : list (list Z) :=
  (fun i => (fun j => i * i + j * j) <$> seqZ 0 (2 * h + 1)) <$> seqZ 0 (2 * w + 1).

(** The diagram built by [initDiagram]: all entries nil. *)
Definition emptyDiagram (w h : Z) : list (list (option Point)) :=
  (fun _ : Z => replicate (Z.to_nat h) None) <$> seqZ 0 w.

(** The seed made of the next six draws. *)
Definition drawSeed (w h : Z) (r : Rand) : Point * Rand :=
  let d := fun k => draws r (k + cursor r)%nat in
  (mkPoint (d 0%nat mod w) (d 1%nat mod h) (Some 0)
     (Some (mkColor (uint8 (d 2%nat mod 256)) (uint8 (d 3%nat mod 256))
                    (uint8 (d 4%nat mod 256)) (uint8 (d 5%nat mod 256)))),
   mkRand (draws r) (6 + cursor r)%nat).

Fixpoint genSeeds (n : nat) (w h : Z) (r : Rand) : list Point :=
  match n with
  | O => []
  | S n' => (drawSeed w h r).1 :: genSeeds n' w h (drawSeed w h r).2
  end.

(** [d[s.X][s.Y] = &s] on a diagram where the entry exists. *)
Definition plant (d : list (list (option Point))) (s : Point) :
    list (list (option Point)) :=
  match store2 d (X s) (Y s) (Some s) with
  | Some d' => d'
  | None => d
  end.

Definition startState (w h n : Z) (ss : list Point) : Voronoi :=
  mkVoronoi w h n ss ss (foldl plant (emptyDiagram w h) ss) 0 (table w h).

(** A diagram with an entry exactly at the coordinates of a [w] by [h]
    grid. *)
Definition gridlike (d : list (list (option Point))) (w h : Z) : Prop :=
  forall x y, is_Some (index2 d x y) <-> 0 <= x < w /\ 0 <= y < h.

(** A seed as [initSeeds] makes it: on the grid, at distance 0 of itself. *)
Definition seedLike (w h : Z) (s : Point) : Prop :=
  0 <= X s < w /\ 0 <= Y s < h /\ Distance s = Some 0.

(** An entry of the diagram after [initSeeds]: nil, or a seed at its place. *)
Definition seedCell (all : list Point) (x y : Z) (c : option Point) : Prop :=
  c = None \/ exists s, s ∈ all /\ c = Some s /\ X s = x /\ Y s = y.

(** *** Views of the exported buffer *)

(** The byte offset of pixel [(x, y)]. *)
Definition offsetOf (v : Voronoi) (x y : Z) : Z := (y * width v + x) * 4.

(** The four bytes of a buffer from offset [pos]. *)
Definition pixelAt (pixels : list byte) (pos : Z) : list (option byte) :=
  [index pixels pos; index pixels (pos + 1);
   index pixels (pos + 2); index pixels (pos + 3)].

Definition blank : list (option byte) := [Some x00; Some x00; Some x00; Some x00].

(** The bytes of the stored colour of a cell; an unassigned cell is blank. *)
Definition cellBytes (v : Voronoi) (x y : Z) : list (option byte) :=
  match color_at v x y with
  | Some col => [Some (R col); Some (G col); Some (B col); Some (A col)]
  | None => blank
  end.

(** Some seed of the list lies at [(x, y)]. *)
Definition seedAt (ss : list Point) (x y : Z) : Prop :=
  exists s, s ∈ ss /\ X s = x /\ Y s = y.

(** What [NewVoronoi] allocates and no method resizes. *)
Definition allocated (v : Voronoi) : Prop :=
  Z.of_nat (length (distances v)) = 2 * width v + 1 /\
  Z.of_nat (length (diagram v)) = width v.

(** The states the engine can be in: after [NewVoronoi] and [Init] on a
    canvas, after further calls of [Tessellate] that return, and after
    [Init] is called again. *)
Inductive reachable : Voronoi -> Prop :=
| reach_init w h n r v0 v :
    0 < w -> 0 < h -> 0 <= n ->
    NewVoronoi w h n = Some (inl v0) -> Init r v0 = Some (tt, v) ->
    reachable v
| reach_step fuel hideIterations v v' :
    reachable v -> Tessellate fuel hideIterations v = Returned v' ->
    reachable v'
| reach_reinit r v v' :
    reachable v -> Init r v = Some (tt, v') -> reachable v'.

(** The canvases on which every ring that can be started finds its
    distances in the table. *)
Definition tableCovers (w h : Z) : Prop := w <= h + 1 /\ h <= 3 * w + 1.

(** A random source that replays the given draws. *)
Definition rngOf (l : list Z) : Rand := mkRand (fun i => nth i l 0) 0.

(** The claim attempts of a list of probes, one after the other: the
    reference against which the nested loops of Tessellate are compared. *)
Definition probeBody (seed : Point) (p : Z * Z * Z) (stillActive : bool) : M bool :=
  let* b := assignPointToSeed seed p.2 p.1.1 p.1.2 in
  ret (b || stillActive).


(** *** The ring with a log of its claim attempts

    The same loops as [ring], recording the result of every claim attempt
    instead of folding them into [stillActive]. *)

Definition probeLog (seed : Point) (ps : list (Z * Z * Z)) (log : list bool) :
    M (list bool) :=
  forRange ps
    (fun p log =>
       let* b := assignPointToSeed seed p.2 p.1.1 p.1.2 in
       ret (log ++ [b]))
    log.

Definition seedLogBody (seed : Point) (distance : Point) (log : list bool) :
    M (list bool) :=
  let* v := get in
  let* d := lift (index2 (distances v) (X distance) (Y distance)) in
  probeLog seed (probes d (X distance) (Y distance)) log.

Definition seedLog (seed : Point) (prox : list Point) : M (list bool) :=
  forRange prox (seedLogBody seed) [].

Definition ringLogBody (prox : list Point) (seed : Point)
    (log : list (Point * list bool)) : M (list (Point * list bool)) :=
  let* l := seedLog seed prox in
  ret (log ++ [(seed, l)]).

Definition ringLog : M (list (Point * list bool)) :=
  let* proximityDistances := getProximityDistances in
  let* v := get in
  forRange (activeSeeds v) (ringLogBody proximityDistances) [].

(** At least one claim attempt of the list succeeded. *)
Definition anySuccess (l : list bool) : bool := existsb id l.

(** The seeds of a ring log with at least one successful claim attempt, in
    the order of the log. *)
Definition keptSeeds (log : list (Point * list bool)) : list Point :=
  map fst (List.filter (fun e => anySuccess e.2) log).

(** Two runs that panic together, or return related results and the same
    state. *)
Definition agree {SA SB} (Rel : SA -> SB -> Prop)
    (ra : option (SA * Voronoi)) (rb : option (SB * Voronoi)) : Prop :=
  match ra, rb with
  | Some (a, v1), Some (b, v2) => Rel a b /\ v1 = v2
  | None, None => True
  | _, _ => False
  end.

(** The eight reflections in the order the specification lists them. *)
Definition specReflections (dx dy : Z) : list (Z * Z) :=
  [ (dx, dy); (dx, - dy); (- dx, dy); (- dx, - dy);
    (dy, dx); (dy, - dx); (- dy, dx); (- dy, - dx) ].

(** Overwrites happen only on equal-distance ties: across a call of
    [Tessellate] on a state the engine can be in, the stored distance of an
    assigned cell is never replaced by a strictly smaller one. *)
Definition overwritesOnlyTies : Prop :=
  forall v fuel hideIterations v' x y d d',
    reachable v -> Tessellate fuel hideIterations v = Returned v' ->
    dist_at v x y = Some d -> dist_at v' x y = Some d' -> ~ d' < d.

(** *** A small engine: two seeds on a 4 by 4 canvas *)

Definition demoRand : Rand := rngOf [0; 0; 10; 20; 30; 40; 2; 1; 1; 2; 3; 4].

Definition demoSeedA : Point := mkPoint 0 0 (Some 0) (Some (mkColor x0a x14 x1e x28)).
Definition demoSeedB : Point := mkPoint 2 1 (Some 0) (Some (mkColor x01 x02 x03 x04)).

(** The state after [NewVoronoi 4 4 2] and [Init] with the draws of
    [demoRand]. *)
Definition demo : Voronoi := startState 4 4 2 [demoSeedA; demoSeedB].

(** *** Runs, canvases and invariants used for the whole engine *)


(** [k] calls of [Tessellate(false)], one ring each. *)
Definition frames (k : nat) : list (nat * bool) := repeat (1%nat, false) k.

(** The canvases on which the table of [initDistances] covers every ring
    that voronoi.go can start. *)
Definition safeCanvas (w h : Z) : Prop := w <= h + 1 /\ h <= 3 * w + 2.

(** Every non-nil entry of the diagram was claimed by a seed within [r]
    rings: it stores the seed's colour and the squared distance to it. *)
Definition settled (r : Z) (v : Voronoi) : Prop :=
  forall x y p, cell v x y = Some (Some p) ->
    exists d s, Distance p = Some d /\ s ∈ seeds v /\ PColor p = PColor s /\
      d = (x - X s) * (x - X s) + (y - Y s) * (y - Y s) /\ l1 s x y <= r.

(** All assigned cells are at the squared distance of [s]: the case of an
    engine with one seed. *)
Definition lone (s : Point) (v : Voronoi) : Prop :=
  forall x y d, dist_at v x y = Some d ->
    d = (x - X s) * (x - X s) + (y - Y s) * (y - Y s).

(** Every seed of the engine, active or not, has all cells of the grid
    within [radius] rings assigned. *)
Definition swept (v : Voronoi) : Prop :=
  forall s, s ∈ seeds v -> covered v s (radius v).

(** No stored distance exceeds the square of the distance in rings to any
    seed. *)
Definition nearSeeds (v : Voronoi) : Prop :=
  forall s x y d, s ∈ seeds v -> dist_at v x y = Some d ->
    d <= l1 s x y * l1 s x y.

(** Draws that put three seeds at [(0, 0)], [(1, 2)] and [(3, 3)] of a
    4 by 4 canvas. *)
Definition skewRand : Rand :=
  rngOf [0; 0; 1; 1; 1; 1; 1; 2; 2; 2; 2; 2; 3; 3; 3; 3; 3; 3].

(** The bytes of a colour. *)
Definition colourBytes (col : Color) : list (option byte) :=
  [Some (R col); Some (G col); Some (B col); Some (A col)].

(** *** Views of the vectors of part_003 *)

(** The offset of a vector, and the claim attempt made with it when the
    table holds its distance. *)
Definition offsetOfVector (p : Point) : Z * Z := (X p, Y p).

Definition vectorProbe (p : Point) : Z * Z * Z :=
  (X p, Y p, X p * X p + Y p * Y p).

(** The closed form of the vectors of a ring: the eight vectors of each
    octant point. *)
Definition vectorsOf (octantPoints : list Point) : list Point :=
  flat_map (fun p => eightVectors (X p) (Y p)) octantPoints.

(** The octant points of [FromRight]: those of [octant], mirrored. *)
Definition mirrored (p : Point) : Point := mkPoint (Y p) (X p) None None.

(** All lookups that the vectors make are inside the table. *)
Definition vectorsInTable (v : Voronoi) (vecs : list Point) : Prop :=
  forall p, p ∈ vecs -> inTable v (abs (X p)) (abs (Y p)) = true.

(** *** The invariant of the game loop *)

(** The engine of the game is in a state it can be in, on the canvas the
    game was built for. *)
Record gameReady (w h n : Z) (g : Game) : Prop := mkGameReady {
  ready_engine : reachable (voronoi g);
  ready_width : width (voronoi g) = w;
  ready_height : height (voronoi g) = h;
  ready_numSeeds : numSeeds (voronoi g) = n;
  ready_g_width : g_width g = w;
  ready_g_height : g_height g = h
}.

(** * Properties *)

(** ** Slices: lemmas *)

Lemma index_Some {T} (l : list T) (i : Z) (x : T) :
  index l i = Some x <-> 0 <= i /\ l !! Z.to_nat i = Some x.
Proof.
  unfold index. destruct (Z.ltb_spec i 0).
  - split; [discriminate | lia].
  - tauto.
Qed.

Lemma index_is_Some {T} (l : list T) (i : Z) :
  is_Some (index l i) <-> 0 <= i < Z.of_nat (length l).
Proof.
  unfold index. destruct (Z.ltb_spec i 0).
  - split; [intros [? ?]; discriminate | lia].
  - rewrite lookup_lt_is_Some. lia.
Qed.

Lemma store_is_Some {T} (l : list T) (i : Z) (x : T) :
  is_Some (index l i) ->
  exists l', store l i x = Some l' /\ length l' = length l /\
    forall j, index l' j = if j =? i then Some x else index l j.
Proof.
  intros Hi. apply index_is_Some in Hi. unfold store.
  destruct (Z.ltb_spec i 0); [lia|].
  destruct (Z.leb_spec (Z.of_nat (length l)) i); [lia|]. simpl.
  eexists; split; [reflexivity|]. split; [apply length_insert|].
  intros j. unfold index.
  destruct (Z.ltb_spec j 0).
  - destruct (Z.eqb_spec j i); [lia | reflexivity].
  - destruct (Z.eqb_spec j i) as [->|Hne].
    + apply list_lookup_insert_eq. lia.
    + apply list_lookup_insert_ne. lia.
Qed.

Lemma store_Some_inv {T} (l l' : list T) (i : Z) (x : T) :
  store l i x = Some l' -> is_Some (index l i).
Proof.
  unfold store. intros H. apply index_is_Some.
  destruct (Z.ltb_spec i 0); [discriminate|].
  destruct (Z.leb_spec (Z.of_nat (length l)) i); [discriminate|]. lia.
Qed.

Lemma store2_is_Some {T} (m : list (list T)) (x y : Z) (c : T) :
  is_Some (index2 m x y) ->
  exists m', store2 m x y c = Some m' /\ length m' = length m /\
    forall x' y', index2 m' x' y' =
      if (x' =? x) && (y' =? y) then Some c else index2 m x' y'.
Proof.
  unfold index2, store2. intros Hxy.
  destruct (index m x) as [col|] eqn:Hcol; [|destruct Hxy; discriminate].
  destruct (store_is_Some col y c Hxy) as (col' & -> & _ & Hcol').
  destruct (store_is_Some m x col') as (m' & -> & Hlen & Hm');
    [rewrite Hcol; eauto|].
  exists m'. split; [reflexivity|]. split; [exact Hlen|].
  intros x' y'. rewrite Hm'.
  destruct (Z.eqb_spec x' x) as [->|Hne]; simpl.
  - rewrite Hcol, Hcol'. reflexivity.
  - reflexivity.
Qed.

Lemma store2_Some_inv {T} (m m' : list (list T)) (x y : Z) (c : T) :
  store2 m x y c = Some m' -> is_Some (index2 m x y).
Proof.
  unfold store2, index2. destruct (index m x) as [col|]; [|discriminate].
  destruct (store col y c) as [col'|] eqn:Hs; [|discriminate].
  intros _. eapply store_Some_inv, Hs.
Qed.

(** ** The monad: run equations *)

Lemma bind_Some {T U} (m : M T) (k : T -> M U) v x v' :
  m v = Some (x, v') -> bind m k v = k x v'.
Proof. unfold bind. intros ->. reflexivity. Qed.

Lemma bind_inv {T U} (m : M T) (k : T -> M U) v r :
  bind m k v = Some r -> exists x v', m v = Some (x, v') /\ k x v' = Some r.
Proof.
  unfold bind. destruct (m v) as [[x v']|]; [eauto | discriminate].
Qed.

Lemma bind_None {T U} (m : M T) (k : T -> M U) v :
  m v = None -> bind m k v = None.
Proof. unfold bind. intros ->. reflexivity. Qed.

(** Unfold the primitive operations of the monad in the goal. *)
Ltac run := unfold bind, ret, get, lift, modify, panic; simpl.

(** ** Reading and writing cells *)

Lemma sameButDiagram_refl v : sameButDiagram v v.
Proof. split; [destruct v|]; reflexivity. Qed.

Lemma sameButDiagram_trans v1 v2 v3 :
  sameButDiagram v1 v2 -> sameButDiagram v2 v3 -> sameButDiagram v1 v3.
Proof.
  unfold sameButDiagram. intros [H12 L12] [H23 L23]. split; [|congruence].
  rewrite H23, H12. destruct v1; reflexivity.
Qed.

Lemma sameButDiagram_fields v v' :
  sameButDiagram v v' ->
  width v' = width v /\ height v' = height v /\ numSeeds v' = numSeeds v /\
  seeds v' = seeds v /\ activeSeeds v' = activeSeeds v /\
  radius v' = radius v /\ distances v' = distances v.
Proof. intros [-> _]. destruct v; simpl. repeat split. Qed.

Lemma inGrid_same v v' x y :
  sameButDiagram v v' -> inGrid v' x y <-> inGrid v x y.
Proof.
  intros H. apply sameButDiagram_fields in H as (Hw & Hh & _).
  unfold inGrid. rewrite Hw, Hh. reflexivity.
Qed.

Lemma readCell_run x y v :
  readCell x y v = match cell v x y with Some c => Some (c, v) | None => None end.
Proof. reflexivity. Qed.

Lemma writeCell_spec x y c v :
  is_Some (cell v x y) ->
  exists v', writeCell x y c v = Some (tt, v') /\
    sameButDiagram v v' /\
    forall x' y', cell v' x' y' =
      if (x' =? x) && (y' =? y) then Some c else cell v x' y'.
Proof.
  intros Hc.
  destruct (store2_is_Some (diagram v) x y c Hc) as (d & Hd & Hlen & Hlook).
  exists (set_diagram d v). unfold writeCell. run. rewrite Hd.
  split; [reflexivity|]. split; [split; [reflexivity | exact Hlen]|].
  exact Hlook.
Qed.

Lemma writeCell_inv x y c v r :
  writeCell x y c v = Some r -> is_Some (cell v x y).
Proof.
  unfold writeCell. run. unfold cell.
  destruct (store2 (diagram v) x y c) eqn:Hs; [|discriminate].
  intros _. eapply store2_Some_inv, Hs.
Qed.

Lemma pointFromDiagram_assigned x y v p :
  cell v x y = Some (Some p) -> pointFromDiagram x y v = Some (p, v).
Proof.
  intros Hc. unfold pointFromDiagram.
  unfold bind at 1. rewrite readCell_run, Hc.
  unfold bind at 1. unfold ret at 1.
  unfold bind. rewrite readCell_run, Hc. reflexivity.
Qed.

Lemma pointFromDiagram_nil x y v :
  cell v x y = Some None ->
  exists v', pointFromDiagram x y v = Some (mkPoint x y None None, v') /\
    updatedAt v v' x y (mkPoint x y None None).
Proof.
  intros Hc.
  destruct (writeCell_spec x y (Some (mkPoint x y None None)) v)
    as (v' & Hw & Hsame & Hlook); [rewrite Hc; eauto|].
  exists v'. split; [|split; assumption].
  unfold pointFromDiagram.
  unfold bind at 1. rewrite readCell_run, Hc.
  unfold bind at 1. rewrite Hw.
  unfold bind. rewrite readCell_run, Hlook, !Z.eqb_refl. reflexivity.
Qed.

(** ** The four cases of a claim attempt *)

Lemma outside_test v x y :
  (x <? 0) || (x >=? width v) || (y <? 0) || (y >=? height v) = false
  <-> inGrid v x y.
Proof.
  unfold inGrid. rewrite !orb_false_iff, !Z.ltb_ge, !Z.geb_leb, !Z.leb_gt. lia.
Qed.

Lemma assignPointToSeed_outside v seed distance dx dy :
  ~ inGrid v (X seed + dx) (Y seed + dy) ->
  assignPointToSeed seed distance dx dy v = Some (false, v).
Proof.
  intros Hout. unfold assignPointToSeed. unfold bind, get.
  destruct (_ || _) eqn:Htest; [reflexivity|].
  apply outside_test in Htest. contradiction.
Qed.

Lemma assignPointToSeed_closer v seed distance dx dy d :
  shaped v ->
  dist_at v (X seed + dx) (Y seed + dy) = Some d -> d < distance ->
  assignPointToSeed seed distance dx dy v = Some (false, v).
Proof.
  intros Hsh Hd Hlt. unfold dist_at in Hd.
  destruct (cell v _ _) as [[p|]|] eqn:Hc; try discriminate.
  assert (Hin : inGrid v (X seed + dx) (Y seed + dy))
    by (apply (shaped_grid v Hsh); rewrite Hc; eauto).
  unfold assignPointToSeed. unfold bind at 1. unfold get.
  apply outside_test in Hin as ->.
  unfold bind. rewrite (pointFromDiagram_assigned _ _ _ _ Hc).
  unfold closer. rewrite Hd.
  destruct (Z.ltb_spec d distance); [reflexivity | lia].
Qed.

Lemma assignPointToSeed_claims v seed distance dx dy :
  shaped v -> inGrid v (X seed + dx) (Y seed + dy) ->
  (forall d, dist_at v (X seed + dx) (Y seed + dy) = Some d -> distance <= d) ->
  exists v', assignPointToSeed seed distance dx dy v = Some (true, v') /\
    updatedAt v v' (X seed + dx) (Y seed + dy)
      (mkPoint (X seed + dx) (Y seed + dy) (Some distance) (PColor seed)).
Proof.
  intros Hsh Hin Hd.
  set (tx := X seed + dx) in *. set (ty := Y seed + dy) in *.
  unfold assignPointToSeed. unfold bind at 1. unfold get. fold tx ty.
  rewrite (proj2 (outside_test v tx ty) Hin).
  apply (shaped_grid v Hsh) in Hin as [c Hc].
  destruct c as [p|].
  - (* an entry is there: stored distance not smaller, or an empty point *)
    destruct (shaped_pos v Hsh _ _ _ Hc) as [HX HY].
    unfold bind at 1. rewrite (pointFromDiagram_assigned _ _ _ _ Hc).
    assert (closer p distance = false) as ->.
    { unfold closer. destruct (Distance p) as [d|] eqn:Hp; [|reflexivity].
      apply Z.ltb_ge, Hd. unfold dist_at. rewrite Hc. exact Hp. }
    rewrite HX, HY.
    destruct (writeCell_spec tx ty
                (Some (mkPoint tx ty (Some distance) (PColor seed))) v)
      as (v' & Hw & Hsame & Hlook); [rewrite Hc; eauto|].
    exists v'. unfold bind. rewrite Hw. unfold ret.
    split; [reflexivity|]. split; assumption.
  - (* a nil entry: an empty point is stored first *)
    destruct (pointFromDiagram_nil _ _ _ Hc) as (v1 & Hp & Hsame1 & Hlook1).
    unfold bind at 1. rewrite Hp. unfold closer. simpl.
    destruct (writeCell_spec tx ty
                (Some (mkPoint tx ty (Some distance) (PColor seed))) v1)
      as (v' & Hw & Hsame & Hlook).
    { rewrite Hlook1, !Z.eqb_refl. simpl. eauto. }
    exists v'. unfold bind. rewrite Hw. unfold ret. split; [reflexivity|].
    split; [eapply sameButDiagram_trans; eassumption|].
    intros x' y'. rewrite Hlook, Hlook1.
    destruct ((x' =? tx) && (y' =? ty)); reflexivity.
Qed.

(** ** Sequences of claim attempts *)

Lemma mono_refl v : mono v v.
Proof. intros x y d H. exists d. split; [exact H | lia]. Qed.

Lemma mono_trans v1 v2 v3 : mono v1 v2 -> mono v2 v3 -> mono v1 v3.
Proof.
  intros H12 H23 x y d H. destruct (H12 _ _ _ H) as (d2 & H2 & Hle2).
  destruct (H23 _ _ _ H2) as (d3 & H3 & Hle3). exists d3. split; [exact H3 | lia].
Qed.

Lemma eqb_pair_true x' y' x y :
  (x' =? x) && (y' =? y) = true <-> x' = x /\ y' = y.
Proof. rewrite andb_true_iff, !Z.eqb_eq. reflexivity. Qed.

Lemma updatedAt_shaped v v' x y d c :
  shaped v -> inGrid v x y ->
  updatedAt v v' x y (mkPoint x y d c) -> shaped v'.
Proof.
  intros Hsh Hin [Hsame Hlook].
  pose proof (sameButDiagram_fields _ _ Hsame) as (Hw & Hh & _).
  split.
  - destruct Hsame as [_ Hlen]. rewrite Hlen, Hw. apply (shaped_len v Hsh).
  - intros x' y'. rewrite (inGrid_same _ _ _ _ Hsame), Hlook.
    destruct ((x' =? x) && (y' =? y)) eqn:E.
    + apply eqb_pair_true in E as [-> ->]. split; [intros _; exact Hin | eauto].
    + apply (shaped_grid v Hsh).
  - intros x' y' p. rewrite Hlook.
    destruct ((x' =? x) && (y' =? y)) eqn:E.
    + apply eqb_pair_true in E as [-> ->]. intros [= <-]. split; reflexivity.
    + apply (shaped_pos v Hsh).
Qed.

Lemma updatedAt_mono v v' x y d c :
  (forall d0, dist_at v x y = Some d0 -> d <= d0) ->
  updatedAt v v' x y (mkPoint x y (Some d) c) -> mono v v'.
Proof.
  intros Hd [_ Hlook] x' y' d0 H0. unfold dist_at in *. rewrite Hlook.
  destruct ((x' =? x) && (y' =? y)) eqn:E.
  - apply eqb_pair_true in E as [-> ->]. exists d. split; [reflexivity|].
    apply Hd, H0.
  - exists d0. split; [exact H0 | lia].
Qed.

Lemma grows_skip seed offs v :
  shaped v ->
  (forall dx dy d, (dx, dy, d) ∈ offs ->
     inGrid v (X seed + dx) (Y seed + dy) ->
     assignedAt v (X seed + dx) (Y seed + dy)) ->
  grows seed offs v v false.
Proof.
  intros Hsh Hcov. split.
  - apply sameButDiagram_refl.
  - exact Hsh.
  - apply mono_refl.
  - intros x y. left. reflexivity.
  - exact Hcov.
  - discriminate.
Qed.

Lemma grows_nil seed v : shaped v -> grows seed [] v v false.
Proof.
  intros Hsh. apply grows_skip; [exact Hsh|].
  intros dx dy d H. apply elem_of_nil in H. contradiction.
Qed.

Lemma mono_assignedAt v v' x y : mono v v' -> assignedAt v x y -> assignedAt v' x y.
Proof.
  intros Hm [d Hd]. destruct (Hm _ _ _ Hd) as (d' & Hd' & _).
  exists d'. exact Hd'.
Qed.

Lemma grows_app seed o1 o2 v v1 v2 b1 b2 :
  grows seed o1 v v1 b1 -> grows seed o2 v1 v2 b2 ->
  grows seed (o1 ++ o2) v v2 (b2 || b1).
Proof.
  intros G1 G2. split.
  - eapply sameButDiagram_trans; [apply G1 | apply G2].
  - apply G2.
  - eapply mono_trans; [apply G1 | apply G2].
  - intros x y.
    destruct (grows_cells _ _ _ _ _ G2 x y) as [E2 | (Hb & Hin & d & Hd & Hc)].
    + rewrite E2.
      destruct (grows_cells _ _ _ _ _ G1 x y) as [E1 | (Hb & Hin & d & Hd & Hc)].
      * left. exact E1.
      * right. split; [rewrite Hb; apply orb_true_r|]. split; [exact Hin|].
        exists d. split; [apply elem_of_app; left; exact Hd | exact Hc].
    + right. split; [rewrite Hb; reflexivity|].
      split; [apply (inGrid_same _ _ _ _ (grows_same _ _ _ _ _ G1)), Hin|].
      exists d. split; [apply elem_of_app; right; exact Hd | exact Hc].
  - intros dx dy d Hd Hin. apply elem_of_app in Hd as [Hd | Hd].
    + eapply mono_assignedAt; [apply G2|].
      eapply grows_cover; [apply G1 | exact Hd | exact Hin].
    + eapply grows_cover; [apply G2 | exact Hd |].
      apply (inGrid_same _ _ _ _ (grows_same _ _ _ _ _ G1)), Hin.
  - intros Hb. apply orb_true_iff in Hb as [Hb | Hb].
    + destruct (grows_active _ _ _ _ _ G2 Hb) as (dx & dy & d & Hd & Hin).
      exists dx, dy, d. split; [apply elem_of_app; right; exact Hd|].
      apply (inGrid_same _ _ _ _ (grows_same _ _ _ _ _ G1)), Hin.
    + destruct (grows_active _ _ _ _ _ G1 Hb) as (dx & dy & d & Hd & Hin).
      exists dx, dy, d. split; [apply elem_of_app; left; exact Hd | exact Hin].
Qed.

Lemma assignPointToSeed_grows v seed distance dx dy :
  shaped v ->
  exists b v', assignPointToSeed seed distance dx dy v = Some (b, v') /\
    grows seed [(dx, dy, distance)] v v' b.
Proof.
  intros Hsh.
  destruct ((X seed + dx <? 0) || (X seed + dx >=? width v) ||
            (Y seed + dy <? 0) || (Y seed + dy >=? height v)) eqn:Htest.
  - (* outside the canvas *)
    assert (Hout : ~ inGrid v (X seed + dx) (Y seed + dy)).
    { intros Hin. apply outside_test in Hin. congruence. }
    exists false, v. split; [apply assignPointToSeed_outside, Hout|].
    apply grows_skip; [exact Hsh|].
    intros dx' dy' d' Hd Hin. apply list_elem_of_singleton in Hd.
    injection Hd as -> -> ->. contradiction.
  - apply outside_test in Htest.
    destruct (dist_at v (X seed + dx) (Y seed + dy)) as [d0|] eqn:Hd0.
    + destruct (Z.ltb_spec d0 distance) as [Hlt|Hge].
      * (* a closer owner *)
        exists false, v.
        split; [eapply assignPointToSeed_closer; eassumption|].
        apply grows_skip; [exact Hsh|].
        intros dx' dy' d' Hd _. apply list_elem_of_singleton in Hd.
        injection Hd as -> -> ->. exists d0. exact Hd0.
      * destruct (assignPointToSeed_claims v seed distance dx dy Hsh Htest)
          as (v' & Hrun & Hupd).
        { intros d1. rewrite Hd0. intros [= <-]. exact Hge. }
        exists true, v'. split; [exact Hrun|].
        assert (Hlook := proj2 Hupd). split.
        -- apply Hupd.
        -- eapply updatedAt_shaped; eassumption.
        -- eapply updatedAt_mono; [|exact Hupd].
           intros d1. rewrite Hd0. intros [= <-]. exact Hge.
        -- intros x y. rewrite Hlook.
           destruct ((x =? X seed + dx) && (y =? Y seed + dy)) eqn:E;
             [|left; reflexivity].
           apply eqb_pair_true in E as [-> ->]. right.
           split; [reflexivity|]. split; [exact Htest|]. exists distance.
           split; [|reflexivity]. apply list_elem_of_singleton.
           repeat f_equal; lia.
        -- intros dx' dy' d' Hd _. apply list_elem_of_singleton in Hd.
           injection Hd as -> -> ->. unfold assignedAt, dist_at.
           rewrite Hlook, !Z.eqb_refl. simpl. eauto.
        -- intros _. exists dx, dy, distance.
           split; [apply list_elem_of_singleton; reflexivity | exact Htest].
    + destruct (assignPointToSeed_claims v seed distance dx dy Hsh Htest)
        as (v' & Hrun & Hupd).
      { intros d1. rewrite Hd0. discriminate. }
      exists true, v'. split; [exact Hrun|].
      assert (Hlook := proj2 Hupd). split.
      -- apply Hupd.
      -- eapply updatedAt_shaped; eassumption.
      -- eapply updatedAt_mono; [|exact Hupd].
         intros d1. rewrite Hd0. discriminate.
      -- intros x y. rewrite Hlook.
         destruct ((x =? X seed + dx) && (y =? Y seed + dy)) eqn:E;
           [|left; reflexivity].
         apply eqb_pair_true in E as [-> ->]. right.
         split; [reflexivity|]. split; [exact Htest|]. exists distance.
         split; [|reflexivity]. apply list_elem_of_singleton.
         repeat f_equal; lia.
      -- intros dx' dy' d' Hd _. apply list_elem_of_singleton in Hd.
         injection Hd as -> -> ->. unfold assignedAt, dist_at.
         rewrite Hlook, !Z.eqb_refl. simpl. eauto.
      -- intros _. exists dx, dy, distance.
         split; [apply list_elem_of_singleton; reflexivity | exact Htest].
Qed.

Lemma assignPointsToSeed_grows v seed distance dx dy :
  shaped v ->
  exists b v', assignPointsToSeed seed distance dx dy v = Some (b, v') /\
    grows seed (probes distance dx dy) v v' b.
Proof.
  intros Hsh. pose proof (grows_nil seed v Hsh) as G0.
  destruct (assignPointToSeed_grows v seed distance dx dy Hsh)
    as (b1 & v1 & R1 & G1).
  pose proof (grows_app _ _ _ _ _ _ _ _ G0 G1) as A1.
  destruct (assignPointToSeed_grows v1 seed distance dx (- dy) (grows_shaped _ _ _ _ _ G1))
    as (b2 & v2 & R2 & G2).
  pose proof (grows_app _ _ _ _ _ _ _ _ A1 G2) as A2.
  destruct (assignPointToSeed_grows v2 seed distance dy dx (grows_shaped _ _ _ _ _ G2))
    as (b3 & v3 & R3 & G3).
  pose proof (grows_app _ _ _ _ _ _ _ _ A2 G3) as A3.
  destruct (assignPointToSeed_grows v3 seed distance dy (- dx) (grows_shaped _ _ _ _ _ G3))
    as (b4 & v4 & R4 & G4).
  pose proof (grows_app _ _ _ _ _ _ _ _ A3 G4) as A4.
  destruct (assignPointToSeed_grows v4 seed distance (- dx) dy (grows_shaped _ _ _ _ _ G4))
    as (b5 & v5 & R5 & G5).
  pose proof (grows_app _ _ _ _ _ _ _ _ A4 G5) as A5.
  destruct (assignPointToSeed_grows v5 seed distance (- dx) (- dy) (grows_shaped _ _ _ _ _ G5))
    as (b6 & v6 & R6 & G6).
  pose proof (grows_app _ _ _ _ _ _ _ _ A5 G6) as A6.
  destruct (assignPointToSeed_grows v6 seed distance (- dy) dx (grows_shaped _ _ _ _ _ G6))
    as (b7 & v7 & R7 & G7).
  pose proof (grows_app _ _ _ _ _ _ _ _ A6 G7) as A7.
  destruct (assignPointToSeed_grows v7 seed distance (- dy) (- dx) (grows_shaped _ _ _ _ _ G7))
    as (b8 & v8 & R8 & G8).
  pose proof (grows_app _ _ _ _ _ _ _ _ A7 G8) as A8.
  eexists _, v8. split; [|exact A8].
  unfold assignPointsToSeed, bind.
  rewrite R1, R2, R3, R4, R5, R6, R7, R8. reflexivity.
Qed.

Lemma inTable_same v v' i j :
  sameButDiagram v v' -> inTable v' i j = inTable v i j.
Proof.
  intros H. apply sameButDiagram_fields in H as (Hw & Hh & _).
  unfold inTable. rewrite Hw, Hh. reflexivity.
Qed.

Lemma tableReady_same v v' :
  sameButDiagram v v' -> tableReady v -> tableReady v'.
Proof.
  intros Hsame [Hlen Hat].
  pose proof (sameButDiagram_fields _ _ Hsame) as (Hw & Hh & _ & _ & _ & _ & Hd).
  split.
  - rewrite Hd, Hw. exact Hlen.
  - intros i j. rewrite Hd, (inTable_same _ _ _ _ Hsame). apply Hat.
Qed.

Lemma growBody_run seed p acc v :
  shaped v -> tableReady v ->
  if inTable v (X p) (Y p)
  then exists b v', growBody seed p acc v = Some (b || acc, v') /\
         grows seed (probes (X p * X p + Y p * Y p) (X p) (Y p)) v v' b
  else growBody seed p acc v = None.
Proof.
  intros Hsh Htab. unfold growBody, bind, get, lift.
  rewrite (table_at v Htab).
  destruct (inTable v (X p) (Y p)); [|reflexivity].
  destruct (assignPointsToSeed_grows v seed (X p * X p + Y p * Y p) (X p) (Y p) Hsh)
    as (b & v' & Hrun & G).
  exists b, v'. split; [|exact G]. rewrite Hrun. reflexivity.
Qed.

Lemma forRange_grow_spec seed prox : forall acc v,
  shaped v -> tableReady v ->
  (forall p, p ∈ prox -> inTable v (X p) (Y p) = true) ->
  exists b v', forRange prox (growBody seed) acc v = Some (b || acc, v') /\
    grows seed (ringProbes prox) v v' b.
Proof.
  induction prox as [|p prox IH]; intros acc v Hsh Htab Hin.
  - exists false, v. split; [reflexivity | apply grows_nil, Hsh].
  - pose proof (growBody_run seed p acc v Hsh Htab) as Hp.
    rewrite (Hin p) in Hp by (apply elem_of_cons; left; reflexivity).
    destruct Hp as (b1 & v1 & R1 & G1).
    destruct (IH (b1 || acc) v1) as (b2 & v2 & R2 & G2).
    + apply G1.
    + eapply tableReady_same; [apply G1 | exact Htab].
    + intros q Hq. rewrite (inTable_same _ _ _ _ (grows_same _ _ _ _ _ G1)).
      apply Hin, elem_of_cons. right. exact Hq.
    + exists (b2 || b1), v2. split.
      * simpl. unfold bind. rewrite R1, R2, orb_assoc. reflexivity.
      * apply (grows_app _ _ _ _ _ _ _ _ G1 G2).
Qed.

Lemma forRange_grow_inv seed prox : forall acc v r,
  shaped v -> tableReady v ->
  forRange prox (growBody seed) acc v = Some r ->
  forall p, p ∈ prox -> inTable v (X p) (Y p) = true.
Proof.
  induction prox as [|p prox IH]; intros acc v r Hsh Htab Hrun q Hq.
  - apply elem_of_nil in Hq. contradiction.
  - simpl in Hrun. apply bind_inv in Hrun as (acc1 & v1 & R1 & Hrest).
    pose proof (growBody_run seed p acc v Hsh Htab) as Hp.
    destruct (inTable v (X p) (Y p)) eqn:Ep; [|congruence].
    destruct Hp as (b1 & v1' & R1' & G1).
    rewrite R1 in R1'. injection R1' as -> ->.
    apply elem_of_cons in Hq as [-> | Hq]; [exact Ep|].
    rewrite <- (inTable_same _ _ _ _ (grows_same _ _ _ _ _ G1)).
    eapply IH; [apply G1 | | exact Hrest | exact Hq].
    eapply tableReady_same; [apply G1 | exact Htab].
Qed.

Lemma growSeed_sound seed prox v b v' :
  shaped v -> tableReady v ->
  growSeed seed prox v = Some (b, v') ->
  grows seed (ringProbes prox) v v' b.
Proof.
  intros Hsh Htab Hrun. unfold growSeed in Hrun.
  pose proof (forRange_grow_inv seed prox false v _ Hsh Htab Hrun) as Hin.
  destruct (forRange_grow_spec seed prox false v Hsh Htab Hin)
    as (b' & v'' & R & G).
  rewrite Hrun in R. injection R as -> ->. rewrite orb_false_r. exact G.
Qed.

(** ** Ring geometry *)

Lemma octantLoop_fuel : forall fuel1 fuel2 dx dy acc,
  dy - dx < Z.of_nat fuel1 -> dy - dx < Z.of_nat fuel2 ->
  octantLoop fuel1 dx dy acc = octantLoop fuel2 dx dy acc.
Proof.
  induction fuel1 as [|fuel1 IH]; intros fuel2 dx dy acc H1 H2.
  - destruct fuel2 as [|fuel2]; [reflexivity|]. simpl.
    destruct (Z.geb_spec dy dx); [lia | reflexivity].
  - destruct fuel2 as [|fuel2]; simpl.
    + destruct (Z.geb_spec dy dx); [lia | reflexivity].
    + destruct (Z.geb_spec dy dx); [|reflexivity]. apply IH; lia.
Qed.

Lemma octantLoop_elem : forall fuel dx dy acc p,
  dy - dx < Z.of_nat fuel ->
  p ∈ octantLoop fuel dx dy acc <->
  p ∈ acc \/ exists k, 0 <= k /\ dx + k <= dy - k /\
                       p = mkPoint (dx + k) (dy - k) None None.
Proof.
  induction fuel as [|fuel IH]; intros dx dy acc p Hfuel; simpl.
  - split; [tauto|]. intros [H | (k & ? & ? & _)]; [exact H | lia].
  - destruct (Z.geb_spec dy dx) as [Hge | Hlt].
    + rewrite IH by lia. rewrite elem_of_app, list_elem_of_singleton. split.
      * intros [[H | ->] | (k & Hk & Hle & ->)].
        -- left. exact H.
        -- right. exists 0. rewrite Z.add_0_r, Z.sub_0_r.
           split; [lia|]. split; [lia | reflexivity].
        -- right. exists (k + 1). split; [lia|]. split; [lia|].
           f_equal; lia.
      * intros [H | (k & Hk & Hle & ->)]; [left; left; exact H|].
        destruct (Z.eq_dec k 0) as [-> | Hk0].
        -- left. right. f_equal; lia.
        -- right. exists (k - 1). split; [lia|]. split; [lia|].
           f_equal; lia.
    + split; [tauto|]. intros [H | (k & ? & ? & _)]; [exact H | lia].
Qed.

Lemma octant_elem r p :
  p ∈ octant r <->
  exists k, 0 <= k /\ k <= r - k /\ p = mkPoint k (r - k) None None.
Proof.
  unfold octant. rewrite octantLoop_elem by lia. split.
  - intros [H | (k & Hk & Hle & ->)]; [apply elem_of_nil in H; contradiction|].
    exists k. split; [lia|]. split; [lia | reflexivity].
  - intros (k & Hk & Hle & ->). right. exists k.
    split; [lia|]. split; [lia | reflexivity].
Qed.

Lemma getProximityDistances_run v :
  getProximityDistances v =
  Some (octant (radius v + 1), set_radius (radius v + 1) v).
Proof. reflexivity. Qed.


Lemma reflections_elem dx dy o :
  o ∈ reflections dx dy ->
  Z.abs o.1 + Z.abs o.2 = Z.abs dx + Z.abs dy /\
  o.1 * o.1 + o.2 * o.2 = dx * dx + dy * dy.
Proof.
  unfold reflections. rewrite !elem_of_cons, elem_of_nil.
  intros H. decompose [or] H; subst; simpl; try contradiction; split; lia.
Qed.

Lemma ringOffsets_elem r o :
  o ∈ ringOffsets r <->
  exists p, p ∈ octant r /\ o ∈ reflections (X p) (Y p).
Proof.
  unfold ringOffsets. rewrite list_elem_of_In, in_flat_map.
  split; intros (p & Hp & Ho); exists p;
    rewrite ?list_elem_of_In in *; rewrite <- ?list_elem_of_In in *; tauto.
Qed.

Lemma ringOffsets_diamond r o :
  o ∈ ringOffsets r -> Z.abs o.1 + Z.abs o.2 = r.
Proof.
  rewrite ringOffsets_elem. intros (p & Hp & Ho).
  apply octant_elem in Hp as (k & Hk & Hle & ->). simpl in Ho.
  apply reflections_elem in Ho as [Ho _]. lia.
Qed.

Lemma ringOffsets_complete r dx dy :
  Z.abs dx + Z.abs dy = r -> (dx, dy) ∈ ringOffsets r.
Proof.
  intros Hr. apply ringOffsets_elem.
  exists (mkPoint (Z.min (Z.abs dx) (Z.abs dy)) (r - Z.min (Z.abs dx) (Z.abs dy))
                  None None).
  split.
  - apply octant_elem. exists (Z.min (Z.abs dx) (Z.abs dy)).
    split; [lia|]. split; [lia | reflexivity].
  - simpl. unfold reflections. rewrite !elem_of_cons.
    destruct (Z.abs_spec dx) as [[? Hx] | [? Hx]],
             (Z.abs_spec dy) as [[? Hy] | [? Hy]],
             (Z.min_spec (Z.abs dx) (Z.abs dy)) as [[? Hm] | [? Hm]];
      rewrite Hm; rewrite ?Hx, ?Hy in *;
      repeat match goal with
             | |- _ \/ _ => (left; f_equal; lia) || right
             end.
Qed.

(** ** The loop over the active seeds *)

Lemma probes_elem D a b dx dy d :
  (dx, dy, d) ∈ probes D a b <-> (dx, dy) ∈ reflections a b /\ d = D.
Proof.
  unfold probes, reflections. simpl. rewrite !elem_of_cons, !elem_of_nil.
  split.
  - intros H. decompose [or] H; try contradiction;
      match goal with E : (_, _, _) = _ |- _ => injection E as -> -> -> end;
      (split; [|reflexivity]); repeat ((left; reflexivity) || right).
  - intros [H ->]. decompose [or] H; try contradiction;
      match goal with E : (_, _) = _ |- _ => injection E as -> -> end;
      repeat ((left; reflexivity) || right).
Qed.

Lemma ringProbes_elem prox dx dy d :
  (dx, dy, d) ∈ ringProbes prox <->
  exists p, p ∈ prox /\ (dx, dy) ∈ reflections (X p) (Y p) /\
            d = X p * X p + Y p * Y p.
Proof.
  induction prox as [|q prox IH].
  - simpl. rewrite elem_of_nil. split; [tauto|]. intros (p & Hp & _).
    apply elem_of_nil in Hp. contradiction.
  - change (ringProbes (q :: prox))
      with (probes (X q * X q + Y q * Y q) (X q) (Y q) ++ ringProbes prox).
    rewrite elem_of_app, IH, probes_elem. split.
    + intros [[Hr ->] | (p & Hp & Hr & ->)].
      * exists q. rewrite elem_of_cons. tauto.
      * exists p. rewrite elem_of_cons. tauto.
    + intros (p & Hp & Hr & ->). apply elem_of_cons in Hp as [-> | Hp].
      * left. tauto.
      * right. exists p. tauto.
Qed.

Lemma ringProbes_octant r dx dy d :
  (dx, dy, d) ∈ ringProbes (octant r) <->
  (dx, dy) ∈ ringOffsets r /\ d = dx * dx + dy * dy.
Proof.
  rewrite ringProbes_elem, ringOffsets_elem. split.
  - intros (p & Hp & Hr & ->). split; [eauto|].
    apply reflections_elem in Hr as [_ Hr]. simpl in Hr. lia.
  - intros [(p & Hp & Hr) ->]. exists p. split; [exact Hp|].
    split; [exact Hr|]. apply reflections_elem in Hr as [_ Hr]. simpl in Hr. lia.
Qed.

Lemma seedsLoop_run prox : forall todo still v still' v',
  shaped v -> tableReady v ->
  forRange todo (ringBody prox) still v = Some (still', v') ->
  ringRun prox todo still v still' v'.
Proof.
  induction todo as [|seed todo IH]; intros still v still' v' Hsh Htab Hrun.
  - injection Hrun as <- <-. constructor.
  - simpl in Hrun. apply bind_inv in Hrun as (still1 & v1 & Hbody & Hrest).
    unfold ringBody in Hbody. apply bind_inv in Hbody as (b & v1' & Hgrow & Hret).
    injection Hret as <- <-.
    pose proof (growSeed_sound _ _ _ _ _ Hsh Htab Hgrow) as G.
    econstructor; [exact G|]. apply IH; [apply G | | exact Hrest].
    eapply tableReady_same; [apply G | exact Htab].
Qed.

Lemma cell_set_radius r v x y : cell (set_radius r v) x y = cell v x y.
Proof. reflexivity. Qed.

Lemma shaped_set_radius r v : shaped v -> shaped (set_radius r v).
Proof. intros [H1 H2 H3]. split; assumption. Qed.

Lemma shaped_set_activeSeeds l v : shaped v -> shaped (set_activeSeeds l v).
Proof. intros [H1 H2 H3]. split; assumption. Qed.

Lemma tableReady_set_radius r v : tableReady v -> tableReady (set_radius r v).
Proof. intros [H1 H2]. split; assumption. Qed.

Lemma tableReady_set_activeSeeds l v :
  tableReady v -> tableReady (set_activeSeeds l v).
Proof. intros [H1 H2]. split; assumption. Qed.

Lemma ring_run v v' :
  shaped v -> tableReady v -> ring v = Some (tt, v') ->
  exists still vm,
    ringRun (octant (radius v + 1)) (activeSeeds v) []
            (set_radius (radius v + 1) v) still vm /\
    v' = set_activeSeeds still vm.
Proof.
  intros Hsh Htab Hrun. unfold ring in Hrun.
  apply bind_inv in Hrun as (prox & v1 & Hprox & Hrun).
  rewrite getProximityDistances_run in Hprox. injection Hprox as <- <-.
  apply bind_inv in Hrun as (v1 & v1' & Hget & Hrun).
  injection Hget as <- <-.
  apply bind_inv in Hrun as (still & vm & Hloop & Hmod).
  injection Hmod as <-. exists still, vm. split; [|reflexivity].
  apply seedsLoop_run; [apply shaped_set_radius, Hsh | | exact Hloop].
  apply tableReady_set_radius, Htab.
Qed.

Lemma ringRun_frame prox todo still v still' v' :
  ringRun prox todo still v still' v' -> shaped v ->
  sameButDiagram v v' /\ shaped v' /\ mono v v'.
Proof.
  induction 1 as [still v | seed todo still v b v1 still' v' G _ IH]; intros Hsh.
  - split; [apply sameButDiagram_refl|]. split; [exact Hsh | apply mono_refl].
  - destruct (IH (grows_shaped _ _ _ _ _ G)) as (Hs & Hsh' & Hm).
    split; [eapply sameButDiagram_trans; [apply G | exact Hs]|].
    split; [exact Hsh'|]. eapply mono_trans; [apply G | exact Hm].
Qed.

Lemma ringRun_sublist prox todo still v still' v' :
  ringRun prox todo still v still' v' ->
  exists kept, still' = still ++ kept /\ sublist kept todo.
Proof.
  induction 1 as [still v | seed todo still v b v1 still' v' G _ IH].
  - exists []. split; [rewrite app_nil_r; reflexivity | constructor].
  - destruct IH as (kept & -> & Hsub). destruct b.
    + exists (seed :: kept). split; [rewrite <- app_assoc; reflexivity|].
      constructor. exact Hsub.
    + exists kept. split; [reflexivity|]. constructor. exact Hsub.
Qed.

(** ** The wavefront invariant *)

Lemma covered_mono v v' s k :
  sameButDiagram v v' -> mono v v' -> covered v s k -> covered v' s k.
Proof.
  intros Hs Hm Hc x y Hin Hk. eapply mono_assignedAt; [exact Hm|].
  apply Hc; [apply (inGrid_same _ _ _ _ Hs), Hin | exact Hk].
Qed.

Lemma covered_le v s k k' : k' <= k -> covered v s k -> covered v s k'.
Proof. intros Hle Hc x y Hin Hk. apply Hc; [exact Hin | lia]. Qed.

Lemma grows_ring_cover r seed v v1 b :
  grows seed (ringProbes (octant r)) v v1 b ->
  covered v seed (r - 1) -> covered v1 seed r.
Proof.
  intros G Hc x y Hin Hk.
  apply (inGrid_same _ _ _ _ (grows_same _ _ _ _ _ G)) in Hin.
  destruct (Z.eq_dec (l1 seed x y) r) as [Heq | Hne].
  - replace x with (X seed + (x - X seed)) in * by lia.
    replace y with (Y seed + (y - Y seed)) in * by lia.
    eapply (grows_cover _ _ _ _ _ G); [|exact Hin].
    apply ringProbes_octant. split; [|reflexivity].
    apply ringOffsets_complete. unfold l1 in Heq.
    rewrite <- Heq. f_equal; f_equal; lia.
  - eapply mono_assignedAt; [apply G|]. apply Hc; [exact Hin | lia].
Qed.

Lemma grows_ring_changed r seed v v1 b x y :
  grows seed (ringProbes (octant r)) v v1 b ->
  cell v1 x y = cell v x y \/
  (b = true /\ inGrid v x y /\ l1 seed x y = r /\
   cell v1 x y =
   Some (Some (mkPoint x y
                 (Some ((x - X seed) * (x - X seed) + (y - Y seed) * (y - Y seed)))
                 (PColor seed)))).
Proof.
  intros G. destruct (grows_cells _ _ _ _ _ G x y) as [E | (Hb & Hin & d & Hd & Hc)].
  - left. exact E.
  - right. apply ringProbes_octant in Hd as [Ho ->].
    apply ringOffsets_diamond in Ho. simpl in Ho.
    split; [exact Hb|]. split; [exact Hin|]. split; [exact Ho | exact Hc].
Qed.

Lemma assignedAt_cell v v' x y :
  cell v' x y = cell v x y -> assignedAt v' x y -> assignedAt v x y.
Proof. unfold assignedAt, dist_at. intros ->. tauto. Qed.

Lemma ringRun_midwave r todo still v still' v' :
  ringRun (octant r) todo still v still' v' ->
  midwave r v todo still -> midwave r v' [] still'.
Proof.
  induction 1 as [still v | seed todo still v b v1 still' v' G _ IH]; intros Hmid.
  - exact Hmid.
  - apply IH. clear IH.
    pose proof (grows_same _ _ _ _ _ G) as Hs.
    pose proof (grows_mono _ _ _ _ _ G) as Hm.
    assert (Hseed : covered v1 seed r).
    { eapply grows_ring_cover; [exact G|].
      apply (mid_todo _ _ _ _ Hmid), elem_of_cons. left. reflexivity. }
    split.
    + intros s Hin. destruct b.
      * apply elem_of_app in Hin as [Hin | Hin].
        -- eapply covered_mono; [exact Hs | exact Hm|].
           apply (mid_still _ _ _ _ Hmid), Hin.
        -- apply list_elem_of_singleton in Hin as ->. exact Hseed.
      * eapply covered_mono; [exact Hs | exact Hm|].
        apply (mid_still _ _ _ _ Hmid), Hin.
    + intros s Hin. eapply covered_mono; [exact Hs | exact Hm|].
      apply (mid_todo _ _ _ _ Hmid), elem_of_cons. right. exact Hin.
    + intros x y Ha.
      destruct (grows_ring_changed _ _ _ _ _ x y G)
        as [E | (Hb & _ & Hl & _)].
      * apply (assignedAt_cell _ _ _ _ E) in Ha.
        destruct (mid_cells _ _ _ _ Hmid _ _ Ha) as (s & [Hc | [[Hl Hin] | [Hl Hin]]]).
        -- exists s. left. eapply covered_mono; eassumption.
        -- apply elem_of_cons in Hin as [-> | Hin].
           ++ exists seed. left. rewrite Hl.
              replace (r - 1 + 1) with r by lia. exact Hseed.
           ++ exists s. right. left. split; assumption.
        -- exists s. right. right. split; [exact Hl|].
           destruct b; [apply elem_of_app; left|]; exact Hin.
      * exists seed. right. right. split; [exact Hl|]. rewrite Hb.
        apply elem_of_app. right. apply list_elem_of_singleton. reflexivity.
Qed.

Lemma ringRun_owned r todo still v still' v' :
  ringRun (octant r) todo still v still' v' ->
  (forall s, s ∈ todo -> s ∈ seeds v) -> owned v -> owned v'.
Proof.
  induction 1 as [still v | seed todo still v b v1 still' v' G _ IH];
    intros Hsub Hown; [exact Hown|].
  pose proof (sameButDiagram_fields _ _ (grows_same _ _ _ _ _ G))
    as (_ & _ & _ & Hseeds & _).
  apply IH.
  - intros s Hin. rewrite Hseeds. apply Hsub, elem_of_cons. right. exact Hin.
  - intros x y p d Hc Hd. rewrite Hseeds.
    destruct (grows_ring_changed _ _ _ _ _ x y G) as [E | (_ & _ & _ & Hnew)].
    + rewrite E in Hc. eapply Hown; eassumption.
    + rewrite Hnew in Hc. injection Hc as <-. simpl in Hd. injection Hd as <-.
      exists seed. split; [apply Hsub, elem_of_cons; left; reflexivity|].
      split; reflexivity.
Qed.

(** Each kept seed reached a cell of the grid in this ring. *)
Lemma ringRun_reach r todo still v still' v' :
  ringRun (octant r) todo still v still' v' ->
  (forall s, s ∈ still -> exists x y, inGrid v x y /\ l1 s x y = r) ->
  forall s, s ∈ still' -> exists x y, inGrid v x y /\ l1 s x y = r.
Proof.
  induction 1 as [still v | seed todo still v b v1 still' v' G _ IH];
    intros Hstill s Hin; [apply Hstill, Hin|].
  pose proof (grows_same _ _ _ _ _ G) as Hs.
  assert (Hgrid : forall x y, inGrid v1 x y <-> inGrid v x y)
    by (intros; apply (inGrid_same _ _ _ _ Hs)).
  destruct (IH) with (s := s) as (x & y & Hxy & Hl); [|exact Hin|].
  - intros s' Hin'. destruct b.
    + apply elem_of_app in Hin' as [Hin' | Hin'].
      * destruct (Hstill _ Hin') as (x & y & Hxy & Hl).
        exists x, y. split; [apply Hgrid, Hxy | exact Hl].
      * apply list_elem_of_singleton in Hin' as ->.
        destruct (grows_active _ _ _ _ _ G eq_refl) as (dx & dy & d & Hd & Hxy).
        apply ringProbes_octant in Hd as [Ho _].
        apply ringOffsets_diamond in Ho. simpl in Ho.
        exists (X seed + dx), (Y seed + dy). split; [apply Hgrid, Hxy|].
        unfold l1. rewrite <- Ho. f_equal; f_equal; lia.
    + destruct (Hstill _ Hin') as (x & y & Hxy & Hl).
      exists x, y. split; [apply Hgrid, Hxy | exact Hl].
  - exists x, y. split; [apply Hgrid, Hxy | exact Hl].
Qed.

(** ** One ring and the loop of Tessellate *)

Lemma advances_refl v : advances v v.
Proof. split; try reflexivity. apply mono_refl. Qed.

Lemma advances_trans v1 v2 v3 : advances v1 v2 -> advances v2 v3 -> advances v1 v3.
Proof.
  intros [] []. split; try congruence.
  - lia.
  - etrans; eassumption.
  - eapply mono_trans; eassumption.
Qed.

Lemma ring_good v v' :
  good v -> ring v = Some (tt, v') ->
  good v' /\ advances v v' /\ radius v' = radius v + 1 /\
  (forall s, s ∈ activeSeeds v' ->
     exists x y, inGrid v x y /\ l1 s x y = radius v + 1).
Proof.
  intros Hg Hrun.
  destruct (ring_run v v' (good_shaped v Hg) (good_table v Hg) Hrun)
    as (still & vm & Hchain & ->).
  set (v1 := set_radius (radius v + 1) v) in *.
  assert (Hsh1 : shaped v1) by apply shaped_set_radius, Hg.
  destruct (ringRun_frame _ _ _ _ _ _ Hchain Hsh1) as (Hsame & Hshm & Hmono).
  pose proof (sameButDiagram_fields _ _ Hsame)
    as (Hw & Hh & Hn & Hseeds & Hact & Hrad & Hdist).
  destruct (ringRun_sublist _ _ _ _ _ _ Hchain) as (kept & Hkept & Hsub).
  simpl in Hkept. subst still.
  assert (Hgrid : forall x y, inGrid vm x y <-> inGrid v x y)
    by (intros; apply (inGrid_same _ _ _ _ Hsame)).
  assert (Hmid : midwave (radius v + 1) vm [] kept).
  { eapply ringRun_midwave; [exact Hchain|]. split.
    - intros s Hin. apply elem_of_nil in Hin. contradiction.
    - intros s Hin. replace (radius v + 1 - 1) with (radius v) by lia.
      apply (wave_active v (good_wave v Hg)), Hin.
    - intros x y Ha.
      destruct (wave_cells v (good_wave v Hg) x y Ha) as (s & [Hc | [Hl Hin]]).
      + exists s. left. exact Hc.
      + exists s. right. left. split; [lia | exact Hin]. }
  split; [|split; [|split]].
  - split; simpl.
    + rewrite Hw. apply Hg.
    + rewrite Hh. apply Hg.
    + rewrite Hrad. simpl. pose proof (good_radius v Hg). lia.
    + apply shaped_set_activeSeeds, Hshm.
    + apply tableReady_set_activeSeeds.
      eapply tableReady_same; [exact Hsame|].
      apply tableReady_set_radius, Hg.
    + rewrite Hseeds. intros s Hin. apply Hgrid, (good_seeds v Hg), Hin.
    + rewrite Hseeds. intros s Hin. apply (good_active v Hg).
      eapply elem_of_sublist; eassumption.
    + rewrite Hseeds. intros s Hin. eapply mono_assignedAt; [exact Hmono|].
      apply (good_planted v Hg), Hin.
    + intros s Hin. rewrite Hrad, Hw, Hh. simpl.
      destruct (ringRun_reach _ _ _ _ _ _ Hchain) with (s := s)
        as (x & y & Hxy & Hl); [|exact Hin|].
      { intros s' Hin'. apply elem_of_nil in Hin'. contradiction. }
      assert (Hs : inGrid v (X s) (Y s)).
      { apply (good_seeds v Hg), (good_active v Hg).
        eapply elem_of_sublist; eassumption. }
      unfold inGrid, l1 in *. simpl in Hxy. lia.
    + split; simpl.
      * rewrite Hrad. intros s Hin. apply (mid_still _ _ _ _ Hmid), Hin.
      * rewrite Hrad. intros x y Ha.
        destruct (mid_cells _ _ _ _ Hmid x y Ha) as (s & [Hc | [[_ Hin] | Hl]]).
        -- exists s. left. exact Hc.
        -- apply elem_of_nil in Hin. contradiction.
        -- exists s. right. exact Hl.
    + eapply (ringRun_owned _ _ _ _ _ _ Hchain); [|apply Hg].
      intros s Hin. apply (good_active v Hg), Hin.
  - split; simpl; try assumption. rewrite Hrad. simpl. lia.
  - simpl. rewrite Hrad. reflexivity.
  - simpl. intros s Hin.
    eapply (ringRun_reach _ _ _ _ _ _ Hchain); [|exact Hin].
    intros s' Hin'. apply elem_of_nil in Hin'. contradiction.
Qed.

Lemma Tessellate_good : forall fuel b v v',
  good v -> Tessellate fuel b v = Returned v' -> good v' /\ advances v v'.
Proof.
  induction fuel as [|fuel IH]; intros b v v' Hg Hrun; simpl in Hrun.
  - destruct (activeSeeds v); [|discriminate]. injection Hrun as <-.
    split; [exact Hg | apply advances_refl].
  - destruct (activeSeeds v) eqn:Hact.
    { injection Hrun as <-. split; [exact Hg | apply advances_refl]. }
    destruct (ring v) as [[[] v1]|] eqn:Hring; [|discriminate].
    destruct (ring_good v v1 Hg Hring) as (Hg1 & Hadv & _).
    destruct (negb b).
    + injection Hrun as <-. split; assumption.
    + destruct (IH _ _ _ Hg1 Hrun) as [Hg' Hadv'].
      split; [exact Hg' | eapply advances_trans; eassumption].
Qed.

Lemma Tessellate_completes : forall fuel v v',
  Tessellate fuel true v = Returned v' -> activeSeeds v' = [].
Proof.
  induction fuel as [|fuel IH]; intros v v' Hrun; simpl in Hrun.
  - destruct (activeSeeds v) eqn:Hact; [|discriminate].
    injection Hrun as <-. exact Hact.
  - destruct (activeSeeds v) eqn:Hact.
    { injection Hrun as <-. exact Hact. }
    destruct (ring v) as [[[] v1]|]; [|discriminate].
    simpl in Hrun. eapply IH, Hrun.
Qed.

Lemma TessellateMany_good : forall calls v v',
  good v -> TessellateMany calls v = Returned v' -> good v' /\ advances v v'.
Proof.
  induction calls as [|[fuel b] calls IH]; intros v v' Hg Hrun; simpl in Hrun.
  - injection Hrun as <-. split; [exact Hg | apply advances_refl].
  - destruct (Tessellate fuel b v) as [v1| |] eqn:Hstep; try discriminate.
    destruct (Tessellate_good _ _ _ _ Hg Hstep) as [Hg1 Hadv1].
    destruct (IH _ _ Hg1 Hrun) as [Hg' Hadv'].
    split; [exact Hg' | eapply advances_trans; eassumption].
Qed.

(** ** Completion: the assigned cells are closed under neighbours *)

Lemma good_neighbours v x y x' y' :
  good v -> activeSeeds v = [] ->
  assignedAt v x y -> inGrid v x' y' ->
  Z.abs (x' - x) + Z.abs (y' - y) <= 1 ->
  assignedAt v x' y'.
Proof.
  intros Hg Hact Ha Hin Hnear.
  destruct (wave_cells v (good_wave v Hg) x y Ha) as (s & [Hc | [_ Hs]]).
  - apply (Hc x' y' Hin). unfold l1. lia.
  - rewrite Hact in Hs. apply elem_of_nil in Hs. contradiction.
Qed.

Lemma good_all_assigned v :
  good v -> activeSeeds v = [] -> seeds v <> [] ->
  forall x y, inGrid v x y -> assignedAt v x y.
Proof.
  intros Hg Hact Hne.
  destruct (seeds v) as [|s0 rest] eqn:Hseeds; [contradiction|].
  assert (Hs0 : s0 ∈ seeds v) by (rewrite Hseeds; apply elem_of_cons; tauto).
  pose proof (good_seeds v Hg s0 Hs0) as Hin0.
  pose proof (good_planted v Hg s0 Hs0) as Ha0.
  assert (Hgo : forall n : nat, forall x y, inGrid v x y ->
            Z.abs (x - X s0) + Z.abs (y - Y s0) = Z.of_nat n -> assignedAt v x y).
  { induction n as [|n IH]; intros x y Hin Hd.
    - replace x with (X s0) by lia. replace y with (Y s0) by lia. exact Ha0.
    - unfold inGrid in *.
      destruct (Z.eq_dec x (X s0)) as [Hx | Hx].
      + destruct (Z.lt_ge_cases y (Y s0)).
        * apply (good_neighbours v x (y + 1) x y Hg Hact);
            [apply IH; unfold inGrid; lia | unfold inGrid; lia | lia].
        * apply (good_neighbours v x (y - 1) x y Hg Hact);
            [apply IH; unfold inGrid; lia | unfold inGrid; lia | lia].
      + destruct (Z.lt_ge_cases x (X s0)).
        * apply (good_neighbours v (x + 1) y x y Hg Hact);
            [apply IH; unfold inGrid; lia | unfold inGrid; lia | lia].
        * apply (good_neighbours v (x - 1) y x y Hg Hact);
            [apply IH; unfold inGrid; lia | unfold inGrid; lia | lia]. }
  intros x y Hin.
  apply (Hgo (Z.to_nat (Z.abs (x - X s0) + Z.abs (y - Y s0)))); [exact Hin | lia].
Qed.

(** ** Counting loops *)

Lemma forRange_seqZ_inv {St} (I : Z -> St -> Voronoi -> Prop) (body : Z -> St -> M St) :
  forall (n : nat) lo acc v,
  I lo acc v ->
  (forall i a u, lo <= i < lo + Z.of_nat n -> I i a u ->
     exists a' u', body i a u = Some (a', u') /\ I (i + 1) a' u') ->
  exists a' v', forRange (seqZ lo (Z.of_nat n)) body acc v = Some (a', v') /\
                I (lo + Z.of_nat n) a' v'.
Proof.
  induction n as [|n IH]; intros lo acc v H0 Hstep.
  - exists acc, v. rewrite Z.add_0_r. split; [reflexivity | exact H0].
  - rewrite seqZ_cons by lia. simpl.
    destruct (Hstep lo acc v) as (a1 & v1 & Hb & H1); [lia | exact H0|].
    replace (Z.pred (Z.of_nat (S n))) with (Z.of_nat n) by lia.
    destruct (IH (Z.succ lo) a1 v1) as (a' & v' & Hrun & H').
    + replace (Z.succ lo) with (lo + 1) by lia. exact H1.
    + intros i a u Hi. apply Hstep. lia.
    + exists a', v'. unfold bind. rewrite Hb. split; [exact Hrun|].
      replace (lo + Z.of_nat (S n)) with (Z.succ lo + Z.of_nat n) by lia.
      exact H'.
Qed.

Lemma forZ_inv {St} (I : Z -> St -> Voronoi -> Prop) (body : Z -> St -> M St)
    lo hi acc v :
  lo <= hi -> I lo acc v ->
  (forall i a u, lo <= i < hi -> I i a u ->
     exists a' u', body i a u = Some (a', u') /\ I (i + 1) a' u') ->
  exists a' v', forZ lo hi body acc v = Some (a', v') /\ I hi a' v'.
Proof.
  intros Hle H0 Hstep. unfold forZ.
  destruct (forRange_seqZ_inv I body (Z.to_nat (hi - lo)) lo acc v H0)
    as (a' & v' & Hrun & H').
  - intros i a u Hi. apply Hstep. lia.
  - exists a', v'. rewrite Z2Nat.id in * by lia. split; [exact Hrun|].
    replace hi with (lo + (hi - lo)) at 1 by lia. exact H'.
Qed.

Lemma forZ_empty {St} (body : Z -> St -> M St) lo hi acc v :
  hi <= lo -> forZ lo hi body acc v = Some (acc, v).
Proof. intros H. unfold forZ. rewrite seqZ_nil by lia. reflexivity. Qed.

Lemma list_Z_ext {T} (f : Z -> T) (l : list T) n :
  Z.of_nat (length l) = n ->
  (forall i, 0 <= i < n -> index l i = Some (f i)) ->
  l = f <$> seqZ 0 n.
Proof.
  intros Hlen Hl. apply list_eq. intros k. rewrite list_lookup_fmap.
  destruct (Z.lt_ge_cases (Z.of_nat k) n) as [Hk | Hk].
  - rewrite lookup_seqZ_lt by lia. simpl.
    specialize (Hl (Z.of_nat k)). unfold index in Hl.
    destruct (Z.ltb_spec (Z.of_nat k) 0); [lia|].
    rewrite Nat2Z.id in Hl. apply Hl. lia.
  - rewrite lookup_seqZ_ge by lia. simpl. apply lookup_ge_None. lia.
Qed.

Lemma store2_rows {T} (m : list (list T)) (x y : Z) (c : T) (row : list T) :
  index m x = Some row -> is_Some (index row y) ->
  exists row' m', store row y c = Some row' /\ store2 m x y c = Some m' /\
    length m' = length m /\ index m' x = Some row' /\
    forall x', x' <> x -> index m' x' = index m x'.
Proof.
  intros Hrow Hy. destruct (store_is_Some row y c Hy) as (row' & Hst & _ & _).
  destruct (store_is_Some m x row') as (m' & Hm & Hlen & Hidx);
    [rewrite Hrow; eauto|].
  exists row', m'. split; [exact Hst|]. unfold store2. rewrite Hrow, Hst.
  split; [exact Hm|]. split; [exact Hlen|]. split.
  - rewrite Hidx, Z.eqb_refl. reflexivity.
  - intros x' Hne. rewrite Hidx. destruct (Z.eqb_spec x' x); [contradiction|].
    reflexivity.
Qed.

(** ** [initDistances] builds [table] *)

Lemma set_distances_twice t t' v :
  set_distances t (set_distances t' v) = set_distances t v.
Proof. reflexivity. Qed.

Lemma fillRow_run (v0 : Voronoi) (i n : Z) (row : list Z) (u : Voronoi) :
  u = set_distances (distances u) v0 ->
  index (distances u) i = Some row -> Z.of_nat (length row) = n ->
  exists u',
    forZ 0 n
      (fun j (_ : unit) =>
         let* v := get in
         let* t := lift (store2 (distances v) i j (i * i + j * j)) in
         modify (set_distances t)) tt u = Some (tt, u') /\
    u' = set_distances (distances u') v0 /\
    length (distances u') = length (distances u) /\
    index (distances u') i = Some ((fun j => i * i + j * j) <$> seqZ 0 n) /\
    forall i', i' <> i -> index (distances u') i' = index (distances u) i'.
Proof.
  intros Hu Hrow Hlen.
  pose (J := fun (j : Z) (_ : unit) (w : Voronoi) =>
    w = set_distances (distances w) v0 /\
    length (distances w) = length (distances u) /\
    (forall i', i' <> i -> index (distances w) i' = index (distances u) i') /\
    exists r, index (distances w) i = Some r /\ Z.of_nat (length r) = n /\
      forall j', 0 <= j' < j -> index r j' = Some (i * i + j' * j')).
  destruct (forZ_inv J
    (fun j (_ : unit) =>
       let* v := get in
       let* t := lift (store2 (distances v) i j (i * i + j * j)) in
       modify (set_distances t)) 0 n tt u) as ([] & u' & Hrun & HJ).
  - lia.
  - split; [exact Hu|]. split; [reflexivity|]. split; [reflexivity|].
    exists row. split; [exact Hrow|]. split; [exact Hlen|]. intros j' Hj'. lia.
  - intros j [] w Hj (Hw & Hl & Hoth & r & Hr & Hrl & Hent).
    destruct (store2_rows (distances w) i j (i * i + j * j) r Hr)
      as (r' & t & Hst & Hst2 & Htl & Hti & Hto).
    { apply index_is_Some. lia. }
    destruct (store_is_Some r j (i * i + j * j)) as (r'' & Hst' & Hrl' & Hri').
    { apply index_is_Some. lia. }
    rewrite Hst in Hst'. injection Hst' as <-.
    exists tt, (set_distances t w). unfold bind, get, lift, modify.
    cbv beta. rewrite Hst2. split; [reflexivity|]. split; [|split; [|split]].
    + rewrite Hw. reflexivity.
    + simpl. congruence.
    + intros i' Hne. simpl. rewrite Hto by exact Hne. apply Hoth, Hne.
    + exists r'. simpl. split; [exact Hti|]. split; [lia|].
      intros j' Hj'. rewrite Hri'. destruct (Z.eqb_spec j' j) as [-> | Hne].
      * reflexivity.
      * apply Hent. lia.
  - destruct HJ as (Hw & Hl & Hoth & r & Hr & Hrl & Hent).
    exists u'. split; [exact Hrun|]. split; [exact Hw|]. split; [exact Hl|].
    split; [|exact Hoth]. rewrite Hr. f_equal.
    apply list_Z_ext; assumption.
Qed.

Lemma initDistances_run v :
  0 <= width v -> 0 <= height v ->
  Z.of_nat (length (distances v)) = 2 * width v + 1 ->
  initDistances v = Some (tt, set_distances (table (width v) (height v)) v).
Proof.
  intros Hw Hh Hlen. unfold initDistances. unfold bind at 1. unfold get at 1.
  pose (rowOf := fun i => (fun j => i * i + j * j) <$> seqZ 0 (2 * height v + 1)).
  pose (I := fun (i : Z) (_ : unit) (u : Voronoi) =>
    u = set_distances (distances u) v /\
    Z.of_nat (length (distances u)) = 2 * width v + 1 /\
    forall i', 0 <= i' < i -> index (distances u) i' = Some (rowOf i')).
  match goal with
  | |- forZ _ _ ?body _ _ = _ =>
      destruct (forZ_inv I body 0 (2 * width v + 1) tt v) as ([] & u & Hrun & HI)
  end.
  - lia.
  - split; [destruct v; reflexivity|]. split; [exact Hlen|]. intros i' Hi'. lia.
  - intros i [] u Hi (Hu & Hl & Hrows).
    assert (Hhu : height u = height v) by (rewrite Hu; reflexivity).
    unfold bind at 1. unfold lift at 1. unfold make.
    destruct (Z.ltb_spec (2 * height v + 1) 0); [lia|].
    unfold bind at 1. unfold get at 1.
    destruct (store_is_Some (distances u) i
                (replicate (Z.to_nat (2 * height v + 1)) 0))
      as (t & Hst & Htl & Hti); [apply index_is_Some; lia|].
    unfold bind at 1. unfold lift at 1. rewrite Hst.
    unfold bind at 1. unfold modify at 1.
    destruct (fillRow_run v i (2 * height (set_distances t u) + 1)
                (replicate (Z.to_nat (2 * height v + 1)) 0) (set_distances t u))
      as (u' & Hrun & Hu' & Hl' & Hrow' & Hoth').
    + rewrite Hu. reflexivity.
    + simpl. rewrite Hti, Z.eqb_refl. reflexivity.
    + rewrite length_replicate. simpl. rewrite Hhu. lia.
    + exists tt, u'. split; [exact Hrun|]. split; [exact Hu'|]. split.
      * rewrite Hl'. simpl. rewrite Htl. exact Hl.
      * intros i' Hi'. destruct (Z.eq_dec i' i) as [-> | Hne].
        -- rewrite Hrow'. simpl. rewrite Hhu. reflexivity.
        -- rewrite Hoth' by exact Hne. simpl. rewrite Hti.
           destruct (Z.eqb_spec i' i); [contradiction|]. apply Hrows. lia.
  - destruct HI as (Hu & Hl & Hrows). rewrite Hrun. f_equal. f_equal.
    rewrite Hu. f_equal. apply list_Z_ext; assumption.
Qed.

(** ** [initDiagram] builds [emptyDiagram] *)

Lemma set_diagram_same v : set_diagram (diagram v) v = v.
Proof. destruct v; reflexivity. Qed.

Lemma store2_nil_row (m : list (list (option Point))) (i j : Z) (n : nat) :
  index m i = Some (replicate n None) -> 0 <= j < Z.of_nat n ->
  store2 m i j None = Some m.
Proof.
  intros Hrow Hj. unfold store2. rewrite Hrow. unfold store.
  rewrite length_replicate.
  destruct (Z.ltb_spec j 0); [lia|].
  destruct (Z.leb_spec (Z.of_nat n) j); [lia|]. simpl.
  rewrite insert_replicate.
  apply index_Some in Hrow as [Hi Hrow].
  destruct (Z.ltb_spec i 0); [lia|].
  destruct (Z.leb_spec (Z.of_nat (length m)) i) as [Hge | _].
  { apply lookup_lt_Some in Hrow. lia. }
  simpl. f_equal. apply list_insert_id, Hrow.
Qed.

Lemma clearRow_run (i h : Z) (u : Voronoi) :
  index (diagram u) i = Some (replicate (Z.to_nat h) None) ->
  forZ 0 h (fun j (_ : unit) => writeCell i j None) tt u = Some (tt, u).
Proof.
  intros Hrow. destruct (Z.le_gt_cases h 0) as [Hh | Hh].
  { apply forZ_empty. exact Hh. }
  destruct (forZ_inv (fun (_ : Z) (_ : unit) (w : Voronoi) => w = u)
              (fun j (_ : unit) => writeCell i j None) 0 h tt u)
    as ([] & u' & Hrun & ->); [lia | reflexivity | | exact Hrun].
  intros j [] w Hj ->. exists tt, u. split; [|reflexivity].
  unfold writeCell, bind, get, lift, modify. cbv beta.
  rewrite (store2_nil_row _ _ _ _ Hrow) by lia.
  rewrite set_diagram_same. reflexivity.
Qed.

Lemma initDiagram_run v :
  0 <= width v -> 0 <= height v ->
  Z.of_nat (length (diagram v)) = width v ->
  initDiagram v = Some (tt, set_diagram (emptyDiagram (width v) (height v)) v).
Proof.
  intros Hw Hh Hlen. unfold initDiagram. unfold bind at 1. unfold get at 1.
  pose (I := fun (i : Z) (_ : unit) (u : Voronoi) =>
    u = set_diagram (diagram u) v /\
    Z.of_nat (length (diagram u)) = width v /\
    forall i', 0 <= i' < i ->
      index (diagram u) i' = Some (replicate (Z.to_nat (height v)) None)).
  match goal with
  | |- forZ _ _ ?body _ _ = _ =>
      destruct (forZ_inv I body 0 (width v) tt v) as ([] & u & Hrun & HI)
  end.
  - lia.
  - split; [symmetry; apply set_diagram_same|]. split; [exact Hlen|].
    intros i' Hi'. lia.
  - intros i [] u Hi (Hu & Hl & Hrows).
    assert (Hhu : height u = height v) by (rewrite Hu; reflexivity).
    unfold bind at 1. unfold lift at 1. unfold make.
    destruct (Z.ltb_spec (height v) 0); [lia|].
    unfold bind at 1. unfold get at 1.
    destruct (store_is_Some (diagram u) i (replicate (Z.to_nat (height v)) None))
      as (t & Hst & Htl & Hti); [apply index_is_Some; lia|].
    unfold bind at 1. unfold lift at 1. rewrite Hst.
    unfold bind at 1. unfold modify at 1.
    exists tt, (set_diagram t u). split.
    + apply clearRow_run. simpl. rewrite Hti, Z.eqb_refl, Hhu. reflexivity.
    + split; [rewrite Hu; reflexivity|]. split; [simpl; lia|].
      intros i' Hi'. simpl. rewrite Hti.
      destruct (Z.eqb_spec i' i); [reflexivity|]. apply Hrows. lia.
  - destruct HI as (Hu & Hl & Hrows). rewrite Hrun. f_equal. f_equal.
    rewrite Hu. f_equal. apply list_Z_ext; assumption.
Qed.

(** ** [initSeeds] plants the generated seeds *)

Lemma seqZ_to_nat lo n : seqZ lo n = seqZ lo (Z.of_nat (Z.to_nat n)).
Proof. unfold seqZ. rewrite Nat2Z.id. reflexivity. Qed.

Lemma emptyDiagram_gridlike w h : gridlike (emptyDiagram w h) w h.
Proof.
  intros x y. unfold index2, emptyDiagram, index.
  destruct (Z.ltb_spec x 0) as [Hx | Hx].
  { split; [intros [? ?]; discriminate | lia]. }
  rewrite list_lookup_fmap.
  destruct (Z.lt_ge_cases x w) as [Hxw | Hxw].
  - rewrite lookup_seqZ_lt by lia. simpl.
    destruct (Z.ltb_spec y 0) as [Hy | Hy].
    { split; [intros [? ?]; discriminate | lia]. }
    rewrite lookup_lt_is_Some, length_replicate. lia.
  - rewrite lookup_seqZ_ge by lia. simpl.
    split; [intros [? ?]; discriminate | lia].
Qed.

Lemma emptyDiagram_nil w h x y c :
  index2 (emptyDiagram w h) x y = Some c -> c = None.
Proof.
  unfold index2, emptyDiagram, index.
  destruct (x <? 0); [discriminate|]. rewrite list_lookup_fmap.
  destruct (seqZ 0 w !! Z.to_nat x); [|discriminate]. simpl.
  destruct (y <? 0); [discriminate|]. intros H.
  apply lookup_replicate in H as [-> _]. reflexivity.
Qed.

Lemma emptyDiagram_length w h : length (emptyDiagram w h) = Z.to_nat w.
Proof. unfold emptyDiagram. rewrite length_fmap. apply length_seqZ. Qed.

Lemma plant_lookup d s :
  is_Some (index2 d (X s) (Y s)) ->
  store2 d (X s) (Y s) (Some s) = Some (plant d s) /\
  length (plant d s) = length d /\
  forall x y, index2 (plant d s) x y =
    if (x =? X s) && (y =? Y s) then Some (Some s) else index2 d x y.
Proof.
  intros H. unfold plant.
  destruct (store2_is_Some d (X s) (Y s) (Some s) H) as (d' & -> & Hlen & Hlook).
  split; [reflexivity|]. split; assumption.
Qed.

Lemma plant_gridlike d s w h :
  gridlike d w h -> gridlike (plant d s) w h.
Proof.
  intros Hg. destruct (index2 d (X s) (Y s)) as [c|] eqn:Hc.
  - destruct (plant_lookup d s) as (_ & _ & Hlook); [rewrite Hc; eauto|].
    intros x y. rewrite Hlook.
    destruct ((x =? X s) && (y =? Y s)) eqn:E; [|apply Hg].
    apply eqb_pair_true in E as [-> ->].
    split; [intros _; apply Hg; rewrite Hc; eauto | eauto].
  - unfold plant. destruct (store2 d (X s) (Y s) (Some s)) eqn:Hs; [|exact Hg].
    apply store2_Some_inv in Hs. rewrite Hc in Hs. destruct Hs; discriminate.
Qed.

Lemma drawSeed_inGrid w h r :
  0 < w -> 0 < h ->
  0 <= X (drawSeed w h r).1 < w /\ 0 <= Y (drawSeed w h r).1 < h.
Proof.
  intros Hw Hh. simpl. split; apply Z.mod_pos_bound; assumption.
Qed.

Lemma seedBody_run i r v :
  0 < width v -> 0 < height v ->
  gridlike (diagram v) (width v) (height v) ->
  seedBody i r v =
  Some ((drawSeed (width v) (height v) r).2,
        set_diagram (plant (diagram v) (drawSeed (width v) (height v) r).1)
          (set_seeds (seeds v ++ [(drawSeed (width v) (height v) r).1]) v)).
Proof.
  intros Hw Hh Hg. unfold seedBody, bind, get, lift, Intn. cbv beta.
  destruct (Z.leb_spec (width v) 0); [lia|].
  destruct (Z.leb_spec (height v) 0); [lia|].
  simpl. unfold writeCell, bind, get, lift, modify. simpl.
  destruct (plant_lookup (diagram v) (drawSeed (width v) (height v) r).1)
    as (Hst & _).
  { apply Hg. apply drawSeed_inGrid; assumption. }
  unfold drawSeed in *. simpl in Hst. rewrite Hst. reflexivity.
Qed.

Lemma seedLoop_run : forall (n : nat) lo r v,
  0 < width v -> 0 < height v ->
  gridlike (diagram v) (width v) (height v) ->
  exists r',
    forRange (seqZ lo (Z.of_nat n)) seedBody r v =
    Some (r',
          set_diagram
            (foldl plant (diagram v) (genSeeds n (width v) (height v) r))
            (set_seeds (seeds v ++ genSeeds n (width v) (height v) r) v)).
Proof.
  induction n as [|n IH]; intros lo r v Hw Hh Hg.
  - exists r. simpl. rewrite app_nil_r. destruct v; reflexivity.
  - rewrite seqZ_cons by lia. simpl.
    replace (Z.pred (Z.of_nat (S n))) with (Z.of_nat n) by lia.
    unfold bind. rewrite (seedBody_run lo r v Hw Hh Hg).
    set (s := (drawSeed (width v) (height v) r).1).
    set (r1 := (drawSeed (width v) (height v) r).2).
    destruct (IH (Z.succ lo) r1
                (set_diagram (plant (diagram v) s) (set_seeds (seeds v ++ [s]) v)))
      as (r' & Hrun); [exact Hw | exact Hh | apply plant_gridlike, Hg|].
    exists r'. rewrite Hrun. simpl. rewrite <- app_assoc. reflexivity.
Qed.

Lemma initSeeds_run r v :
  0 < width v -> 0 < height v ->
  gridlike (diagram v) (width v) (height v) ->
  initSeeds r v =
  Some (tt,
        set_diagram
          (foldl plant (diagram v)
             (genSeeds (Z.to_nat (numSeeds v)) (width v) (height v) r))
          (set_seeds (genSeeds (Z.to_nat (numSeeds v)) (width v) (height v) r) v)).
Proof.
  intros Hw Hh Hg. unfold initSeeds, bind, modify, get, forZ. cbv beta.
  rewrite Z.sub_0_r, seqZ_to_nat.
  destruct (seedLoop_run (Z.to_nat (numSeeds v)) 0 r (set_seeds [] v) Hw Hh Hg)
    as (r' & Hrun).
  simpl in Hrun |- *. rewrite Hrun. reflexivity.
Qed.

Lemma Init_run r v :
  allocated v -> 0 < width v -> 0 < height v ->
  Init r v =
  Some (tt, startState (width v) (height v) (numSeeds v)
              (genSeeds (Z.to_nat (numSeeds v)) (width v) (height v) r)).
Proof.
  intros [Hd Hg] Hw Hh. unfold Init.
  unfold bind at 1. rewrite initDistances_run by (assumption || lia).
  unfold bind at 1. rewrite initDiagram_run by (assumption || simpl; lia).
  unfold bind at 1. rewrite initSeeds_run;
    [| exact Hw | exact Hh | apply emptyDiagram_gridlike].
  reflexivity.
Qed.

Lemma NewVoronoi_run w h n :
  0 <= w -> n <= w * h ->
  NewVoronoi w h n =
  Some (inl (mkVoronoi w h n [] [] (replicate (Z.to_nat w) [])
                       0 (replicate (Z.to_nat (2 * w + 1)) []))).
Proof.
  intros Hw Hn. unfold NewVoronoi, make.
  destruct (Z.gtb_spec n (w * h)); [lia|].
  destruct (Z.ltb_spec (2 * w + 1) 0); [lia|].
  destruct (Z.ltb_spec w 0); [lia|]. reflexivity.
Qed.

Lemma NewVoronoi_allocated w h n v :
  NewVoronoi w h n = Some (inl v) ->
  allocated v /\ width v = w /\ height v = h /\ numSeeds v = n /\ n <= w * h.
Proof.
  unfold NewVoronoi, make.
  destruct (Z.gtb_spec n (w * h)); [discriminate|].
  destruct (Z.ltb_spec (2 * w + 1) 0); [discriminate|].
  destruct (Z.ltb_spec w 0); [discriminate|].
  intros [= <-]. unfold allocated. simpl. rewrite !length_replicate.
  repeat split; lia.
Qed.

(** ** The state after [Init] satisfies the invariant *)

Lemma genSeeds_length : forall n w h r, length (genSeeds n w h r) = n.
Proof. induction n as [|n IH]; intros; simpl; [|rewrite IH]; reflexivity. Qed.

Lemma genSeeds_seedLike w h :
  0 < w -> 0 < h ->
  forall n r s, s ∈ genSeeds n w h r -> seedLike w h s.
Proof.
  intros Hw Hh. induction n as [|n IH]; intros r s Hs; simpl in Hs.
  - apply elem_of_nil in Hs. contradiction.
  - apply elem_of_cons in Hs as [-> | Hs]; [|eapply IH, Hs].
    destruct (drawSeed_inGrid w h r Hw Hh) as [Hx Hy].
    split; [exact Hx|]. split; [exact Hy | reflexivity].
Qed.

Lemma foldl_plant_length : forall ss d, length (foldl plant d ss) = length d.
Proof.
  induction ss as [|s ss IH]; intros d; simpl; [reflexivity|].
  rewrite IH. unfold plant.
  destruct (store2 d (X s) (Y s) (Some s)) as [d'|] eqn:Hs; [|reflexivity].
  destruct (store2_is_Some d (X s) (Y s) (Some s)) as (d'' & Hs' & Hlen & _).
  { eapply store2_Some_inv, Hs. }
  congruence.
Qed.

Lemma foldl_plant_gridlike w h : forall ss d,
  gridlike d w h -> gridlike (foldl plant d ss) w h.
Proof.
  induction ss as [|s ss IH]; intros d Hg; simpl; [exact Hg|].
  apply IH, plant_gridlike, Hg.
Qed.

Lemma foldl_plant_cells all w h : forall ss d,
  gridlike d w h ->
  (forall s, s ∈ ss -> s ∈ all) ->
  (forall x y c, index2 d x y = Some c -> seedCell all x y c) ->
  forall x y c, index2 (foldl plant d ss) x y = Some c -> seedCell all x y c.
Proof.
  induction ss as [|s ss IH]; intros d Hg Hall Hd; simpl; [exact Hd|].
  apply IH.
  - apply plant_gridlike, Hg.
  - intros s' Hs'. apply Hall, elem_of_cons. right. exact Hs'.
  - intros x y c. destruct (index2 d (X s) (Y s)) as [c0|] eqn:Hc.
    + destruct (plant_lookup d s) as (_ & _ & Hlook); [rewrite Hc; eauto|].
      rewrite Hlook. destruct ((x =? X s) && (y =? Y s)) eqn:E; [|apply Hd].
      apply eqb_pair_true in E as [-> ->]. intros [= <-]. right.
      exists s. split; [apply Hall, elem_of_cons; left; reflexivity|].
      repeat split.
    + unfold plant. destruct (store2 d (X s) (Y s) (Some s)) eqn:Hs; [|apply Hd].
      apply store2_Some_inv in Hs. rewrite Hc in Hs. destruct Hs; discriminate.
Qed.

Lemma foldl_plant_keeps w h : forall ss d x y p,
  gridlike d w h ->
  index2 d x y = Some (Some p) ->
  exists p', index2 (foldl plant d ss) x y = Some (Some p').
Proof.
  induction ss as [|s ss IH]; intros d x y p Hg Hp; simpl; [eauto|].
  destruct (index2 d (X s) (Y s)) as [c0|] eqn:Hc.
  - destruct (plant_lookup d s) as (_ & _ & Hlook); [rewrite Hc; eauto|].
    destruct ((x =? X s) && (y =? Y s)) eqn:E.
    + apply (IH _ x y s); [apply plant_gridlike, Hg|]. rewrite Hlook, E. reflexivity.
    + apply (IH _ x y p); [apply plant_gridlike, Hg|]. rewrite Hlook, E. exact Hp.
  - unfold plant. destruct (store2 d (X s) (Y s) (Some s)) eqn:Hs;
      [|eapply IH; eassumption].
    apply store2_Some_inv in Hs. rewrite Hc in Hs. destruct Hs; discriminate.
Qed.

Lemma foldl_plant_planted w h : forall ss d,
  gridlike d w h ->
  (forall s, s ∈ ss -> 0 <= X s < w /\ 0 <= Y s < h) ->
  forall s, s ∈ ss ->
  exists p', index2 (foldl plant d ss) (X s) (Y s) = Some (Some p').
Proof.
  induction ss as [|s0 ss IH]; intros d Hg Hin s Hs; simpl.
  - apply elem_of_nil in Hs. contradiction.
  - apply elem_of_cons in Hs as [-> | Hs].
    + destruct (plant_lookup d s0) as (_ & _ & Hlook).
      { apply Hg, Hin, elem_of_cons. left. reflexivity. }
      apply (foldl_plant_keeps w h _ _ _ _ s0); [apply plant_gridlike, Hg|].
      rewrite Hlook, !Z.eqb_refl. reflexivity.
    + apply IH; [apply plant_gridlike, Hg | | exact Hs].
      intros s' Hs'. apply Hin, elem_of_cons. right. exact Hs'.
Qed.

Lemma table_ready w h n ss d r a :
  0 <= w -> 0 <= h -> tableReady (mkVoronoi w h n ss a d r (table w h)).
Proof.
  intros Hw Hh. split; simpl.
  - unfold table. rewrite length_fmap, length_seqZ. lia.
  - intros i j. unfold inTable, index2, table, index. simpl.
    destruct (Z.ltb_spec i 0) as [Hi | Hi].
    { destruct (Z.leb_spec 0 i); [lia | reflexivity]. }
    destruct (Z.leb_spec 0 i); [|lia]. rewrite list_lookup_fmap.
    destruct (Z.leb_spec i (2 * w)) as [Hiw | Hiw].
    + rewrite lookup_seqZ_lt by lia. simpl.
      destruct (Z.ltb_spec j 0) as [Hj | Hj].
      { destruct (Z.leb_spec 0 j); [lia | reflexivity]. }
      destruct (Z.leb_spec 0 j); [|lia]. rewrite list_lookup_fmap.
      destruct (Z.leb_spec j (2 * h)) as [Hjh | Hjh].
      * rewrite lookup_seqZ_lt by lia. simpl. f_equal. lia.
      * rewrite lookup_seqZ_ge by lia. reflexivity.
    + rewrite lookup_seqZ_ge by lia. reflexivity.
Qed.

Lemma startState_good w h n ss :
  0 < w -> 0 < h -> (forall s, s ∈ ss -> seedLike w h s) ->
  good (startState w h n ss).
Proof.
  intros Hw Hh Hss.
  pose proof (emptyDiagram_gridlike w h) as Hg0.
  pose proof (foldl_plant_gridlike w h ss _ Hg0) as Hg.
  assert (Hcells : forall x y c,
            index2 (foldl plant (emptyDiagram w h) ss) x y = Some c ->
            seedCell ss x y c).
  { apply (foldl_plant_cells ss w h); [exact Hg0 | tauto|].
    intros x y c Hc. left. eapply emptyDiagram_nil, Hc. }
  assert (Hplanted : forall s, s ∈ ss -> assignedAt (startState w h n ss) (X s) (Y s)).
  { intros s Hs.
    destruct (foldl_plant_planted w h ss _ Hg0) with (s := s) as (p' & Hp');
      [intros s' Hs'; destruct (Hss s' Hs') as (? & ? & _); tauto | exact Hs|].
    unfold assignedAt, dist_at, cell. simpl. rewrite Hp'.
    destruct (Hcells _ _ _ Hp') as [? | (s' & Hs' & [= ->] & _)]; [discriminate|].
    destruct (Hss s' Hs') as (_ & _ & ->). eauto. }
  split; simpl; try lia.
  - split; simpl.
    + rewrite foldl_plant_length, emptyDiagram_length. lia.
    + exact Hg.
    + intros x y p Hc.
      destruct (Hcells _ _ _ Hc) as [? | (s & _ & [= ->] & Hx & Hy)];
        [discriminate | tauto].
  - apply table_ready; lia.
  - intros s Hs. destruct (Hss s Hs) as (? & ? & _). split; assumption.
  - tauto.
  - exact Hplanted.
  - split; simpl.
    + intros s Hs x y Hin Hl. unfold l1 in Hl.
      replace x with (X s) by lia. replace y with (Y s) by lia.
      apply Hplanted, Hs.
    + intros x y [d Hd]. unfold dist_at, cell in Hd. simpl in Hd.
      destruct (index2 _ x y) as [[p|]|] eqn:Hc; try discriminate.
      destruct (Hcells _ _ _ Hc) as [? | (s & Hs & [= ->] & Hx & Hy)];
        [discriminate|].
      exists s. right. split; [unfold l1; lia | exact Hs].
  - intros x y p d Hc Hd. unfold cell in Hc. simpl in Hc.
    destruct (Hcells _ _ _ Hc) as [? | (s & Hs & [= ->] & Hx & Hy)];
      [discriminate|].
    exists s. split; [exact Hs|]. split; [reflexivity|].
    destruct (Hss s Hs) as (_ & _ & Hd0). rewrite Hd0 in Hd. injection Hd as <-.
    lia.
Qed.

(** ** Export *)

Lemma storePixel_spec pixels pos r g b a :
  0 <= pos -> pos + 3 < Z.of_nat (length pixels) ->
  exists pixels', storePixel pixels pos r g b a = Some pixels' /\
    length pixels' = length pixels /\
    pixelAt pixels' pos = [Some r; Some g; Some b; Some a] /\
    forall pos', pos' + 3 < pos \/ pos + 3 < pos' ->
      pixelAt pixels' pos' = pixelAt pixels pos'.
Proof.
  intros H0 Hlen. unfold storePixel.
  destruct (store_is_Some pixels pos r) as (p1 & -> & L1 & I1);
    [apply index_is_Some; lia|].
  destruct (store_is_Some p1 (pos + 1) g) as (p2 & -> & L2 & I2);
    [apply index_is_Some; lia|].
  destruct (store_is_Some p2 (pos + 2) b) as (p3 & -> & L3 & I3);
    [apply index_is_Some; lia|].
  destruct (store_is_Some p3 (pos + 3) a) as (p4 & -> & L4 & I4);
    [apply index_is_Some; lia|].
  assert (Hidx : forall k, index p4 k =
            if k =? pos + 3 then Some a
            else if k =? pos + 2 then Some b
            else if k =? pos + 1 then Some g
            else if k =? pos then Some r else index pixels k).
  { intros k. rewrite I4, I3, I2, I1. reflexivity. }
  exists p4. split; [reflexivity|]. split; [congruence|]. split.
  - unfold pixelAt. rewrite !Hidx.
    repeat match goal with
           | |- context [?x =? ?y] => destruct (Z.eqb_spec x y); try lia
           end.
    reflexivity.
  - intros pos' Hfar. unfold pixelAt. rewrite !Hidx.
    repeat match goal with
           | |- context [?x =? ?y] => destruct (Z.eqb_spec x y); try lia
           end.
    reflexivity.
Qed.

Lemma offsetOf_bounds v x y :
  inGrid v x y ->
  0 <= offsetOf v x y /\ offsetOf v x y + 3 < width v * height v * 4.
Proof. unfold inGrid, offsetOf. intros [Hx Hy]. split; nia. Qed.

Lemma offsetOf_apart v x y x' y' :
  inGrid v x y -> inGrid v x' y' -> (x, y) <> (x', y') ->
  offsetOf v x' y' + 3 < offsetOf v x y \/ offsetOf v x y + 3 < offsetOf v x' y'.
Proof.
  unfold inGrid, offsetOf. intros [Hx Hy] [Hx' Hy'] Hne.
  assert (y * width v + x <> y' * width v + x').
  { intros Heq. apply Hne.
    assert (y = y') by nia. subst y'. f_equal. lia. }
  lia.
Qed.

Lemma pixelBody_run v i j pixels :
  shaped v -> inGrid v i j ->
  Z.of_nat (length pixels) = width v * height v * 4 ->
  exists pixels', pixelBody v i j pixels v = Some (pixels', v) /\
    length pixels' = length pixels /\
    pixelAt pixels' (offsetOf v i j) = cellBytes v i j /\
    forall x y, inGrid v x y -> (x, y) <> (i, j) ->
      pixelAt pixels' (offsetOf v x y) = pixelAt pixels (offsetOf v x y).
Proof.
  intros Hsh Hin Hlen.
  destruct (offsetOf_bounds v i j Hin) as [Hlo Hhi].
  assert (Hfar : forall px', (forall pos',
              pos' + 3 < offsetOf v i j \/ offsetOf v i j + 3 < pos' ->
              pixelAt px' pos' = pixelAt pixels pos') ->
            forall x y, inGrid v x y -> (x, y) <> (i, j) ->
            pixelAt px' (offsetOf v x y) = pixelAt pixels (offsetOf v x y)).
  { intros px' Hpx x y Hxy Hne. apply Hpx.
    apply (offsetOf_apart v i j x y); [exact Hin | exact Hxy | congruence]. }
  unfold pixelBody, bind. rewrite readCell_run.
  destruct (proj2 (shaped_grid v Hsh i j) Hin) as [c Hc]. rewrite Hc.
  unfold cellBytes, color_at. rewrite Hc. fold (offsetOf v i j).
  destruct c as [[px py pd [col|]]|]; simpl.
  - destruct (storePixel_spec pixels (offsetOf v i j) (R col) (G col) (B col) (A col))
      as (px' & Hst & Hl & Hat & Hoth); [lia | lia|].
    exists px'. unfold lift. rewrite Hst. eauto.
  - destruct (storePixel_spec pixels (offsetOf v i j) x00 x00 x00 x00)
      as (px' & Hst & Hl & Hat & Hoth); [lia | lia|].
    exists px'. unfold lift. rewrite Hst. eauto.
  - destruct (storePixel_spec pixels (offsetOf v i j) x00 x00 x00 x00)
      as (px' & Hst & Hl & Hat & Hoth); [lia | lia|].
    exists px'. unfold lift. rewrite Hst. eauto.
Qed.

Lemma column_run v i pixels :
  shaped v -> 0 <= i < width v -> 0 <= height v ->
  Z.of_nat (length pixels) = width v * height v * 4 ->
  exists pixels', forZ 0 (height v) (pixelBody v i) pixels v = Some (pixels', v) /\
    length pixels' = length pixels /\
    (forall y, 0 <= y < height v ->
       pixelAt pixels' (offsetOf v i y) = cellBytes v i y) /\
    forall x y, inGrid v x y -> x <> i ->
      pixelAt pixels' (offsetOf v x y) = pixelAt pixels (offsetOf v x y).
Proof.
  intros Hsh Hi Hh Hlen.
  destruct (forZ_inv
    (fun j (a : list byte) (u : Voronoi) =>
       u = v /\ length a = length pixels /\
       (forall y, 0 <= y < j -> pixelAt a (offsetOf v i y) = cellBytes v i y) /\
       forall x y, inGrid v x y -> x <> i ->
         pixelAt a (offsetOf v x y) = pixelAt pixels (offsetOf v x y))
    (pixelBody v i) 0 (height v) pixels v) as (px' & u & Hrun & -> & HI).
  - exact Hh.
  - split; [reflexivity|]. split; [reflexivity|]. split; [intros; lia | reflexivity].
  - intros j a u Hj (-> & Hl & Hdone & Hoth).
    destruct (pixelBody_run v i j a Hsh) as (a' & Hrun & Hl' & Hat & Hrest).
    { unfold inGrid. lia. }
    { rewrite Hl. exact Hlen. }
    exists a', v. split; [exact Hrun|]. split; [reflexivity|].
    split; [congruence|]. split.
    + intros y Hy. destruct (Z.eq_dec y j) as [-> | Hne]; [exact Hat|].
      rewrite Hrest; [apply Hdone; lia | unfold inGrid; lia | congruence].
    + intros x y Hxy Hne. rewrite Hrest; [apply Hoth; assumption | exact Hxy|].
      congruence.
  - exists px'. split; [exact Hrun|]. exact HI.
Qed.

Lemma columns_run v pixels :
  shaped v -> 0 <= height v ->
  Z.of_nat (length pixels) = width v * height v * 4 ->
  exists pixels',
    forZ 0 (width v) (fun i a => forZ 0 (height v) (pixelBody v i) a) pixels v
    = Some (pixels', v) /\
    length pixels' = length pixels /\
    forall x y, inGrid v x y ->
      pixelAt pixels' (offsetOf v x y) = cellBytes v x y.
Proof.
  intros Hsh Hh Hlen.
  assert (Hw : 0 <= width v) by (rewrite <- (shaped_len v Hsh); lia).
  destruct (forZ_inv
    (fun i (a : list byte) (u : Voronoi) =>
       u = v /\ length a = length pixels /\
       forall x y, inGrid v x y -> x < i ->
         pixelAt a (offsetOf v x y) = cellBytes v x y)
    (fun i a => forZ 0 (height v) (pixelBody v i) a) 0 (width v) pixels v)
    as (px' & u & Hrun & -> & Hl & HI).
  - exact Hw.
  - split; [reflexivity|]. split; [reflexivity|]. unfold inGrid. intros; lia.
  - intros i a u Hi (-> & Hl & Hdone).
    destruct (column_run v i a Hsh Hi Hh) as (a' & Hrun & Hl' & Hcol & Hoth).
    { rewrite Hl. exact Hlen. }
    exists a', v. split; [exact Hrun|]. split; [reflexivity|].
    split; [congruence|]. intros x y Hxy Hx.
    destruct (Z.eq_dec x i) as [-> | Hne].
    + apply Hcol, Hxy.
    + rewrite Hoth by assumption. apply Hdone; [exact Hxy | lia].
  - exists px'. split; [exact Hrun|]. split; [exact Hl|].
    intros x y Hxy. apply HI; [exact Hxy | apply Hxy].
Qed.

Lemma marks_run v : forall ss pixels,
  (forall s, s ∈ ss -> inGrid v (X s) (Y s)) ->
  Z.of_nat (length pixels) = width v * height v * 4 ->
  exists pixels', forRange ss (markSeed v) pixels v = Some (pixels', v) /\
    length pixels' = length pixels /\
    forall x y, inGrid v x y ->
      (seedAt ss x y /\ pixelAt pixels' (offsetOf v x y) = blank) \/
      (~ seedAt ss x y /\
       pixelAt pixels' (offsetOf v x y) = pixelAt pixels (offsetOf v x y)).
Proof.
  induction ss as [|s ss IH]; intros pixels Hss Hlen.
  - exists pixels. split; [reflexivity|]. split; [reflexivity|].
    intros x y _. right. split; [|reflexivity].
    intros (s & Hs & _). apply elem_of_nil in Hs. contradiction.
  - assert (Hs : inGrid v (X s) (Y s)) by (apply Hss, elem_of_cons; tauto).
    destruct (offsetOf_bounds v _ _ Hs) as [Hlo Hhi].
    destruct (storePixel_spec pixels (offsetOf v (X s) (Y s)) x00 x00 x00 x00)
      as (p1 & Hst & Hl1 & Hat & Hoth); [lia | lia|].
    destruct (IH p1) as (px' & Hrun & Hl' & Hrest).
    { intros s' Hs'. apply Hss, elem_of_cons. right. exact Hs'. }
    { rewrite Hl1. exact Hlen. }
    exists px'. split.
    { simpl. unfold bind. unfold markSeed at 1. unfold lift.
      fold (offsetOf v (X s) (Y s)). rewrite Hst. exact Hrun. }
    split; [congruence|]. intros x y Hxy.
    destruct (Hrest x y Hxy) as [[Hat' Hb] | [Hnot Heq]].
    + left. split; [|exact Hb]. destruct Hat' as (s' & Hs' & Hx & Hy).
      exists s'. rewrite elem_of_cons. tauto.
    + destruct ((x =? X s) && (y =? Y s)) eqn:E.
      * apply eqb_pair_true in E as [-> ->]. left. split.
        -- exists s. rewrite elem_of_cons. tauto.
        -- rewrite Heq. exact Hat.
      * right. assert (Hne : (x, y) <> (X s, Y s)).
        { intros [= -> ->]. rewrite !Z.eqb_refl in E. discriminate. }
        split.
        -- intros (s' & Hs' & Hx & Hy). apply elem_of_cons in Hs' as [-> | Hs'].
           ++ apply Hne. congruence.
           ++ apply Hnot. exists s'. tauto.
        -- rewrite Heq. apply Hoth.
           apply (offsetOf_apart v (X s) (Y s) x y); [exact Hs | exact Hxy|].
           congruence.
Qed.

Lemma ToPixels_run v :
  shaped v -> 0 <= height v ->
  (forall s, s ∈ seeds v -> inGrid v (X s) (Y s)) ->
  exists pixels, ToPixels v = Some (pixels, v) /\
    Z.of_nat (length pixels) = width v * height v * 4 /\
    forall x y, inGrid v x y ->
      (seedAt (seeds v) x y /\ pixelAt pixels (offsetOf v x y) = blank) \/
      (~ seedAt (seeds v) x y /\
       pixelAt pixels (offsetOf v x y) = cellBytes v x y).
Proof.
  intros Hsh Hh Hseeds.
  assert (Hw : 0 <= width v) by (rewrite <- (shaped_len v Hsh); lia).
  unfold ToPixels. unfold bind at 1. unfold get.
  unfold bind at 1. unfold lift, make.
  destruct (Z.ltb_spec (width v * height v * 4) 0) as [Hneg | _]; [nia|].
  set (p0 := replicate (Z.to_nat (width v * height v * 4)) x00).
  assert (Hl0 : Z.of_nat (length p0) = width v * height v * 4).
  { unfold p0. rewrite length_replicate. nia. }
  destruct (columns_run v p0 Hsh Hh Hl0) as (p1 & Hrun1 & Hl1 & Hcells).
  unfold bind. rewrite Hrun1.
  destruct (marks_run v (seeds v) p1 Hseeds) as (p2 & Hrun2 & Hl2 & Hmarks).
  { rewrite Hl1. exact Hl0. }
  exists p2. split; [exact Hrun2|]. split; [congruence|].
  intros x y Hxy. destruct (Hmarks x y Hxy) as [H | [Hnot Heq]].
  - left. exact H.
  - right. split; [exact Hnot|]. rewrite Heq. apply Hcells, Hxy.
Qed.

(** ** Reachable states satisfy the invariant *)

Lemma Init_good r v :
  allocated v -> 0 < width v -> 0 < height v ->
  exists v', Init r v = Some (tt, v') /\ good v' /\
    v' = startState (width v) (height v) (numSeeds v)
           (genSeeds (Z.to_nat (numSeeds v)) (width v) (height v) r).
Proof.
  intros Ha Hw Hh. eexists. split; [apply Init_run; assumption|].
  split; [|reflexivity]. apply startState_good; [exact Hw | exact Hh|].
  intros s Hs. eapply genSeeds_seedLike; eassumption.
Qed.

Lemma good_allocated v : good v -> allocated v.
Proof.
  intros Hg. split.
  - apply (table_len v (good_table v Hg)).
  - apply (shaped_len v (good_shaped v Hg)).
Qed.

Lemma reachable_good v : reachable v -> good v.
Proof.
  induction 1 as [w h n r v0 v Hw Hh Hn Hnew Hinit
                 | fuel b v v' _ IH Hstep
                 | r v v' _ IH Hinit].
  - apply NewVoronoi_allocated in Hnew as (Ha & <- & <- & _).
    destruct (Init_good r v0 Ha Hw Hh) as (v' & Hrun & Hg & _). congruence.
  - eapply Tessellate_good; eassumption.
  - destruct (Init_good r v (good_allocated v IH) (good_width v IH) (good_height v IH))
      as (v'' & Hrun & Hg & _). congruence.
Qed.

(** ** When a ring returns and when it panics *)

Lemma seedsLoop_total prox : forall todo still v,
  shaped v -> tableReady v ->
  (forall p, p ∈ prox -> inTable v (X p) (Y p) = true) ->
  exists still' v', forRange todo (ringBody prox) still v = Some (still', v').
Proof.
  induction todo as [|seed todo IH]; intros still v Hsh Htab Hin.
  - exists still, v. reflexivity.
  - destruct (forRange_grow_spec seed prox false v Hsh Htab Hin)
      as (b & v1 & Hrun & G).
    destruct (IH (if b || false then still ++ [seed] else still) v1)
      as (still' & v' & Hrest).
    + apply G.
    + eapply tableReady_same; [apply G | exact Htab].
    + intros p Hp. rewrite (inTable_same _ _ _ _ (grows_same _ _ _ _ _ G)).
      apply Hin, Hp.
    + exists still', v'. simpl. unfold bind. unfold ringBody at 1.
      unfold bind, growSeed. rewrite Hrun. exact Hrest.
Qed.

Lemma ring_total v :
  shaped v -> tableReady v ->
  (forall p, p ∈ octant (radius v + 1) -> inTable v (X p) (Y p) = true) ->
  exists v', ring v = Some (tt, v').
Proof.
  intros Hsh Htab Hin.
  destruct (seedsLoop_total (octant (radius v + 1)) (activeSeeds v) []
              (set_radius (radius v + 1) v)) as (still & vm & Hrun).
  - apply shaped_set_radius, Hsh.
  - apply tableReady_set_radius, Htab.
  - exact Hin.
  - exists (set_activeSeeds still vm). unfold ring, bind.
    rewrite getProximityDistances_run. unfold get. simpl in Hrun |- *.
    rewrite Hrun. reflexivity.
Qed.

Lemma ring_panics v s rest p :
  shaped v -> tableReady v ->
  activeSeeds v = s :: rest ->
  p ∈ octant (radius v + 1) -> inTable v (X p) (Y p) = false ->
  ring v = None.
Proof.
  intros Hsh Htab Hact Hp Hout.
  destruct (ring v) as [[[] v']|] eqn:Hring; [|reflexivity]. exfalso.
  unfold ring in Hring. apply bind_inv in Hring as (prox & v1 & Hprox & Hring).
  rewrite getProximityDistances_run in Hprox. injection Hprox as <- <-.
  apply bind_inv in Hring as (v1 & v1' & Hget & Hring). injection Hget as <- <-.
  apply bind_inv in Hring as (still & vm & Hloop & _).
  simpl in Hloop. rewrite Hact in Hloop. simpl in Hloop.
  apply bind_inv in Hloop as (still1 & v1 & Hbody & _).
  unfold ringBody in Hbody. apply bind_inv in Hbody as (b & v1' & Hgrow & _).
  unfold growSeed in Hgrow.
  pose proof (forRange_grow_inv _ _ _ _ _
                (shaped_set_radius _ _ Hsh) (tableReady_set_radius _ _ Htab)
                Hgrow p Hp) as Hin.
  unfold inTable in *. simpl in Hin. congruence.
Qed.

Lemma octant_inTable v r p :
  1 <= r -> r <= 2 * height v -> r <= 4 * width v ->
  p ∈ octant r -> inTable v (X p) (Y p) = true.
Proof.
  intros Hr Hh Hw Hp. apply octant_elem in Hp as (k & Hk & Hle & ->).
  unfold inTable. simpl. rewrite !andb_true_iff, !Z.leb_le. lia.
Qed.

Lemma Tessellate_terminates : forall fuel v,
  good v -> tableCovers (width v) (height v) ->
  width v + height v - 1 - radius v <= Z.of_nat fuel ->
  exists v', Tessellate fuel true v = Returned v' /\
    radius v' <= Z.max (radius v) (width v + height v - 1).
Proof.
  induction fuel as [|fuel IH]; intros v Hg [Hc1 Hc2] Hfuel; simpl.
  - destruct (activeSeeds v) as [|s rest] eqn:Hact.
    + exists v. split; [reflexivity | lia].
    + pose proof (good_bound v Hg s) as Hb. rewrite Hact in Hb.
      specialize (Hb ltac:(apply elem_of_cons; left; reflexivity)). lia.
  - destruct (activeSeeds v) as [|s rest] eqn:Hact.
    + exists v. split; [reflexivity | lia].
    + pose proof (good_bound v Hg s) as Hb. rewrite Hact in Hb.
      specialize (Hb ltac:(apply elem_of_cons; left; reflexivity)).
      pose proof (good_radius v Hg) as Hr0.
      destruct (ring_total v (good_shaped v Hg) (good_table v Hg)) as (v1 & Hring).
      { intros p Hp. eapply octant_inTable; [| | |exact Hp]; lia. }
      rewrite Hring. simpl.
      destruct (ring_good v v1 Hg Hring) as (Hg1 & Hadv & Hrad & _).
      destruct (IH v1 Hg1) as (v' & Hrun & Hle).
      * rewrite (adv_width _ _ Hadv), (adv_height _ _ Hadv). split; assumption.
      * rewrite (adv_width _ _ Hadv), (adv_height _ _ Hadv). lia.
      * exists v'. split; [exact Hrun|].
        rewrite (adv_width _ _ Hadv), (adv_height _ _ Hadv) in Hle. lia.
Qed.

(** ** The ring against its log *)

Lemma forRange_rel {T SA SB} (Rel : SA -> SB -> Prop)
    (fa : T -> SA -> M SA) (fb : T -> SB -> M SB) :
  (forall x a b v, Rel a b -> agree Rel (fa x a v) (fb x b v)) ->
  forall l a b v, Rel a b -> agree Rel (forRange l fa a v) (forRange l fb b v).
Proof.
  intros Hstep. induction l as [|x l IH]; intros a b v Hab; simpl.
  - split; [exact Hab | reflexivity].
  - unfold bind. specialize (Hstep x a b v Hab). unfold agree in Hstep.
    destruct (fa x a v) as [[a1 v1]|], (fb x b v) as [[b1 v2]|];
      try contradiction; [|exact I].
    destruct Hstep as [H1 <-]. apply IH, H1.
Qed.

Lemma forRange_app {T St} (f : T -> St -> M St) l1 l2 a v :
  forRange (l1 ++ l2) f a v = bind (forRange l1 f a) (forRange l2 f) v.
Proof.
  revert a v. induction l1 as [|x l1 IH]; intros a v; simpl; [reflexivity|].
  unfold bind. destruct (f x a v) as [[a1 v1]|]; [|reflexivity].
  rewrite IH. reflexivity.
Qed.

Lemma anySuccess_app l1 l2 :
  anySuccess (l1 ++ l2) = anySuccess l1 || anySuccess l2.
Proof. apply existsb_app. Qed.

Lemma probeBody_log seed ps : forall acc log v,
  acc = anySuccess log ->
  agree (fun b l => b = anySuccess l)
    (forRange ps (probeBody seed) acc v) (probeLog seed ps log v).
Proof.
  intros acc log v Hacc. unfold probeLog.
  apply forRange_rel; [|exact Hacc]. clear. intros p a l v ->.
  unfold probeBody, bind, agree.
  destruct (assignPointToSeed seed p.2 p.1.1 p.1.2 v) as [[b v1]|]; [|exact I].
  simpl. split; [|reflexivity].
  rewrite anySuccess_app. simpl. unfold id. rewrite orb_false_r. apply orb_comm.
Qed.

(** [assignPointsToSeed] is the sequence of its eight claim attempts. *)
Lemma assignPointsToSeed_probes seed distance dx dy acc v :
  bind (assignPointsToSeed seed distance dx dy) (fun b => ret (b || acc)) v =
  forRange (probes distance dx dy) (probeBody seed) acc v.
Proof.
  unfold assignPointsToSeed, probes, reflections. simpl.
  unfold probeBody, bind, ret. simpl.
  repeat match goal with
         | |- context [assignPointToSeed ?s ?d ?a ?b ?u] =>
             destruct (assignPointToSeed s d a b u) as [[[] ?]|]
         end; reflexivity.
Qed.

Lemma growBody_probes seed p acc v d :
  index2 (distances v) (X p) (Y p) = Some d ->
  growBody seed p acc v = forRange (probes d (X p) (Y p)) (probeBody seed) acc v.
Proof.
  intros Hd. rewrite <- assignPointsToSeed_probes.
  unfold growBody, bind, get, lift. rewrite Hd. reflexivity.
Qed.

Lemma growSeed_probeAll seed prox : forall acc v,
  shaped v -> tableReady v ->
  (forall p, p ∈ prox -> inTable v (X p) (Y p) = true) ->
  forRange prox (growBody seed) acc v =
  forRange (ringProbes prox) (probeBody seed) acc v.
Proof.
  induction prox as [|p prox IH]; intros acc v Hsh Htab Hin; [reflexivity|].
  change (ringProbes (p :: prox))
    with (probes (X p * X p + Y p * Y p) (X p) (Y p) ++ ringProbes prox).
  rewrite forRange_app.
  change (forRange (p :: prox) (growBody seed) acc v)
    with (bind (growBody seed p acc) (forRange prox (growBody seed)) v).
  assert (Hp : inTable v (X p) (Y p) = true)
    by (apply Hin, elem_of_cons; left; reflexivity).
  assert (Hlook : index2 (distances v) (X p) (Y p) = Some (X p * X p + Y p * Y p))
    by (rewrite (table_at v Htab), Hp; reflexivity).
  pose proof (growBody_run seed p acc v Hsh Htab) as Hrun. rewrite Hp in Hrun.
  destruct Hrun as (b & v1 & Hrun & G).
  unfold bind. rewrite <- (growBody_probes seed p acc v _ Hlook), Hrun.
  apply IH.
  - apply G.
  - eapply tableReady_same; [apply G | exact Htab].
  - intros q Hq. rewrite (inTable_same _ _ _ _ (grows_same _ _ _ _ _ G)).
    apply Hin, elem_of_cons. right. exact Hq.
Qed.


Lemma seedLog_agree seed prox v :
  agree (fun b l => b = anySuccess l) (growSeed seed prox v) (seedLog seed prox v).
Proof.
  unfold growSeed, seedLog. apply forRange_rel; [|reflexivity].
  clear. intros p acc log v ->. unfold seedLogBody, bind, get, lift.
  destruct (index2 (distances v) (X p) (Y p)) as [d|] eqn:Hd.
  - rewrite (growBody_probes _ _ _ _ _ Hd). apply probeBody_log. reflexivity.
  - unfold growBody, bind, get, lift. rewrite Hd. exact I.
Qed.

Lemma keptSeeds_snoc log seed l :
  keptSeeds (log ++ [(seed, l)]) =
  if anySuccess l then keptSeeds log ++ [seed] else keptSeeds log.
Proof.
  unfold keptSeeds. rewrite List.filter_app, map_app. simpl.
  destruct (anySuccess l); simpl; [reflexivity | apply app_nil_r].
Qed.

Lemma ringLoop_agree prox todo : forall still log v,
  still = keptSeeds log ->
  agree (fun s l => s = keptSeeds l)
    (forRange todo (ringBody prox) still v)
    (forRange todo (ringLogBody prox) log v).
Proof.
  intros still log v Hs. apply forRange_rel; [|exact Hs].
  clear. intros seed still log v ->. unfold ringBody, ringLogBody, bind.
  pose proof (seedLog_agree seed prox v) as Ha. unfold agree in Ha |- *.
  destruct (growSeed seed prox v) as [[b v1]|], (seedLog seed prox v) as [[l v2]|];
    try contradiction; [|exact I].
  destruct Ha as [-> <-]. simpl. split; [|reflexivity].
  rewrite keptSeeds_snoc. reflexivity.
Qed.

Lemma ringLog_seeds prox todo : forall log v log' v',
  forRange todo (ringLogBody prox) log v = Some (log', v') ->
  map fst log' = map fst log ++ todo.
Proof.
  induction todo as [|seed todo IH]; intros log v log' v' Hrun; simpl in Hrun.
  - injection Hrun as <- <-. rewrite app_nil_r. reflexivity.
  - apply bind_inv in Hrun as (log1 & v1 & Hbody & Hrest).
    unfold ringLogBody in Hbody. apply bind_inv in Hbody as (l & v1' & _ & Hret).
    injection Hret as <- <-. rewrite (IH _ _ _ _ Hrest), map_app. simpl.
    rewrite <- app_assoc. reflexivity.
Qed.

Lemma keptSeeds_sublist log : sublist (keptSeeds log) (map fst log).
Proof.
  unfold keptSeeds. induction log as [|[seed l] log IH]; simpl; [constructor|].
  destruct (anySuccess l); simpl; constructor; exact IH.
Qed.

Lemma ring_ringLog v :
  match ring v, ringLog v with
  | Some (_, v'), Some (log, vl) =>
      v' = set_activeSeeds (keptSeeds log) vl /\ map fst log = activeSeeds v
  | None, None => True
  | _, _ => False
  end.
Proof.
  set (v1 := set_radius (radius v + 1) v).
  set (prox := octant (radius v + 1)).
  assert (Hr : ring v =
            match forRange (activeSeeds v) (ringBody prox) [] v1 with
            | Some (still, vm) => Some (tt, set_activeSeeds still vm)
            | None => None
            end) by reflexivity.
  assert (Hl : ringLog v = forRange (activeSeeds v) (ringLogBody prox) [] v1)
    by reflexivity.
  rewrite Hr, Hl.
  pose proof (ringLoop_agree prox (activeSeeds v) [] [] v1 eq_refl) as Ha.
  unfold agree in Ha.
  destruct (forRange (activeSeeds v) (ringBody prox) [] v1) as [[still vm]|];
    destruct (forRange (activeSeeds v) (ringLogBody prox) [] v1)
      as [[log vl]|] eqn:Hlog; try contradiction; [|exact I].
  destruct Ha as [-> <-]. split; [reflexivity|].
  apply ringLog_seeds in Hlog. exact Hlog.
Qed.

Lemma ring_sublist v v' :
  ring v = Some (tt, v') -> sublist (activeSeeds v') (activeSeeds v).
Proof.
  intros Hring. pose proof (ring_ringLog v) as H. rewrite Hring in H.
  destruct (ringLog v) as [[log vl]|]; [|contradiction].
  destruct H as [-> <-]. apply keptSeeds_sublist.
Qed.

Lemma Tessellate_sublist : forall fuel b v v',
  Tessellate fuel b v = Returned v' -> sublist (activeSeeds v') (activeSeeds v).
Proof.
  induction fuel as [|fuel IH]; intros b v v' Hrun; simpl in Hrun.
  - destruct (activeSeeds v) eqn:Hact; [|discriminate].
    injection Hrun as <-. rewrite Hact. constructor.
  - destruct (activeSeeds v) eqn:Hact.
    { injection Hrun as <-. rewrite Hact. constructor. }
    destruct (ring v) as [[[] v1]|] eqn:Hring; [|discriminate].
    apply ring_sublist in Hring. rewrite Hact in Hring.
    destruct (negb b).
    + injection Hrun as <-. exact Hring.
    + etrans; [eapply IH, Hrun | exact Hring].
Qed.

Lemma TessellateMany_sublist : forall calls v v',
  TessellateMany calls v = Returned v' -> sublist (activeSeeds v') (activeSeeds v).
Proof.
  induction calls as [|[fuel b] calls IH]; intros v v' Hrun; simpl in Hrun.
  - injection Hrun as <-. reflexivity.
  - destruct (Tessellate fuel b v) as [v1| |] eqn:Hstep; try discriminate.
    etrans; [eapply IH, Hrun | eapply Tessellate_sublist, Hstep].
Qed.

(** * The properties of the specification *)

(** ** Claim attempts *)

(** C2. A claim attempt of [seed] at the offset [(dx, dy)], one of the
    eight reflections of the octant point [(i, j)] whose table entry
    [distance] Tessellate passes along: the candidate distance is
    [dx*dx + dy*dy]; a target outside the canvas is rejected and the state
    is unchanged; an unassigned target takes the seed's colour and the
    candidate distance, and the attempt succeeds; a target with a strictly
    smaller stored distance is rejected and the state is unchanged;
    otherwise (stored distance equal or greater) the target is overwritten
    with the seed's colour and the candidate distance. *)
Theorem assignPointToSeed_cases v seed i j distance dx dy :
  shaped v -> tableReady v ->
  index2 (distances v) i j = Some distance ->
  (dx, dy) ∈ reflections i j ->
  let tx := X seed + dx in
  let ty := Y seed + dy in
  let claimed := mkPoint tx ty (Some distance) (PColor seed) in
  distance = dx * dx + dy * dy /\
  (~ inGrid v tx ty ->
     assignPointToSeed seed distance dx dy v = Some (false, v)) /\
  (inGrid v tx ty -> dist_at v tx ty = None ->
     exists v', assignPointToSeed seed distance dx dy v = Some (true, v') /\
                updatedAt v v' tx ty claimed) /\
  (forall d, dist_at v tx ty = Some d -> d < distance ->
     assignPointToSeed seed distance dx dy v = Some (false, v)) /\
  (forall d, dist_at v tx ty = Some d -> distance <= d ->
     exists v', assignPointToSeed seed distance dx dy v = Some (true, v') /\
                updatedAt v v' tx ty claimed).
Proof.
  intros Hsh Htab Hlook Hrefl tx ty claimed.
  split; [|split; [|split; [|split]]].
  - rewrite (table_at v Htab) in Hlook.
    destruct (inTable v i j); [|discriminate]. injection Hlook as <-.
    apply reflections_elem in Hrefl as [_ Hsq]. simpl in Hsq. lia.
  - apply assignPointToSeed_outside.
  - intros Hin Hnone. apply assignPointToSeed_claims; [exact Hsh | exact Hin|].
    fold tx ty. intros d Hd. congruence.
  - intros d Hd Hlt. eapply assignPointToSeed_closer; eassumption.
  - intros d Hd Hle. apply assignPointToSeed_claims; [exact Hsh | |].
    + apply (shaped_grid v Hsh). subst tx ty. unfold dist_at in Hd.
      destruct (cell v (X seed + dx) (Y seed + dy)); [eauto | discriminate Hd].
    + fold tx ty. intros d' Hd'. congruence.
Qed.

(** ** Construction *)


(** ** Ring geometry *)

Lemma reflections_spec_order dx dy :
  Permutation (reflections dx dy) (specReflections dx dy).
Proof.
  unfold reflections, specReflections. do 2 apply perm_skip.
  change (Permutation
            ([(dy, dx); (dy, - dx)] ++ [(- dx, dy); (- dx, - dy)]
               ++ [(- dy, dx); (- dy, - dx)])
            ([(- dx, dy); (- dx, - dy)] ++ [(dy, dx); (dy, - dx)]
               ++ [(- dy, dx); (- dy, - dx)])).
  rewrite !app_assoc. apply Permutation_app_tail, Permutation_app_comm.
Qed.


(** ** Export *)

(** C9. On an engine state with a well-formed diagram and its seeds on the
    canvas, [ToPixels] returns, leaves the state as it is, and yields a
    buffer of [width*height*4] bytes; the four bytes at offset
    [(y*width + x)*4] are zero when a seed lies at [(x, y)], whatever the
    colour of the cell, and otherwise the channels R, G, B, A of the colour
    stored in cell [(x, y)], zero when the cell has no colour. *)
Theorem export_layout v :
  shaped v -> 0 <= height v ->
  (forall s, s ∈ seeds v -> inGrid v (X s) (Y s)) ->
  exists pixels, ToPixels v = Some (pixels, v) /\
    Z.of_nat (length pixels) = width v * height v * 4 /\
    forall x y, inGrid v x y ->
      (seedAt (seeds v) x y -> pixelAt pixels (offsetOf v x y) = blank) /\
      (~ seedAt (seeds v) x y ->
         pixelAt pixels (offsetOf v x y) = cellBytes v x y) /\
      (color_at v x y = None -> pixelAt pixels (offsetOf v x y) = blank).
Proof.
  intros Hsh Hh Hseeds.
  destruct (ToPixels_run v Hsh Hh Hseeds) as (pixels & Hrun & Hlen & Hpix).
  exists pixels. split; [exact Hrun|]. split; [exact Hlen|].
  intros x y Hxy. destruct (Hpix x y Hxy) as [[Hat Hb] | [Hnot Hc]].
  - split; [intros _; exact Hb|]. split; [contradiction | intros _; exact Hb].
  - split; [contradiction|]. split; [intros _; exact Hc|].
    intros Hnone. rewrite Hc. unfold cellBytes. rewrite Hnone. reflexivity.
Qed.

(** ** Runs of Tessellate *)

Lemma reachable_many : forall calls v v',
  reachable v -> TessellateMany calls v = Returned v' -> reachable v'.
Proof.
  induction calls as [|[fuel b] calls IH]; intros v v' Hr Hrun; simpl in Hrun.
  - injection Hrun as <-. exact Hr.
  - destruct (Tessellate fuel b v) as [v1| |] eqn:Hstep; try discriminate.
    apply (IH v1); [|exact Hrun]. eapply reach_step; eassumption.
Qed.

(** A run that returned or panicked does the same with more fuel. *)
Lemma Tessellate_more_fuel : forall fuel b v o,
  Tessellate fuel b v = o -> o <> OutOfFuel ->
  forall fuel', (fuel <= fuel')%nat -> Tessellate fuel' b v = o.
Proof.
  induction fuel as [|fuel IH]; intros b v o Hrun Ho fuel' Hle.
  - simpl in Hrun. destruct fuel'; simpl; destruct (activeSeeds v); congruence.
  - destruct fuel' as [|fuel']; [lia|]. simpl in *.
    destruct (activeSeeds v); [exact Hrun|].
    destruct (ring v) as [[[] v1]|]; [|exact Hrun].
    destruct (negb b); [exact Hrun|]. apply (IH _ _ _ Hrun Ho). lia.
Qed.

(** With no active seed the loop body does not run. *)
Lemma Tessellate_idle fuel b v : activeSeeds v = [] -> Tessellate fuel b v = Returned v.
Proof. intros H. destruct fuel; simpl; rewrite H; reflexivity. Qed.

Lemma TessellateMany_idle : forall calls v,
  activeSeeds v = [] -> TessellateMany calls v = Returned v.
Proof.
  induction calls as [|[fuel b] calls IH]; intros v H; simpl; [reflexivity|].
  rewrite (Tessellate_idle fuel b v H). apply IH, H.
Qed.

Lemma Init_start w h n r v0 v :
  0 < w -> 0 < h ->
  NewVoronoi w h n = Some (inl v0) -> Init r v0 = Some (tt, v) ->
  v = startState w h n (genSeeds (Z.to_nat n) w h r).
Proof.
  intros Hw Hh Hnew Hinit.
  destruct (NewVoronoi_allocated _ _ _ _ Hnew) as (Hal & <- & <- & <- & _).
  rewrite (Init_run r v0 Hal Hw Hh) in Hinit. congruence.
Qed.

Lemma startState_cells w h n ss x y c :
  cell (startState w h n ss) x y = Some c -> seedCell ss x y c.
Proof.
  unfold cell. simpl.
  apply (foldl_plant_cells ss w h ss (emptyDiagram w h)).
  - apply emptyDiagram_gridlike.
  - auto.
  - intros x' y' c' Hc. left. eapply emptyDiagram_nil, Hc.
Qed.

Lemma demo_reachable : reachable demo.
Proof.
  apply (reach_init 4 4 2 demoRand
           (mkVoronoi 4 4 2 [] [] (replicate 4 []) 0 (replicate 9 [])));
    [lia | lia | lia | reflexivity | vm_compute; reflexivity].
Qed.

(** On [demo], the cell [(0, 3)] is claimed in ring 3 by the seed at
    [(0, 0)], at distance 9, and in ring 4 by the seed at [(2, 1)], at
    distance 8. *)
Lemma demo_overwrite :
  exists v3 v4,
    TessellateMany [(1%nat, false); (1%nat, false); (1%nat, false)] demo = Returned v3 /\
    Tessellate 1 false v3 = Returned v4 /\
    dist_at v3 0 3 = Some 9 /\ color_at v3 0 3 = PColor demoSeedA /\
    dist_at v4 0 3 = Some 8 /\ color_at v4 0 3 = PColor demoSeedB.
Proof.
  eexists. eexists. split; [vm_compute; reflexivity|].
  split; [vm_compute; reflexivity|]. repeat split; vm_compute; reflexivity.
Qed.

(** A claim attempt on an assigned cell. *)
Lemma assignPointToSeed_assigned v seed distance dx dy d b v' :
  shaped v ->
  dist_at v (X seed + dx) (Y seed + dy) = Some d ->
  assignPointToSeed seed distance dx dy v = Some (b, v') ->
  b = (distance <=? d) /\
  (b = false -> v' = v) /\
  (b = true ->
     updatedAt v v' (X seed + dx) (Y seed + dy)
       (mkPoint (X seed + dx) (Y seed + dy) (Some distance) (PColor seed))).
Proof.
  intros Hsh Hd Hrun. destruct (Z.leb_spec distance d) as [Hle | Hlt].
  - destruct (assignPointToSeed_claims v seed distance dx dy Hsh) as (v1 & Hrun1 & Hup).
    + apply (shaped_grid v Hsh). unfold dist_at in Hd.
      destruct (cell v (X seed + dx) (Y seed + dy)); [eauto | discriminate Hd].
    + intros d0 Hd0. congruence.
    + rewrite Hrun1 in Hrun. injection Hrun as <- <-.
      split; [reflexivity|]. split; [discriminate | intros _; exact Hup].
  - rewrite (assignPointToSeed_closer v seed distance dx dy d Hsh Hd Hlt) in Hrun.
    injection Hrun as <- <-. split; [reflexivity|]. split; [reflexivity | discriminate].
Qed.

Lemma keptSeeds_elem log s :
  s ∈ keptSeeds log <-> exists l, (s, l) ∈ log /\ anySuccess l = true.
Proof.
  unfold keptSeeds. rewrite list_elem_of_In, in_map_iff. split.
  - intros ([s0 l] & <- & Hin). apply filter_In in Hin as [Hin Hany].
    exists l. split; [apply list_elem_of_In; exact Hin | exact Hany].
  - intros (l & Hin & Hany). exists (s, l). split; [reflexivity|].
    apply filter_In. split; [apply list_elem_of_In; exact Hin | exact Hany].
Qed.

Lemma log_functional {A B} (log : list (A * B)) :
  NoDup (map fst log) ->
  forall a b b', (a, b) ∈ log -> (a, b') ∈ log -> b = b'.
Proof.
  induction log as [|[a0 b0] log IH]; simpl; intros Hnd a b b' H1 H2.
  - apply elem_of_nil in H1. contradiction.
  - apply NoDup_cons in Hnd as [Hnotin Hnd].
    assert (Hfst : forall c, (a0, c) ∈ log -> False).
    { intros c Hc. apply Hnotin. apply list_elem_of_In, in_map_iff.
      exists (a0, c). split; [reflexivity | apply list_elem_of_In; exact Hc]. }
    apply elem_of_cons in H1 as [H1 | H1]; apply elem_of_cons in H2 as [H2 | H2].
    + congruence.
    + injection H1 as -> ->. destruct (Hfst _ H2).
    + injection H2 as -> ->. destruct (Hfst _ H1).
    + eapply IH; eassumption.
Qed.

(** *** The 4 by 1 canvas with one seed *)

Lemma Init_4x1 r v0 v :
  NewVoronoi 4 1 1 = Some (inl v0) -> Init r v0 = Some (tt, v) ->
  exists x c, 0 <= x < 4 /\ v = startState 4 1 1 [mkPoint x 0 (Some 0) c].
Proof.
  intros Hnew Hinit.
  rewrite (Init_start 4 1 1 r v0 v ltac:(lia) ltac:(lia) Hnew Hinit).
  change (Z.to_nat 1) with 1%nat. cbn [genSeeds drawSeed fst].
  rewrite Z.mod_1_r. eexists _, _. split; [|reflexivity].
  apply Z.mod_pos_bound. lia.
Qed.

(** Wherever the seed lies, rings 1 and 2 are processed and leave the seed
    active; ring 3 starts with the lookup [distances[0][3]] in a table whose
    columns have three entries. *)
Lemma panic_4x1 x c v :
  0 <= x < 4 -> v = startState 4 1 1 [mkPoint x 0 (Some 0) c] ->
  Tessellate 0 true v = OutOfFuel /\ Tessellate 1 true v = OutOfFuel /\
  Tessellate 2 true v = OutOfFuel /\ Tessellate 3 true v = Panicked /\
  exists v2, TessellateMany [(1%nat, false); (1%nat, false)] v = Returned v2 /\
    radius v2 = 2 /\ activeSeeds v2 <> [] /\
    index2 (distances v2) 0 3 = None /\ ring v2 = None.
Proof.
  intros Hx ->.
  assert (x = 0 \/ x = 1 \/ x = 2 \/ x = 3) as [-> | [-> | [-> | ->]]] by lia;
  (repeat (split; [vm_compute; reflexivity|]);
   eexists; split; [vm_compute; reflexivity|]; split; [reflexivity|];
   split; [discriminate|]; split; vm_compute; reflexivity).
Qed.

(** ** Coverage *)

(** C1. On a canvas of positive size, after [NewVoronoi] and [Init] with
    any random draws: with at least one seed, a call [Tessellate(true)]
    that returns leaves no active seed, and in every state reached by calls
    of [Tessellate] in which no seed is active every cell of the grid is
    assigned, to a seed of the engine whose colour it carries and at the
    squared distance to that seed; on the canvases of [tableCovers] the
    call [Tessellate(true)] does return.  With no seed, any number of calls
    of [Tessellate] returns the state unchanged and every cell is nil. *)
Theorem tessellation_covers_grid w h n r v0 v :
  0 < w -> 0 < h -> 0 <= n ->
  NewVoronoi w h n = Some (inl v0) -> Init r v0 = Some (tt, v) ->
  (0 < n ->
     (forall fuel v', Tessellate fuel true v = Returned v' -> activeSeeds v' = []) /\
     (forall calls v', TessellateMany calls v = Returned v' -> activeSeeds v' = [] ->
        forall x y, 0 <= x < w -> 0 <= y < h ->
          exists p d s, cell v' x y = Some (Some p) /\ Distance p = Some d /\
            s ∈ seeds v /\ PColor p = PColor s /\
            d = (x - X s) * (x - X s) + (y - Y s) * (y - Y s)) /\
     (tableCovers w h ->
        exists v', Tessellate (Z.to_nat (w + h)) true v = Returned v')) /\
  (n = 0 ->
     forall calls, TessellateMany calls v = Returned v /\
       forall x y, 0 <= x < w -> 0 <= y < h -> cell v x y = Some None).
Proof.
  intros Hw Hh Hn Hnew Hinit.
  assert (Hreach : reachable v) by exact (reach_init w h n r v0 v Hw Hh Hn Hnew Hinit).
  pose proof (reachable_good v Hreach) as Hgood.
  pose proof (Init_start w h n r v0 v Hw Hh Hnew Hinit) as Hv.
  split.
  - intros Hpos. split; [|split].
    + intros fuel v'. apply Tessellate_completes.
    + intros calls v' Hrun Hdone x y Hx Hy.
      destruct (TessellateMany_good calls v v' Hgood Hrun) as [Hgood' Hadv].
      assert (Hseeds : seeds v' <> []).
      { rewrite (adv_seeds v v' Hadv), Hv. simpl. intros Hnil.
        apply (f_equal length) in Hnil. rewrite genSeeds_length in Hnil.
        simpl in Hnil. lia. }
      assert (Hin : inGrid v' x y).
      { unfold inGrid. rewrite (adv_width v v' Hadv), (adv_height v v' Hadv), Hv.
        simpl. lia. }
      destruct (good_all_assigned v' Hgood' Hdone Hseeds x y Hin) as [d Hd].
      unfold dist_at in Hd.
      destruct (cell v' x y) as [[p|]|] eqn:Hc; try discriminate.
      destruct (good_owned v' Hgood' x y p d Hc Hd) as (s & Hs & Hcol & Hdist).
      exists p, d, s. rewrite <- (adv_seeds v v' Hadv). auto.
    + intros Hcov.
      destruct (Tessellate_terminates (Z.to_nat (w + h)) v Hgood) as (v' & Hrun & _).
      * rewrite Hv. exact Hcov.
      * rewrite Hv. simpl. lia.
      * eauto.
  - intros ->. simpl in Hv. intros calls. split.
    + apply TessellateMany_idle. rewrite Hv. reflexivity.
    + intros x y Hx Hy. rewrite Hv. unfold cell. simpl.
      destruct (proj2 (emptyDiagram_gridlike w h x y) (conj Hx Hy)) as [c Hc].
      rewrite Hc. f_equal. eapply emptyDiagram_nil, Hc.
Qed.

(** One seed at [(1, 1)] on a 2 by 2 canvas: three rings complete the
    tessellation. *)
Lemma tessellation_covers_grid_witness :
  exists v0 v v',
    NewVoronoi 2 2 1 = Some (inl v0) /\
    Init (rngOf [1; 1; 10; 20; 30; 40]) v0 = Some (tt, v) /\
    Tessellate 3 true v = Returned v' /\
    forall x y, 0 <= x < 2 -> 0 <= y < 2 ->
      exists p d s, cell v' x y = Some (Some p) /\ Distance p = Some d /\
        s ∈ seeds v /\ PColor p = PColor s /\
        d = (x - X s) * (x - X s) + (y - Y s) * (y - Y s).
Proof.
  pose (r := rngOf [1; 1; 10; 20; 30; 40]).
  pose (v0 := mkVoronoi 2 2 1 [] [] [[]; []] 0 [[]; []; []; []; []]).
  assert (Hnew : NewVoronoi 2 2 1 = Some (inl v0)) by reflexivity.
  destruct (Init r v0) as [[[] v]|] eqn:Hinit; [|vm_compute in Hinit; discriminate].
  destruct (Tessellate 3 true v) as [v'| |] eqn:Hrun;
    [|vm_compute in Hinit; injection Hinit as <-; vm_compute in Hrun; discriminate..].
  exists v0, v, v'. split; [exact Hnew|]. split; [exact Hinit|]. split; [exact Hrun|].
  destruct (tessellation_covers_grid 2 2 1 r v0 v) as [Hsome _];
    [lia | lia | lia | exact Hnew | exact Hinit|].
  destruct (Hsome ltac:(lia)) as (Hdone & Hall & _).
  apply (Hall [(3%nat, true)] v').
  - cbn [TessellateMany]. rewrite Hrun. reflexivity.
  - apply (Hdone 3%nat v' Hrun).
Defined.

(** ** Termination and the distance table *)

(** C3. [Tessellate(true)] need not terminate normally: on a 4 by 1 canvas
    with one seed, whatever the random draws, the call never returns; the
    seed is still active after two rings and the third ring panics, so
    the set of active seeds never becomes empty. *)
Theorem tessellate_4x1_never_completes r v0 v :
  NewVoronoi 4 1 1 = Some (inl v0) -> Init r v0 = Some (tt, v) ->
  forall fuel,
    (forall v', Tessellate fuel true v <> Returned v') /\
    ((3 <= fuel)%nat -> Tessellate fuel true v = Panicked).
Proof.
  intros Hnew Hinit fuel.
  destruct (Init_4x1 r v0 v Hnew Hinit) as (x & c & Hx & Hv).
  destruct (panic_4x1 x c v Hx Hv) as (H0 & H1 & H2 & H3 & _).
  assert (Hbig : (3 <= fuel)%nat -> Tessellate fuel true v = Panicked).
  { intros Hle. apply (Tessellate_more_fuel 3 true v Panicked H3); [discriminate | exact Hle]. }
  split; [|exact Hbig]. intros v' Hret.
  destruct (le_lt_dec 3 fuel) as [Hle | Hlt].
  - rewrite (Hbig Hle) in Hret. discriminate.
  - assert (fuel = 0 \/ fuel = 1 \/ fuel = 2)%nat as [-> | [-> | ->]] by lia; congruence.
Qed.

Lemma tessellate_4x1_never_completes_witness :
  exists v0 v,
    NewVoronoi 4 1 1 = Some (inl v0) /\
    Init (rngOf [2; 0; 10; 20; 30; 40]) v0 = Some (tt, v) /\
    Tessellate 3 true v = Panicked.
Proof.
  pose (r := rngOf [2; 0; 10; 20; 30; 40]).
  pose (v0 := mkVoronoi 4 1 1 [] [] [[]; []; []; []] 0 [[]; []; []; []; []; []; []; []; []]).
  assert (Hnew : NewVoronoi 4 1 1 = Some (inl v0)) by reflexivity.
  destruct (Init r v0) as [[[] v]|] eqn:Hinit; [|vm_compute in Hinit; discriminate].
  exists v0, v. split; [exact Hnew|]. split; [exact Hinit|].
  apply (tessellate_4x1_never_completes r v0 v Hnew Hinit 3). lia.
Defined.

(** C4. A lookup in the distance table can be out of range: on a 4 by 1
    canvas with one seed, whatever the random draws, two calls
    [Tessellate(false)] return and leave the seed active; the octant of the
    next ring starts with the point [(0, 3)], the table has 9 columns of 3
    entries, the lookup [distances[0][3]] fails, and the third call
    panics. *)
Theorem table_lookup_out_of_range r v0 v :
  NewVoronoi 4 1 1 = Some (inl v0) -> Init r v0 = Some (tt, v) ->
  exists v2,
    TessellateMany [(1%nat, false); (1%nat, false)] v = Returned v2 /\
    activeSeeds v2 <> [] /\
    mkPoint 0 3 None None ∈ octant (radius v2 + 1) /\
    Z.of_nat (length (distances v2)) = 2 * 4 + 1 /\
    (forall i col, index (distances v2) i = Some col ->
       Z.of_nat (length col) = 2 * 1 + 1) /\
    index2 (distances v2) 0 3 = None /\
    Tessellate 1 false v2 = Panicked.
Proof.
  intros Hnew Hinit.
  destruct (Init_4x1 r v0 v Hnew Hinit) as (x & c & Hx & Hv).
  destruct (panic_4x1 x c v Hx Hv)
    as (_ & _ & _ & _ & v2 & Hrun & Hrad & Hact & Hlook & Hring).
  exists v2. split; [exact Hrun|]. split; [exact Hact|].
  assert (Hgood : good v).
  { apply reachable_good.
    exact (reach_init 4 1 1 r v0 v ltac:(lia) ltac:(lia) ltac:(lia) Hnew Hinit). }
  assert (Hadv : advances v v2) by (eapply TessellateMany_good; [exact Hgood | exact Hrun]).
  assert (Htab : distances v2 = table 4 1).
  { rewrite (adv_distances v v2 Hadv), Hv. reflexivity. }
  split; [rewrite Hrad; vm_compute; apply elem_of_cons; left; reflexivity|].
  split; [rewrite Htab; reflexivity|].
  split.
  - rewrite Htab. intros i col Hi.
    apply index_Some in Hi as [Hi Hcol].
    assert (Hlen : (Z.to_nat i < 9)%nat) by (apply lookup_lt_Some in Hcol; exact Hcol).
    assert (i = 0 \/ i = 1 \/ i = 2 \/ i = 3 \/ i = 4 \/ i = 5 \/ i = 6 \/ i = 7 \/ i = 8)
      as Hcases by lia.
    decompose [or] Hcases; subst i; vm_compute in Hcol; injection Hcol as <-; reflexivity.
  - split; [exact Hlook|].
    simpl. destruct (activeSeeds v2); [contradiction|]. rewrite Hring. reflexivity.
Qed.

Lemma table_lookup_out_of_range_witness :
  exists v0 v v2,
    NewVoronoi 4 1 1 = Some (inl v0) /\
    Init (rngOf [2; 0; 10; 20; 30; 40]) v0 = Some (tt, v) /\
    TessellateMany [(1%nat, false); (1%nat, false)] v = Returned v2 /\
    index2 (distances v2) 0 3 = None /\
    Tessellate 1 false v2 = Panicked.
Proof.
  pose (r := rngOf [2; 0; 10; 20; 30; 40]).
  pose (v0 := mkVoronoi 4 1 1 [] [] [[]; []; []; []] 0 [[]; []; []; []; []; []; []; []; []]).
  assert (Hnew : NewVoronoi 4 1 1 = Some (inl v0)) by reflexivity.
  destruct (Init r v0) as [[[] v]|] eqn:Hinit; [|vm_compute in Hinit; discriminate].
  destruct (table_lookup_out_of_range r v0 v Hnew Hinit)
    as (v2 & Hrun & _ & _ & _ & _ & Hlook & Hpanic).
  exists v0, v, v2. auto.
Defined.

(** ** Overwrites *)

(** C7, refuted as stated: overwrites do not happen only on equal-distance
    ties.  On the 4 by 4 canvas with seeds at [(0, 0)] and [(2, 1)], the
    cell [(0, 3)] holds distance 9 after three rings and is reassigned at
    distance 8 by the fourth. *)
Lemma overwrite_at_smaller_distance : ~ overwritesOnlyTies.
Proof.
  intros H. destruct demo_overwrite as (v3 & v4 & H3 & H4 & Hd3 & _ & Hd4 & _).
  apply (H v3 1%nat false v4 0 3 9 8);
    [eapply reachable_many; [apply demo_reachable | exact H3]
    | exact H4 | exact Hd3 | exact Hd4 | lia].
Qed.

(** C7, amended: a claim attempt on a cell already assigned with stored
    distance [d] succeeds exactly when the candidate distance is at most
    [d], equal or strictly smaller; afterwards the cell stores the smaller
    of the two distances, with the colour of the claiming seed when the
    attempt succeeded, and a rejected attempt leaves the state unchanged. *)
Theorem overwrite_stores_minimum v seed distance dx dy d b v' :
  shaped v ->
  dist_at v (X seed + dx) (Y seed + dy) = Some d ->
  assignPointToSeed seed distance dx dy v = Some (b, v') ->
  b = (distance <=? d) /\
  dist_at v' (X seed + dx) (Y seed + dy) = Some (Z.min d distance) /\
  (b = true -> color_at v' (X seed + dx) (Y seed + dy) = PColor seed) /\
  (b = false -> v' = v).
Proof.
  intros Hsh Hd Hrun.
  destruct (assignPointToSeed_assigned v seed distance dx dy d b v' Hsh Hd Hrun)
    as (Hb & Hfalse & Htrue).
  split; [exact Hb|]. destruct b.
  - destruct (Htrue eq_refl) as [_ Hlook].
    symmetry in Hb. apply Z.leb_le in Hb.
    unfold dist_at, color_at. rewrite Hlook, !Z.eqb_refl. simpl.
    split; [f_equal; lia|]. split; [reflexivity | discriminate].
  - rewrite (Hfalse eq_refl). symmetry in Hb. apply Z.leb_gt in Hb.
    split; [rewrite Hd; f_equal; lia|]. split; [discriminate | reflexivity].
Qed.

(** After three rings on [demo], the seed at [(2, 1)] claims the cell
    [(0, 3)], stored at distance 9, at distance 8. *)
Lemma overwrite_stores_minimum_witness :
  exists v3 v',
    TessellateMany [(1%nat, false); (1%nat, false); (1%nat, false)] demo = Returned v3 /\
    dist_at v3 0 3 = Some 9 /\
    assignPointToSeed demoSeedB 8 (-2) 2 v3 = Some (true, v') /\
    dist_at v' 0 3 = Some 8.
Proof.
  destruct demo_overwrite as (v3 & v4 & H3 & _ & Hd3 & _).
  pose proof (reachable_good v3 (reachable_many _ _ _ demo_reachable H3)) as Hgood.
  destruct (assignPointToSeed_grows v3 demoSeedB 8 (-2) 2 (good_shaped v3 Hgood))
    as (b & v' & Hrun & _).
  destruct (overwrite_stores_minimum v3 demoSeedB 8 (-2) 2 9 b v'
              (good_shaped v3 Hgood) Hd3 Hrun) as (Hb & Hd & _).
  exists v3, v'. split; [exact H3|]. split; [exact Hd3|].
  split; [rewrite Hrun, Hb; reflexivity | exact Hd].
Defined.

(** ** The active seeds *)

(** C8. A ring that is processed without panic is the ring of [ringLog],
    which runs the same claim attempts over the same active seeds in the
    same order and records their results.  The new list of active seeds is
    the list of the seeds with at least one successful attempt in that
    ring, in their previous relative order.  In every later state reached
    by calls of [Tessellate] the active seeds are a sublist of it, so a seed
    whose attempts all failed is not processed again (when the seeds are
    pairwise distinct it is not among the active seeds of any later
    state). *)
Theorem active_seeds_after_ring v v' :
  ring v = Some (tt, v') ->
  exists log vl,
    ringLog v = Some (log, vl) /\
    map fst log = activeSeeds v /\
    activeSeeds v' = keptSeeds log /\
    sublist (activeSeeds v') (activeSeeds v) /\
    (forall s, s ∈ activeSeeds v' <-> exists l, (s, l) ∈ log /\ anySuccess l = true) /\
    (forall calls v'', TessellateMany calls v' = Returned v'' ->
       sublist (activeSeeds v'') (keptSeeds log) /\
       (NoDup (activeSeeds v) ->
        forall s l, (s, l) ∈ log -> anySuccess l = false -> s ∉ activeSeeds v'')).
Proof.
  intros Hring. pose proof (ring_ringLog v) as H. rewrite Hring in H.
  destruct (ringLog v) as [[log vl]|]; [|contradiction].
  destruct H as [Hv' Hlog]. exists log, vl.
  assert (Hact : activeSeeds v' = keptSeeds log) by (rewrite Hv'; reflexivity).
  split; [reflexivity|]. split; [exact Hlog|]. split; [exact Hact|].
  split; [eapply ring_sublist, Hring|].
  split; [intros s; rewrite Hact; apply keptSeeds_elem|].
  intros calls v'' Hrun.
  assert (Hsub : sublist (activeSeeds v'') (keptSeeds log)).
  { rewrite <- Hact. eapply TessellateMany_sublist, Hrun. }
  split; [exact Hsub|]. intros Hnd s l Hin Hany Hs.
  eapply elem_of_sublist in Hs; [|exact Hsub].
  apply keptSeeds_elem in Hs as (l' & Hin' & Hany').
  rewrite <- Hlog in Hnd.
  rewrite (log_functional log Hnd s l l' Hin Hin') in Hany. congruence.
Qed.

Lemma active_seeds_after_ring_witness :
  exists v' log vl,
    ring demo = Some (tt, v') /\ ringLog demo = Some (log, vl) /\
    map fst log = activeSeeds demo /\ activeSeeds v' = keptSeeds log.
Proof.
  destruct (ring demo) as [[[] v']|] eqn:Hring; [|vm_compute in Hring; discriminate].
  destruct (active_seeds_after_ring demo v' Hring) as (log & vl & Hl & Hm & Ha & _).
  exists v', log, vl. auto.
Defined.

(** ** Monotonicity *)

(** C10. In a state the engine can be in: across any calls of [Tessellate]
    that return, an assigned cell stays assigned and its stored distance
    does not increase; a claim attempt changes at most its target cell, and
    only when it succeeds, which on an assigned target requires a candidate
    distance less than or equal to the stored one; [Init] leaves every cell
    that holds no seed unassigned. *)
Theorem distances_never_increase v :
  reachable v ->
  (forall calls v', TessellateMany calls v = Returned v' ->
     forall x y d, dist_at v x y = Some d ->
       exists d', dist_at v' x y = Some d' /\ d' <= d) /\
  (forall seed distance dx dy b v',
     assignPointToSeed seed distance dx dy v = Some (b, v') ->
     forall x y, cell v' x y <> cell v x y ->
       b = true /\ x = X seed + dx /\ y = Y seed + dy /\
       forall d, dist_at v x y = Some d -> distance <= d) /\
  (forall r v', Init r v = Some (tt, v') ->
     forall x y, ~ seedAt (seeds v') x y -> dist_at v' x y = None).
Proof.
  intros Hreach. pose proof (reachable_good v Hreach) as Hgood.
  split; [|split].
  - intros calls v' Hrun.
    destruct (TessellateMany_good calls v v' Hgood Hrun) as [_ Hadv].
    exact (adv_mono v v' Hadv).
  - intros seed distance dx dy b v' Hrun x y Hdiff.
    pose proof (good_shaped v Hgood) as Hsh.
    destruct (assignPointToSeed_grows v seed distance dx dy Hsh) as (b1 & v1 & Hrun1 & Hg).
    rewrite Hrun in Hrun1. injection Hrun1 as <- <-.
    destruct (grows_cells _ _ _ _ _ Hg x y) as [Hsame | (Hb & _ & d0 & Hoff & _)];
      [contradiction|].
    apply list_elem_of_singleton in Hoff. injection Hoff as Hx Hy _.
    assert (Hxe : x = X seed + dx) by lia. assert (Hye : y = Y seed + dy) by lia.
    split; [exact Hb|]. split; [exact Hxe|]. split; [exact Hye|].
    intros d Hd. subst x y.
    destruct (assignPointToSeed_assigned v seed distance dx dy d b v' Hsh Hd Hrun)
      as (Hle & _). rewrite Hb in Hle. symmetry in Hle. apply Z.leb_le in Hle. exact Hle.
  - intros r v' Hinit x y Hno.
    destruct (Init_good r v (good_allocated v Hgood) (good_width v Hgood)
                (good_height v Hgood)) as (v1 & Hrun1 & _ & Hv1).
    rewrite Hinit in Hrun1. injection Hrun1 as <-.
    unfold dist_at. destruct (cell v' x y) as [[p|]|] eqn:Hc; try reflexivity.
    rewrite Hv1 in Hc. apply startState_cells in Hc as [Hnone | (s & Hs & Hp & Hx & Hy)];
      [discriminate|].
    exfalso. apply Hno. exists s. rewrite Hv1. simpl. auto.
Qed.

Lemma distances_never_increase_witness :
  exists v3 v4,
    TessellateMany [(1%nat, false); (1%nat, false); (1%nat, false)] demo = Returned v3 /\
    TessellateMany [(1%nat, false)] v3 = Returned v4 /\
    dist_at v3 0 3 = Some 9 /\
    exists d', dist_at v4 0 3 = Some d' /\ d' <= 9.
Proof.
  destruct demo_overwrite as (v3 & v4 & H3 & H4 & Hd3 & _).
  assert (H4' : TessellateMany [(1%nat, false)] v3 = Returned v4).
  { cbn [TessellateMany]. rewrite H4. reflexivity. }
  exists v3, v4. split; [exact H3|]. split; [exact H4'|]. split; [exact Hd3|].
  destruct (distances_never_increase v3 (reachable_many _ _ _ demo_reachable H3))
    as [Hmono _].
  exact (Hmono _ _ H4' 0 3 9 Hd3).
Defined.

(** ** The other properties on the small engine *)

(** On [demo], the seed at [(2, 1)] claims the unassigned cell [(2, 2)] at
    the offset [(0, 1)], with the table entry 1 of the octant point
    [(0, 1)]. *)
Lemma assignPointToSeed_cases_witness :
  exists v',
    assignPointToSeed demoSeedB 1 0 1 demo = Some (true, v') /\
    updatedAt demo v' 2 2 (mkPoint 2 2 (Some 1) (PColor demoSeedB)).
Proof.
  pose proof (reachable_good demo demo_reachable) as Hgood.
  destruct (assignPointToSeed_cases demo demoSeedB 0 1 1 0 1
              (good_shaped demo Hgood) (good_table demo Hgood))
    as (_ & _ & Hfree & _).
  - vm_compute. reflexivity.
  - unfold reflections. apply elem_of_cons. left. reflexivity.
  - apply Hfree.
    + unfold inGrid. simpl. lia.
    + vm_compute. reflexivity.
Defined.


(** The export of [demo] has 64 bytes. *)
Lemma export_layout_witness :
  exists pixels, ToPixels demo = Some (pixels, demo) /\
    Z.of_nat (length pixels) = 64 /\
    pixelAt pixels (offsetOf demo 3 3) = blank.
Proof.
  pose proof (reachable_good demo demo_reachable) as Hgood.
  destruct (export_layout demo (good_shaped demo Hgood)) as (pixels & Hrun & Hlen & Hpix).
  - simpl. lia.
  - apply (good_seeds demo Hgood).
  - exists pixels. split; [exact Hrun|]. split; [exact Hlen|].
    apply (Hpix 3 3); [unfold inGrid; simpl; lia | vm_compute; reflexivity].
Defined.

(** * Further properties of the engine *)

(** ** Initialisation *)

(** Where a reachable state comes from. *)
Lemma reachable_origin v :
  reachable v ->
  0 < width v /\ 0 < height v /\ 0 <= numSeeds v <= width v * height v /\
  exists r,
    advances (startState (width v) (height v) (numSeeds v)
                (genSeeds (Z.to_nat (numSeeds v)) (width v) (height v) r)) v.
Proof.
  induction 1 as [w h n r v0 v Hw Hh Hn Hnew Hinit
                 | fuel b v v' Hr IH Hrun
                 | r v v' Hr IH Hinit].
  - pose proof (Init_start w h n r v0 v Hw Hh Hnew Hinit) as ->.
    destruct (NewVoronoi_allocated _ _ _ _ Hnew) as (_ & _ & _ & _ & Hle).
    simpl. repeat split; try lia. exists r. apply advances_refl.
  - destruct IH as (Hw & Hh & Hn & r & Hadv).
    destruct (Tessellate_good fuel b v v' (reachable_good v Hr) Hrun) as [_ Hstep].
    rewrite (adv_width v v' Hstep), (adv_height v v' Hstep), (adv_numSeeds v v' Hstep).
    repeat split; try lia. exists r. eapply advances_trans; eassumption.
  - destruct IH as (Hw & Hh & Hn & _).
    pose proof (reachable_good v Hr) as Hgood.
    rewrite (Init_run r v (good_allocated v Hgood) Hw Hh) in Hinit.
    injection Hinit as <-. simpl. repeat split; try lia.
    exists r. apply advances_refl.
Qed.

(** X1. [Init] is a full reset: called on any state the engine can be in,
    also in the middle of a tessellation, it returns the state that [Init]
    returns on the engine freshly made by [NewVoronoi] with the same
    parameters and the same random draws: radius 0, all seeds active. *)
Theorem Init_resets v r :
  reachable v ->
  exists v0 v',
    NewVoronoi (width v) (height v) (numSeeds v) = Some (inl v0) /\
    Init r v0 = Some (tt, v') /\ Init r v = Some (tt, v') /\
    radius v' = 0 /\ activeSeeds v' = seeds v' /\
    Z.of_nat (length (seeds v')) = numSeeds v.
Proof.
  intros Hr. destruct (reachable_origin v Hr) as (Hw & Hh & Hn & _).
  pose proof (reachable_good v Hr) as Hgood.
  eexists _, _. split; [apply NewVoronoi_run; lia|].
  split; [apply Init_run; [split; simpl; rewrite length_replicate; lia | exact Hw | exact Hh]|].
  simpl. split; [apply (Init_run r v (good_allocated v Hgood) Hw Hh)|].
  split; [reflexivity|]. split; [reflexivity|].
  rewrite genSeeds_length. lia.
Qed.

Lemma Init_resets_witness :
  exists v0 v',
    NewVoronoi 4 4 2 = Some (inl v0) /\
    Init demoRand v0 = Some (tt, v') /\ Init demoRand demo = Some (tt, v').
Proof.
  destruct (Init_resets demo demoRand demo_reachable)
    as (v0 & v' & Hnew & H0 & H1 & _).
  exists v0, v'. auto.
Defined.







(** ** Export and the engine before [Init] *)

Lemma store_length {T} (l : list T) i x l' :
  store l i x = Some l' -> length l' = length l.
Proof.
  unfold store. destruct ((i <? 0) || (Z.of_nat (length l) <=? i)); [discriminate|].
  intros [= <-]. apply length_insert.
Qed.

Lemma storePixel_length pixels pos r g b a pixels' :
  storePixel pixels pos r g b a = Some pixels' -> length pixels' = length pixels.
Proof.
  unfold storePixel.
  destruct (store pixels pos r) as [p1|] eqn:H1; [|discriminate].
  destruct (store p1 (pos + 1) g) as [p2|] eqn:H2; [|discriminate].
  destruct (store p2 (pos + 2) b) as [p3|] eqn:H3; [|discriminate].
  intros H4. apply store_length in H1, H2, H3, H4. congruence.
Qed.

(** A loop whose body keeps the state and the length of the accumulator. *)
Lemma forRange_pure {T A} (body : T -> list A -> M (list A)) (v : Voronoi) :
  (forall x acc acc' u, body x acc v = Some (acc', u) ->
     u = v /\ length acc' = length acc) ->
  forall l acc acc' u, forRange l body acc v = Some (acc', u) ->
    u = v /\ length acc' = length acc.
Proof.
  intros Hbody. induction l as [|x l IH]; intros acc acc' u Hrun.
  - injection Hrun as <- <-. auto.
  - cbn [forRange] in Hrun. unfold bind in Hrun.
    destruct (body x acc v) as [[a1 u1]|] eqn:Hb; [|discriminate].
    destruct (Hbody _ _ _ _ Hb) as [-> Hl1].
    destruct (IH _ _ _ Hrun) as [-> Hl2]. split; [reflexivity | congruence].
Qed.

Lemma lift_pure {T} (o : option T) (v u : Voronoi) x :
  lift o v = Some (x, u) -> u = v /\ o = Some x.
Proof. unfold lift. destruct o; [intros [= <- <-]; auto | discriminate]. Qed.

Lemma pixelBody_pure v i j pixels pixels' u :
  pixelBody v i j pixels v = Some (pixels', u) ->
  u = v /\ length pixels' = length pixels.
Proof.
  unfold pixelBody, bind. rewrite readCell_run.
  destruct (cell v i j) as [c|]; [|discriminate].
  destruct c as [[x y d [col|]]|]; intros H; apply lift_pure in H as [-> H];
    apply storePixel_length in H; auto.
Qed.

Lemma markSeed_pure v s pixels pixels' u :
  markSeed v s pixels v = Some (pixels', u) ->
  u = v /\ length pixels' = length pixels.
Proof.
  unfold markSeed. intros H. apply lift_pure in H as [-> H].
  apply storePixel_length in H. auto.
Qed.

(** X4. [ToPixels] is read-only: on every state, whenever it returns, the
    engine is unchanged and the buffer has [width*height*4] bytes; so a
    second call returns the same bytes. *)
Theorem ToPixels_readonly v pixels v' :
  ToPixels v = Some (pixels, v') ->
  v' = v /\ Z.of_nat (length pixels) = width v * height v * 4 /\
  ToPixels v' = Some (pixels, v').
Proof.
  intros Hrun.
  assert (Hboth : v' = v /\ Z.of_nat (length pixels) = width v * height v * 4);
    [|destruct Hboth as [-> Hlen]; auto].
  revert Hrun.
  unfold ToPixels. unfold bind at 1, get. unfold bind at 1. unfold make, lift at 1.
  destruct (Z.ltb_spec (width v * height v * 4) 0) as [|Hpos]; [discriminate|].
  unfold bind at 1.
  destruct (forZ 0 (width v) _ _ v) as [[p1 u1]|] eqn:Hcols; [|discriminate].
  intros Hmarks.
  apply (forRange_pure (fun i a => forZ 0 (height v) (pixelBody v i) a) v) in Hcols
    as [-> Hl1].
  - apply (forRange_pure (markSeed v) v) in Hmarks as [-> Hl2].
    + split; [reflexivity|]. rewrite Hl2, Hl1, length_replicate. lia.
    + intros. eapply markSeed_pure; eassumption.
  - intros i acc acc' u Hcol. unfold forZ in Hcol.
    apply (forRange_pure (pixelBody v i) v) in Hcol; [exact Hcol|].
    intros. eapply pixelBody_pure; eassumption.
Qed.

Lemma ToPixels_readonly_witness :
  exists pixels, ToPixels demo = Some (pixels, demo) /\
    Z.of_nat (length pixels) = 64.
Proof.
  destruct (ToPixels demo) as [[pixels v']|] eqn:Hrun; [|vm_compute in Hrun; discriminate].
  destruct (ToPixels_readonly demo pixels v' Hrun) as (-> & Hlen & _).
  exists pixels. split; [reflexivity | exact Hlen].
Defined.

(** X5. Before [Init], on the engine returned by [NewVoronoi]: every call
    of [Tessellate] returns at once and changes nothing (no seed is
    active), and [ToPixels] panics on a canvas of positive size, the
    columns of the diagram being nil slices; on a canvas with a zero
    dimension it returns the empty buffer. *)
Theorem before_Init w h n v0 :
  NewVoronoi w h n = Some (inl v0) ->
  (forall calls, TessellateMany calls v0 = Returned v0) /\
  (0 < w -> 0 < h -> ToPixels v0 = None) /\
  (w = 0 \/ h = 0 -> ToPixels v0 = Some ([], v0)).
Proof.
  intros Hnew.
  assert (Hv0 : v0 = mkVoronoi w h n [] [] (replicate (Z.to_nat w) [])
                       0 (replicate (Z.to_nat (2 * w + 1)) [])).
  { destruct (NewVoronoi_allocated _ _ _ _ Hnew) as ([_ Hlen] & Hw & _ & _ & Hle).
    rewrite NewVoronoi_run in Hnew by lia. congruence. }
  split; [|split].
  - intros calls. apply TessellateMany_idle. rewrite Hv0. reflexivity.
  - intros Hw Hh. rewrite Hv0. unfold ToPixels. unfold bind at 1, get.
    unfold bind at 1. unfold make, lift at 1. cbn [width height].
    destruct (Z.ltb_spec (w * h * 4) 0) as [|_]; [nia|].
    unfold bind at 1. unfold forZ at 1. rewrite seqZ_cons by lia.
    cbn [forRange]. unfold bind at 1.
    unfold forZ at 1. rewrite seqZ_cons by lia. cbn [forRange]. unfold bind at 1.
    unfold pixelBody at 1. unfold bind at 1. rewrite readCell_run.
    unfold cell, index2, index. cbn [diagram]. simpl (0 <? 0).
    cbv iota. rewrite lookup_replicate_2 by lia. reflexivity.
  - intros Hz. rewrite Hv0. unfold ToPixels. unfold bind at 1, get.
    unfold bind at 1. unfold make, lift at 1. cbn [width height seeds].
    replace (w * h * 4) with 0 by nia. simpl.
    destruct Hz as [-> | ->].
    + unfold bind. rewrite forZ_empty by lia. reflexivity.
    + unfold bind. unfold forZ at 1.
      assert (Hloop : forall l acc u, forRange l
                 (fun (i : Z) (pixels : list byte) =>
                    forZ 0 0 (pixelBody (mkVoronoi w 0 n [] [] (replicate (Z.to_nat w) [])
                       0 (replicate (Z.to_nat (2 * w + 1)) [])) i) pixels) acc u
                = Some (acc, u)).
      { induction l as [|i l IH]; intros acc u; [reflexivity|].
        cbn [forRange]. unfold bind. rewrite forZ_empty by lia. apply IH. }
      rewrite Hloop. reflexivity.
Qed.

Lemma before_Init_witness :
  exists v0, NewVoronoi 4 4 2 = Some (inl v0) /\
    TessellateMany [(5%nat, true)] v0 = Returned v0 /\ ToPixels v0 = None.
Proof.
  pose (v0 := mkVoronoi 4 4 2 [] [] [[]; []; []; []] 0 [[]; []; []; []; []; []; []; []; []]).
  assert (Hnew : NewVoronoi 4 4 2 = Some (inl v0)) by reflexivity.
  destruct (before_Init 4 4 2 v0 Hnew) as (Hidle & Hpanic & _).
  exists v0. split; [exact Hnew|]. split; [apply Hidle | apply Hpanic; lia].
Defined.

(** ** Calls of Tessellate *)

Lemma frames_S k v :
  TessellateMany (frames (S k)) v =
  match Tessellate 1 false v with
  | Returned v' => TessellateMany (frames k) v'
  | Panicked => Panicked
  | OutOfFuel => OutOfFuel
  end.
Proof. reflexivity. Qed.

Lemma frame_active v s rest :
  activeSeeds v = s :: rest ->
  Tessellate 1 false v =
  match ring v with Some (_, v') => Returned v' | None => Panicked end.
Proof.
  intros Hact. cbn [Tessellate]. rewrite Hact.
  destruct (ring v) as [[[] v']|]; reflexivity.
Qed.

Lemma Tessellate_frames_eq : forall fuel v,
  Tessellate fuel true v =
  match TessellateMany (frames fuel) v with
  | Returned v' =>
      match activeSeeds v' with [] => Returned v' | _ :: _ => OutOfFuel end
  | Panicked => Panicked
  | OutOfFuel => OutOfFuel
  end.
Proof.
  induction fuel as [|fuel IH]; intros v.
  - cbn. destruct (activeSeeds v); reflexivity.
  - rewrite frames_S. destruct (activeSeeds v) as [|s rest] eqn:Hact.
    + rewrite (Tessellate_idle _ _ v Hact), (Tessellate_idle _ _ v Hact),
        (TessellateMany_idle _ v Hact), Hact. reflexivity.
    + rewrite (frame_active v s rest Hact). cbn [Tessellate]. rewrite Hact.
      destruct (ring v) as [[[] v1]|]; [|reflexivity]. cbn [negb]. apply IH.
Qed.

(** X6. [Tessellate(true)] is [Tessellate(false)] called until no seed is
    active: it returns a state exactly when that many single rings return
    it with no seed left active, and it panics exactly when one of them
    panics. *)
Theorem Tessellate_by_frames fuel v :
  (forall v', Tessellate fuel true v = Returned v' <->
     TessellateMany (frames fuel) v = Returned v' /\ activeSeeds v' = []) /\
  (Tessellate fuel true v = Panicked <-> TessellateMany (frames fuel) v = Panicked) /\
  TessellateMany (frames fuel) v <> OutOfFuel.
Proof.
  assert (Hno : forall k u, TessellateMany (frames k) u <> OutOfFuel).
  { induction k as [|k IH]; intros u; [discriminate|].
    rewrite frames_S. destruct (activeSeeds u) as [|s rest] eqn:Hact.
    - rewrite (Tessellate_idle _ _ u Hact). apply IH.
    - rewrite (frame_active u s rest Hact).
      destruct (ring u) as [[[] u1]|]; [apply IH | discriminate]. }
  rewrite Tessellate_frames_eq.
  destruct (TessellateMany (frames fuel) v) as [v1| |] eqn:Hf.
  - split; [|split; [|discriminate]].
    + intros v'. destruct (activeSeeds v1) eqn:Hact.
      * split; [intros [= <-]; auto | intros [H _]; exact H].
      * split; [discriminate | intros [[= <-] H]; congruence].
    + destruct (activeSeeds v1); split; discriminate.
  - split; [intros v'; split; [discriminate | intros [H _]; discriminate]|].
    split; [tauto | discriminate].
  - destruct (Hno fuel v Hf).
Qed.

(** X7. Once [Tessellate(true)] has returned, every further call of
    [Tessellate], with either flag, returns at once with the state
    unchanged. *)
Theorem Tessellate_idempotent fuel v v' calls :
  Tessellate fuel true v = Returned v' ->
  activeSeeds v' = [] /\ TessellateMany calls v' = Returned v'.
Proof.
  intros Hrun. pose proof (Tessellate_completes fuel v v' Hrun) as Hdone.
  split; [exact Hdone | apply TessellateMany_idle, Hdone].
Qed.

Lemma Tessellate_idempotent_witness :
  exists v', Tessellate 8 true demo = Returned v' /\
    TessellateMany [(1%nat, false); (8%nat, true)] v' = Returned v'.
Proof.
  destruct (Tessellate 8 true demo) as [v'| |] eqn:Hrun;
    [|vm_compute in Hrun; discriminate..].
  exists v'. split; [reflexivity|].
  apply (Tessellate_idempotent 8 demo v' _ Hrun).
Defined.

(** ** Invariants of the states the engine can be in *)

Lemma Tessellate_radius : forall fuel b v v',
  good v -> radius v <= width v + height v - 1 ->
  Tessellate fuel b v = Returned v' ->
  radius v' <= width v' + height v' - 1.
Proof.
  induction fuel as [|fuel IH]; intros b v v' Hg Hr Hrun; simpl in Hrun.
  - destruct (activeSeeds v); [injection Hrun as <-; exact Hr | discriminate].
  - destruct (activeSeeds v) as [|s rest] eqn:Hact; [injection Hrun as <-; exact Hr|].
    destruct (ring v) as [[[] v1]|] eqn:Hring; [|discriminate].
    destruct (ring_good v v1 Hg Hring) as (Hg1 & Hadv & Hrad & _).
    assert (Hb : radius v <= width v + height v - 2).
    { apply (good_bound v Hg s). rewrite Hact. apply elem_of_cons. left. reflexivity. }
    assert (Hr1 : radius v1 <= width v1 + height v1 - 1).
    { rewrite (adv_width v v1 Hadv), (adv_height v v1 Hadv). lia. }
    destruct (negb b); [injection Hrun as <-; exact Hr1|].
    eapply IH; eassumption.
Qed.

(** X8. In every state the engine can be in, the radius, which counts
    the rings processed since the last [Init], is between 0 and
    [width + height - 1], however the calls of [Tessellate] were made. *)
Theorem radius_bounded v :
  reachable v -> 0 <= radius v <= width v + height v - 1.
Proof.
  intros Hr. split; [apply (good_radius v (reachable_good v Hr))|].
  induction Hr as [w h n r v0 v Hw Hh Hn Hnew Hinit
                  | fuel b v v' Hr IH Hrun
                  | r v v' Hr IH Hinit].
  - rewrite (Init_start w h n r v0 v Hw Hh Hnew Hinit). simpl. lia.
  - eapply Tessellate_radius; [apply reachable_good, Hr | exact IH | exact Hrun].
  - destruct (reachable_origin v Hr) as (Hw & Hh & _).
    rewrite (Init_run r v (good_allocated v (reachable_good v Hr)) Hw Hh) in Hinit.
    injection Hinit as <-. simpl. lia.
Qed.

Lemma radius_bounded_witness : 0 <= radius demo <= 4 + 4 - 1.
Proof. apply (radius_bounded demo demo_reachable). Defined.

Lemma startState_seed_cells w h n ss s :
  (forall s, s ∈ ss -> seedLike w h s) -> s ∈ ss ->
  dist_at (startState w h n ss) (X s) (Y s) = Some 0.
Proof.
  intros Hlike Hs.
  destruct (foldl_plant_planted w h ss (emptyDiagram w h)
              (emptyDiagram_gridlike w h)) with (s := s) as [p Hp]; [|exact Hs|].
  { intros s' Hs'. destruct (Hlike s' Hs') as (? & ? & _). auto. }
  assert (Hc : cell (startState w h n ss) (X s) (Y s) = Some (Some p)) by exact Hp.
  unfold dist_at. rewrite Hc.
  apply startState_cells in Hc as [Hnone | (s' & Hs' & Hp' & _)]; [discriminate|].
  injection Hp' as ->. destruct (Hlike s' Hs') as (_ & _ & Hd). exact Hd.
Qed.

(** X9. The cell of a seed is never taken away at a positive distance: in
    every state the engine can be in, the diagram entry at the position of
    a seed stores distance 0 and the colour of a seed at that very
    position. *)
Theorem seed_cells_stay v s :
  reachable v -> s ∈ seeds v ->
  exists p s', cell v (X s) (Y s) = Some (Some p) /\ Distance p = Some 0 /\
    s' ∈ seeds v /\ X s' = X s /\ Y s' = Y s /\ PColor p = PColor s'.
Proof.
  intros Hr Hs. pose proof (reachable_good v Hr) as Hg.
  destruct (reachable_origin v Hr) as (Hw & Hh & Hn & r & Hadv).
  rewrite (adv_seeds _ _ Hadv) in Hs. simpl in Hs.
  destruct (adv_mono _ _ Hadv (X s) (Y s) 0) as (d & Hd & Hle).
  { apply startState_seed_cells; [|exact Hs].
    intros s0 Hs0. eapply genSeeds_seedLike; eassumption. }
  unfold dist_at in Hd.
  destruct (cell v (X s) (Y s)) as [[p|]|] eqn:Hc; try discriminate.
  destruct (good_owned v Hg _ _ p d Hc Hd) as (s' & Hs' & Hcol & Hdist).
  pose proof (Z.square_nonneg (X s - X s')) as Hx.
  pose proof (Z.square_nonneg (Y s - Y s')) as Hy.
  assert (Hd0 : d = 0) by lia. subst d.
  assert (Hxe : X s' = X s) by nia. assert (Hye : Y s' = Y s) by nia.
  exists p, s'. split; [reflexivity|]. split; [rewrite Hd, Hd0; reflexivity|]. split; [exact Hs'|]. split; [exact Hxe|]. split; [exact Hye | exact Hcol].
Qed.

Lemma seed_cells_stay_witness :
  exists p s', cell demo 2 1 = Some (Some p) /\ Distance p = Some 0 /\
    s' ∈ seeds demo /\ X s' = 2 /\ Y s' = 1 /\ PColor p = PColor s'.
Proof.
  apply (seed_cells_stay demo demoSeedB demo_reachable).
  apply elem_of_cons. right. apply elem_of_cons. left. reflexivity.
Defined.

Lemma settled_le r r' v : r <= r' -> settled r v -> settled r' v.
Proof.
  intros Hle H x y p Hc. destruct (H x y p Hc) as (d & s & ? & ? & ? & ? & ?).
  exists d, s. repeat split; try assumption. lia.
Qed.

Lemma ringRun_settled r todo still v still' v' :
  ringRun (octant r) todo still v still' v' ->
  (forall s, s ∈ todo -> s ∈ seeds v) -> settled r v -> settled r v'.
Proof.
  induction 1 as [still v | seed todo still v b v1 still' v' G _ IH];
    intros Hsub Hset; [exact Hset|].
  pose proof (sameButDiagram_fields _ _ (grows_same _ _ _ _ _ G))
    as (_ & _ & _ & Hseeds & _).
  apply IH.
  - intros s Hin. rewrite Hseeds. apply Hsub, elem_of_cons. right. exact Hin.
  - intros x y p Hc. rewrite Hseeds.
    destruct (grows_ring_changed _ _ _ _ _ x y G) as [E | (_ & _ & Hl & Hnew)].
    + rewrite E in Hc. apply Hset, Hc.
    + rewrite Hnew in Hc. injection Hc as <-. simpl.
      eexists _, seed. split; [reflexivity|].
      split; [apply Hsub, elem_of_cons; left; reflexivity|].
      split; [reflexivity|]. split; [reflexivity | lia].
Qed.

Lemma ring_settled v v' :
  good v -> settled (radius v) v -> ring v = Some (tt, v') ->
  settled (radius v') v'.
Proof.
  intros Hg Hset Hring.
  destruct (ring_good v v' Hg Hring) as (_ & _ & Hrad & _).
  destruct (ring_run v v' (good_shaped v Hg) (good_table v Hg) Hring)
    as (still & vm & Hrun & ->).
  rewrite Hrad in *. clear Hrad.
  intros x y p Hc. change (cell (set_activeSeeds still vm) x y) with (cell vm x y) in Hc.
  change (seeds (set_activeSeeds still vm)) with (seeds vm).
  apply (ringRun_settled _ _ _ _ _ _ Hrun); [| |exact Hc].
  - intros s Hs. apply (good_active v Hg s Hs).
  - apply (settled_le (radius v)); [lia|]. exact Hset.
Qed.

Lemma Tessellate_settled : forall fuel b v v',
  good v -> settled (radius v) v -> Tessellate fuel b v = Returned v' ->
  settled (radius v') v'.
Proof.
  induction fuel as [|fuel IH]; intros b v v' Hg Hset Hrun; simpl in Hrun.
  - destruct (activeSeeds v); [injection Hrun as <-; exact Hset | discriminate].
  - destruct (activeSeeds v); [injection Hrun as <-; exact Hset|].
    destruct (ring v) as [[[] v1]|] eqn:Hring; [|discriminate].
    pose proof (ring_settled v v1 Hg Hset Hring) as Hset1.
    destruct (ring_good v v1 Hg Hring) as (Hg1 & _).
    destruct (negb b); [injection Hrun as <-; exact Hset1|].
    eapply IH; eassumption.
Qed.

Lemma startState_settled w h n ss :
  (forall s, s ∈ ss -> seedLike w h s) -> settled 0 (startState w h n ss).
Proof.
  intros Hlike x y p Hc.
  apply startState_cells in Hc as [Hnone | (s & Hs & Hp & Hx & Hy)]; [discriminate|].
  injection Hp as ->. destruct (Hlike s Hs) as (_ & _ & Hd).
  exists 0, s. subst x y. unfold l1. simpl.
  repeat split; try assumption; try reflexivity; lia.
Qed.

Lemma reachable_settled v : reachable v -> settled (radius v) v.
Proof.
  induction 1 as [w h n r v0 v Hw Hh Hn Hnew Hinit
                 | fuel b v v' Hr IH Hrun
                 | r v v' Hr IH Hinit].
  - rewrite (Init_start w h n r v0 v Hw Hh Hnew Hinit).
    apply startState_settled. intros s Hs. eapply genSeeds_seedLike; eassumption.
  - eapply Tessellate_settled; [apply reachable_good, Hr | exact IH | exact Hrun].
  - destruct (reachable_origin v Hr) as (Hw & Hh & _).
    rewrite (Init_run r v (good_allocated v (reachable_good v Hr)) Hw Hh) in Hinit.
    injection Hinit as <-. apply startState_settled.
    intros s Hs. eapply genSeeds_seedLike; eassumption.
Qed.

Lemma genSeeds_coloured : forall n w h r s,
  s ∈ genSeeds n w h r -> is_Some (PColor s).
Proof.
  induction n as [|n IH]; intros w h r s Hs; simpl in Hs.
  - apply elem_of_nil in Hs. contradiction.
  - apply elem_of_cons in Hs as [-> | Hs]; [simpl; eauto | eapply IH, Hs].
Qed.

(** X10. In every state the engine can be in, a non-nil entry of the
    diagram stores its own coordinates, a distance and a colour: the colour
    of a seed of the engine, the squared distance to that seed, and the
    seed is at most [radius] rings away.  The empty point that
    [pointFromDiagram] stores on a nil entry never outlives the claim
    attempt that made it. *)
Theorem cells_well_formed v x y p :
  reachable v -> cell v x y = Some (Some p) ->
  X p = x /\ Y p = y /\
  exists d col s, Distance p = Some d /\ PColor p = Some col /\
    s ∈ seeds v /\ PColor s = Some col /\
    d = (x - X s) * (x - X s) + (y - Y s) * (y - Y s) /\
    l1 s x y <= radius v.
Proof.
  intros Hr Hc. pose proof (reachable_good v Hr) as Hg.
  destruct (shaped_pos v (good_shaped v Hg) x y p Hc) as [Hx Hy].
  split; [exact Hx|]. split; [exact Hy|].
  destruct (reachable_settled v Hr x y p Hc) as (d & s & Hd & Hs & Hcol & Hdist & Hl).
  destruct (reachable_origin v Hr) as (_ & _ & _ & r & Hadv).
  assert (Hsc : is_Some (PColor s)).
  { rewrite (adv_seeds _ _ Hadv) in Hs. simpl in Hs. eapply genSeeds_coloured, Hs. }
  destruct Hsc as [col Hsc]. exists d, col, s.
  split; [exact Hd|]. split; [congruence|]. auto.
Qed.

Lemma cells_well_formed_witness :
  exists p d col s, cell demo 0 0 = Some (Some p) /\
    Distance p = Some d /\ PColor p = Some col /\ s ∈ seeds demo /\
    PColor s = Some col.
Proof.
  destruct (cell demo 0 0) as [[p|]|] eqn:Hc; [|vm_compute in Hc; discriminate..].
  destruct (cells_well_formed demo 0 0 p demo_reachable Hc)
    as (_ & _ & d & col & s & Hd & Hcol & Hs & Hscol & _).
  exists p, d, col, s. auto.
Defined.

(** ** When Tessellate panics *)

Lemma octant_inTable_iff v r :
  0 <= r -> 0 <= width v -> 0 <= height v ->
  (forall p, p ∈ octant r -> inTable v (X p) (Y p) = true) <->
  r <= 2 * height v /\ r <= 4 * width v + 1.
Proof.
  intros Hr Hw Hh. split.
  - intros Hall. split.
    + specialize (Hall (mkPoint 0 r None None)).
      unfold inTable in Hall. simpl in Hall.
      rewrite !andb_true_iff, !Z.leb_le in Hall.
      apply Hall. apply octant_elem. exists 0. repeat split; try lia.
      f_equal; lia.
    + specialize (Hall (mkPoint (r / 2) (r - r / 2) None None)).
      unfold inTable in Hall. simpl in Hall.
      rewrite !andb_true_iff, !Z.leb_le in Hall.
      assert (Hdiv : 0 <= r / 2 /\ 2 * (r / 2) <= r /\ r < 2 * (r / 2) + 2).
      { pose proof (Z.div_mod r 2 ltac:(lia)). pose proof (Z.mod_pos_bound r 2 ltac:(lia)).
        lia. }
      assert (r / 2 <= 2 * width v); [|lia].
      apply Hall. apply octant_elem. exists (r / 2). repeat split; lia.
  - intros [H1 H2] p Hp. apply octant_elem in Hp as (k & Hk & Hle & ->).
    unfold inTable. simpl. rewrite !andb_true_iff, !Z.leb_le. lia.
Qed.

Lemma ring_idle v : activeSeeds v = [] ->
  ring v = Some (tt, set_activeSeeds [] (set_radius (radius v + 1) v)).
Proof.
  intros Hact. unfold ring, bind. rewrite getProximityDistances_run.
  unfold get. cbn [activeSeeds set_radius]. rewrite Hact. reflexivity.
Qed.

(** X11. The exact condition under which a ring of voronoi.go panics, on
    a well-formed state with the table of [initDistances]: some seed is
    active, and the new radius exceeds [2*height] (the lookup of the first
    octant point [(0, radius)]) or [4*width + 1] (the lookup of the last
    one). *)
Theorem ring_panics_iff v :
  shaped v -> tableReady v ->
  0 <= radius v -> 0 <= width v -> 0 <= height v ->
  (ring v = None <->
   activeSeeds v <> [] /\
   (2 * height v < radius v + 1 \/ 4 * width v + 1 < radius v + 1)).
Proof.
  intros Hsh Htab Hr Hw Hh. split.
  - intros Hnone. destruct (activeSeeds v) as [|s rest] eqn:Hact.
    { rewrite ring_idle in Hnone by exact Hact. discriminate. }
    split; [discriminate|].
    destruct (Z.lt_ge_cases (2 * height v) (radius v + 1)) as [|H1]; [auto|].
    destruct (Z.lt_ge_cases (4 * width v + 1) (radius v + 1)) as [|H2]; [auto|].
    exfalso. destruct (ring_total v Hsh Htab) as [v' Hv'].
    + apply octant_inTable_iff; lia.
    + congruence.
  - intros [Hact Hout].
    destruct (activeSeeds v) as [|s rest] eqn:Hs; [contradiction|].
    destruct (ring v) as [[[] v']|] eqn:Hring; [|reflexivity]. exfalso.
    assert (Hall : forall p, p ∈ octant (radius v + 1) -> inTable v (X p) (Y p) = true).
    { intros p Hp. destruct (inTable v (X p) (Y p)) eqn:Hin; [reflexivity|].
      rewrite (ring_panics v s rest p Hsh Htab Hs Hp Hin) in Hring. discriminate. }
    apply octant_inTable_iff in Hall; lia.
Qed.

Lemma ring_panics_iff_witness :
  ring demo = None <->
  activeSeeds demo <> [] /\
  (2 * height demo < radius demo + 1 \/ 4 * width demo + 1 < radius demo + 1).
Proof.
  pose proof (reachable_good demo demo_reachable) as Hg.
  apply (ring_panics_iff demo (good_shaped demo Hg) (good_table demo Hg));
    simpl; lia.
Defined.

Lemma Tessellate_returns : forall fuel b v,
  good v -> safeCanvas (width v) (height v) ->
  width v + height v - 1 - radius v <= Z.of_nat fuel ->
  exists v', Tessellate fuel b v = Returned v'.
Proof.
  induction fuel as [|fuel IH]; intros b v Hg [Hc1 Hc2] Hfuel; simpl.
  - destruct (activeSeeds v) as [|s rest] eqn:Hact; [eauto|].
    pose proof (good_bound v Hg s) as Hb. rewrite Hact in Hb.
    specialize (Hb ltac:(apply elem_of_cons; left; reflexivity)). lia.
  - destruct (activeSeeds v) as [|s rest] eqn:Hact; [eauto|].
    pose proof (good_bound v Hg s) as Hb. rewrite Hact in Hb.
    specialize (Hb ltac:(apply elem_of_cons; left; reflexivity)).
    pose proof (good_radius v Hg) as Hr0.
    pose proof (good_width v Hg) as Hw. pose proof (good_height v Hg) as Hh.
    destruct (ring_total v (good_shaped v Hg) (good_table v Hg)) as (v1 & Hring).
    { apply octant_inTable_iff; lia. }
    rewrite Hring.
    destruct (ring_good v v1 Hg Hring) as (Hg1 & Hadv & Hrad & _).
    destruct (negb b); [eauto|].
    apply (IH b v1 Hg1).
    + rewrite (adv_width _ _ Hadv), (adv_height _ _ Hadv). split; assumption.
    + rewrite (adv_width _ _ Hadv), (adv_height _ _ Hadv). lia.
Qed.

(** X12. On a canvas with [width <= height + 1] and
    [height <= 3*width + 2], from any state the engine can be in, no
    sequence of calls of [Tessellate] panics, and each call returns within
    [width + height] rings. *)
Theorem Tessellate_never_panics_on_safe_canvas v calls :
  reachable v -> safeCanvas (width v) (height v) ->
  (forall c, c ∈ calls -> (Z.to_nat (width v + height v) <= c.1)%nat) ->
  exists v', TessellateMany calls v = Returned v'.
Proof.
  revert v. induction calls as [|[fuel b] calls IH]; intros v Hr Hsafe Hfuel.
  - exists v. reflexivity.
  - cbn [TessellateMany].
    pose proof (reachable_good v Hr) as Hg.
    destruct (Tessellate_returns fuel b v Hg Hsafe) as [v1 H1].
    { pose proof (good_radius v Hg).
      specialize (Hfuel (fuel, b) ltac:(apply elem_of_cons; left; reflexivity)).
      simpl in Hfuel. lia. }
    rewrite H1.
    destruct (Tessellate_good fuel b v v1 Hg H1) as [_ Hadv].
    apply IH.
    + eapply reach_step; eassumption.
    + rewrite (adv_width _ _ Hadv), (adv_height _ _ Hadv). exact Hsafe.
    + intros c Hc. rewrite (adv_width _ _ Hadv), (adv_height _ _ Hadv).
      apply Hfuel, elem_of_cons. right. exact Hc.
Qed.

Lemma Tessellate_never_panics_on_safe_canvas_witness :
  exists v', TessellateMany [(8%nat, false); (8%nat, true)] demo = Returned v'.
Proof.
  apply (Tessellate_never_panics_on_safe_canvas demo _ demo_reachable).
  - unfold safeCanvas. simpl. lia.
  - intros c Hc. apply elem_of_cons in Hc as [-> | Hc]; [simpl; lia|].
    apply list_elem_of_singleton in Hc as ->. simpl. lia.
Defined.

Lemma inGrid_cases v x y : inGrid v x y \/ ~ inGrid v x y.
Proof. unfold inGrid. lia. Qed.

Lemma probes_lone s : forall ps acc v b v',
  shaped v -> lone s v ->
  (forall q, q ∈ ps -> q.2 = q.1.1 * q.1.1 + q.1.2 * q.1.2) ->
  forRange ps (probeBody s) acc v = Some (b, v') ->
  lone s v' /\ shaped v' /\ sameButDiagram v v' /\
  (acc = true \/ (exists q, q ∈ ps /\ inGrid v (X s + q.1.1) (Y s + q.1.2)) ->
   b = true).
Proof.
  induction ps as [|q ps IH]; intros acc v b v' Hsh Hlone Hsq Hrun.
  - injection Hrun as <- <-. split; [exact Hlone|]. split; [exact Hsh|].
    split; [apply sameButDiagram_refl|].
    intros [H | (q & Hq & _)]; [exact H | apply elem_of_nil in Hq; contradiction].
  - cbn [forRange] in Hrun. unfold bind at 1 in Hrun. unfold probeBody at 1 in Hrun.
    unfold bind at 1 in Hrun.
    pose proof (Hsq q ltac:(apply elem_of_cons; left; reflexivity)) as Hq.
    assert (Hsq' : forall q', q' ∈ ps -> q'.2 = q'.1.1 * q'.1.1 + q'.1.2 * q'.1.2).
    { intros q' Hq'. apply Hsq, elem_of_cons. right. exact Hq'. }
    destruct (inGrid_cases v (X s + q.1.1) (Y s + q.1.2)) as [Hin | Hout].
    + destruct (assignPointToSeed_claims v s q.2 q.1.1 q.1.2 Hsh Hin)
        as (v1 & Hrun1 & Hup).
      { intros d Hd. apply Hlone in Hd. rewrite Hq, Hd. apply Z.eq_le_incl.
        f_equal; f_equal; lia. }
      rewrite Hrun1 in Hrun. unfold ret in Hrun. cbn [orb] in Hrun.
      destruct (IH true v1 b v') as (Hl & Hs' & Hsame & Hb); [| |exact Hsq'|exact Hrun|].
      * eapply updatedAt_shaped; eassumption.
      * intros x y d Hd. unfold dist_at in Hd. rewrite (proj2 Hup) in Hd.
        destruct ((x =? X s + q.1.1) && (y =? Y s + q.1.2)) eqn:E.
        -- apply andb_true_iff in E as [Ex Ey].
           apply Z.eqb_eq in Ex, Ey. subst x y. simpl in Hd. injection Hd as <-.
           rewrite Hq. f_equal; f_equal; lia.
        -- apply Hlone. exact Hd.
      * split; [exact Hl|]. split; [exact Hs'|].
        split; [eapply sameButDiagram_trans; [apply Hup | exact Hsame]|].
        intros _. apply Hb. left. reflexivity.
    + rewrite (assignPointToSeed_outside v s q.2 q.1.1 q.1.2 Hout) in Hrun.
      unfold ret in Hrun. cbn [orb] in Hrun.
      destruct (IH acc v b v' Hsh Hlone Hsq' Hrun) as (Hl & Hs' & Hsame & Hb).
      split; [exact Hl|]. split; [exact Hs'|]. split; [exact Hsame|].
      intros [Hacc | (q0 & Hq0 & Hin0)]; apply Hb; [left; exact Hacc|].
      apply elem_of_cons in Hq0 as [-> | Hq0]; [contradiction|].
      right. exists q0. split; assumption.
Qed.

(** A ring of an engine whose one seed still has a cell of the grid on its
    diamond: the seed stays active. *)
Lemma ring_lone v s :
  good v -> seeds v = [s] -> activeSeeds v = [s] ->
  radius v + 1 <= 2 * height v -> radius v + 1 <= 4 * width v + 1 ->
  (exists x y, inGrid v x y /\ l1 s x y = radius v + 1) ->
  exists v', ring v = Some (tt, v') /\ activeSeeds v' = [s].
Proof.
  intros Hg Hseeds Hact Hh Hw (x & y & Hxy & Hl).
  pose proof (good_shaped v Hg) as Hsh. pose proof (good_table v Hg) as Htab.
  assert (Hall : forall p, p ∈ octant (radius v + 1) -> inTable v (X p) (Y p) = true).
  { apply octant_inTable_iff;
      pose proof (good_radius v Hg); pose proof (good_width v Hg);
      pose proof (good_height v Hg); lia. }
  destruct (ring_total v Hsh Htab Hall) as [v' Hring]. exists v'.
  split; [exact Hring|].
  unfold ring in Hring. apply bind_inv in Hring as (prox & v1 & Hprox & Hring).
  rewrite getProximityDistances_run in Hprox. injection Hprox as <- <-.
  apply bind_inv in Hring as (v1 & v1' & Hget & Hring). injection Hget as <- <-.
  apply bind_inv in Hring as (still & vm & Hloop & Hmod).
  injection Hmod as <-. cbn [activeSeeds set_activeSeeds].
  cbn [activeSeeds set_radius] in Hloop. rewrite Hact in Hloop.
  cbn [forRange] in Hloop. apply bind_inv in Hloop as (still1 & v1 & Hbody & Hret).
  injection Hret as <- <-.
  unfold ringBody in Hbody. apply bind_inv in Hbody as (b & v2 & Hgrow & Hret).
  injection Hret as <- <-.
  unfold growSeed in Hgrow.
  rewrite growSeed_probeAll in Hgrow;
    [|apply shaped_set_radius, Hsh | apply tableReady_set_radius, Htab | exact Hall].
  apply probes_lone in Hgrow as (_ & _ & _ & Hb).
  - rewrite Hb; [reflexivity|]. right.
    exists (x - X s, y - Y s, (x - X s) * (x - X s) + (y - Y s) * (y - Y s)).
    split.
    + apply ringProbes_octant. split; [|reflexivity].
      apply ringOffsets_complete. exact Hl.
    + simpl. replace (X s + (x - X s)) with x by lia.
      replace (Y s + (y - Y s)) with y by lia. exact Hxy.
  - apply shaped_set_radius, Hsh.
  - intros x' y' d Hd. change (dist_at (set_radius (radius v + 1) v) x' y') with (dist_at v x' y') in Hd.
    unfold dist_at in Hd. destruct (cell v x' y') as [[p|]|] eqn:Hc; try discriminate.
    destruct (good_owned v Hg x' y' p d Hc Hd) as (s' & Hs' & _ & Hdist).
    rewrite Hseeds in Hs'. apply list_elem_of_singleton in Hs' as ->. exact Hdist.
  - intros [[dx dy] d] Hq. apply ringProbes_octant in Hq as [_ ->]. reflexivity.
Qed.

(** One seed in the corner [(0, 0)]: ring after ring it stays active, as
    long as the table covers the rings and the grid has cells that far. *)
Lemma corner_frames s : forall (k : nat) v,
  good v -> seeds v = [s] -> activeSeeds v = [s] -> X s = 0 -> Y s = 0 ->
  radius v + Z.of_nat k <= width v + height v - 2 ->
  radius v + Z.of_nat k <= 2 * height v ->
  radius v + Z.of_nat k <= 4 * width v + 1 ->
  exists v', TessellateMany (frames k) v = Returned v' /\
    good v' /\ activeSeeds v' = [s] /\
    width v' = width v /\ height v' = height v /\
    radius v' = radius v + Z.of_nat k.
Proof.
  induction k as [|k IH]; intros v Hg Hseeds Hact Hx Hy Hgrid Hh Hw.
  - exists v. split; [reflexivity|]. split; [exact Hg|]. split; [exact Hact|].
    split; [reflexivity|]. split; [reflexivity | simpl; lia].
  - pose proof (good_radius v Hg) as Hr0.
    pose proof (good_width v Hg) as Hw0. pose proof (good_height v Hg) as Hh0.
    destruct (ring_lone v s Hg Hseeds Hact) as (v1 & Hring & Hact1); [lia | lia | |].
    { exists (Z.min (radius v + 1) (width v - 1)),
             (radius v + 1 - Z.min (radius v + 1) (width v - 1)).
      unfold inGrid, l1. rewrite Hx, Hy. split; lia. }
    destruct (ring_good v v1 Hg Hring) as (Hg1 & Hadv & Hrad & _).
    destruct (IH v1 Hg1) as (v' & Hrun & Hg' & Hact' & Hw' & Hh' & Hr');
      try assumption;
      rewrite ?(adv_width _ _ Hadv), ?(adv_height _ _ Hadv), ?(adv_seeds _ _ Hadv);
      try assumption; try lia.
    exists v'. rewrite frames_S, (frame_active v s [] Hact), Hring.
    split; [exact Hrun|]. split; [exact Hg'|]. split; [exact Hact'|].
    rewrite Hw', Hh', Hr', (adv_width _ _ Hadv), (adv_height _ _ Hadv).
    split; [reflexivity|]. split; [reflexivity | lia].
Qed.

Lemma Tessellate_after_frames : forall (k : nat) v vk fuel,
  TessellateMany (frames k) v = Returned vk -> activeSeeds vk <> [] ->
  Tessellate (k + fuel) true v = Tessellate fuel true vk.
Proof.
  induction k as [|k IH]; intros v vk fuel Hrun Hact.
  - injection Hrun as <-. reflexivity.
  - rewrite frames_S in Hrun.
    destruct (activeSeeds v) as [|s rest] eqn:Hv.
    + rewrite (Tessellate_idle 1 false v Hv) in Hrun.
      rewrite (TessellateMany_idle (frames k) v Hv) in Hrun.
      injection Hrun as <-. contradiction.
    + rewrite (frame_active v s rest Hv) in Hrun.
      change (S k + fuel)%nat with (S (k + fuel)). cbn [Tessellate]. rewrite Hv.
      destruct (ring v) as [[[] v1]|]; [|discriminate].
      cbn [negb]. apply IH; assumption.
Qed.

(** X13. On every other canvas ([width >= height + 2] or
    [height >= 3*width + 3]) the engine with one seed drawn in the corner
    [(0, 0)] never completes: [Tessellate(true)] panics, whatever number of
    rings it is given, and it panics within [width + height] rings. *)
Theorem Tessellate_panics_on_unsafe_canvas w h r v0 v :
  0 < w -> 0 < h -> ~ safeCanvas w h ->
  draws r (cursor r) mod w = 0 -> draws r (S (cursor r)) mod h = 0 ->
  NewVoronoi w h 1 = Some (inl v0) -> Init r v0 = Some (tt, v) ->
  forall fuel,
    (forall v', Tessellate fuel true v <> Returned v') /\
    ((Z.to_nat (w + h) <= fuel)%nat -> Tessellate fuel true v = Panicked).
Proof.
  intros Hw Hh Hunsafe Hdx Hdy Hnew Hinit.
  pose proof (reachable_good v (reach_init w h 1 r v0 v Hw Hh ltac:(lia) Hnew Hinit))
    as Hg.
  pose proof (Init_start w h 1 r v0 v Hw Hh Hnew Hinit) as Hv.
  change (Z.to_nat 1) with 1%nat in Hv. cbn [genSeeds] in Hv.
  set (s := (drawSeed w h r).1) in Hv.
  assert (Hx : X s = 0) by (unfold s, drawSeed; simpl; exact Hdx).
  assert (Hy : Y s = 0) by (unfold s, drawSeed; simpl; exact Hdy).
  (* the last ring the table covers *)
  set (R := if Z_le_gt_dec (h + 2) w then 2 * h else 4 * w + 1).
  assert (HR : 0 <= R /\ R <= w + h - 2 /\ R <= 2 * h /\ R <= 4 * w + 1 /\
               (2 * h < R + 1 \/ 4 * w + 1 < R + 1)).
  { unfold safeCanvas in Hunsafe. unfold R.
    destruct (Z_le_gt_dec (h + 2) w); lia. }
  destruct (corner_frames s (Z.to_nat R) v Hg) as (vk & Hrun & Hgk & Hactk & Hwk & Hhk & Hrk);
    rewrite ?Hv; simpl; try reflexivity; try assumption; try lia.
  rewrite Hv in Hwk, Hhk, Hrk. simpl in Hwk, Hhk, Hrk.
  assert (Hpanic : ring vk = None).
  { destruct (ring vk) as [[[] v1]|] eqn:Hring; [|reflexivity]. exfalso.
    assert (Hall : forall p, p ∈ octant (radius vk + 1) -> inTable vk (X p) (Y p) = true).
    { intros p Hp. destruct (inTable vk (X p) (Y p)) eqn:Hin; [reflexivity|].
      rewrite (ring_panics vk s [] p (good_shaped vk Hgk) (good_table vk Hgk)
                 Hactk Hp Hin) in Hring. discriminate. }
    apply octant_inTable_iff in Hall; lia. }
  assert (Hlate : forall f, Tessellate (Z.to_nat R + S f) true v = Panicked).
  { intros f. rewrite (Tessellate_after_frames _ v vk (S f) Hrun) by (rewrite Hactk; discriminate).
    cbn [Tessellate]. rewrite Hactk, Hpanic. reflexivity. }
  rewrite <- Hv. intros fuel. split.
  - intros v' Hret.
    pose proof (Tessellate_more_fuel fuel true v (Returned v') Hret ltac:(discriminate)
                  (Z.to_nat R + S fuel)%nat ltac:(lia)) as Hmore.
    rewrite Hlate in Hmore. discriminate.
  - intros Hfuel. replace fuel with (Z.to_nat R + S (fuel - Z.to_nat R - 1))%nat by lia.
    apply Hlate.
Qed.

Lemma Tessellate_panics_on_unsafe_canvas_witness :
  exists v0 v,
    NewVoronoi 1 6 1 = Some (inl v0) /\ Init demoRand v0 = Some (tt, v) /\
    Tessellate 7 true v = Panicked.
Proof.
  pose (v0 := mkVoronoi 1 6 1 [] [] [[]] 0 [[]; []; []]).
  assert (Hnew : NewVoronoi 1 6 1 = Some (inl v0)) by reflexivity.
  destruct (Init demoRand v0) as [[[] v]|] eqn:Hinit; [|vm_compute in Hinit; discriminate].
  exists v0, v. split; [exact Hnew|]. split; [exact Hinit|].
  apply (Tessellate_panics_on_unsafe_canvas 1 6 demoRand v0 v); try assumption;
    try lia; try reflexivity.
  unfold safeCanvas. lia.
Defined.

(** ** The export of a completed diagram *)

(** X14. Once no seed is active, on an engine with at least one seed,
    [ToPixels] returns; a pixel at the position of a seed is black and
    transparent, and every other pixel holds the four channels of the
    colour of a seed of the engine, the cell storing the squared distance
    to that seed. *)
Theorem completed_export v :
  reachable v -> activeSeeds v = [] -> 0 < numSeeds v ->
  exists pixels, ToPixels v = Some (pixels, v) /\
    Z.of_nat (length pixels) = width v * height v * 4 /\
    forall x y, inGrid v x y ->
      (seedAt (seeds v) x y /\ pixelAt pixels (offsetOf v x y) = blank) \/
      (~ seedAt (seeds v) x y /\
       exists s col, s ∈ seeds v /\ PColor s = Some col /\
         dist_at v x y =
           Some ((x - X s) * (x - X s) + (y - Y s) * (y - Y s)) /\
         pixelAt pixels (offsetOf v x y) = colourBytes col).
Proof.
  intros Hr Hdone Hn. pose proof (reachable_good v Hr) as Hg.
  destruct (ToPixels_run v (good_shaped v Hg)) as (pixels & Hrun & Hlen & Hpix).
  { pose proof (good_height v Hg). lia. }
  { apply (good_seeds v Hg). }
  exists pixels. split; [exact Hrun|]. split; [exact Hlen|].
  intros x y Hxy. destruct (Hpix x y Hxy) as [Hseed | [Hno Hbytes]]; [left; exact Hseed|].
  right. split; [exact Hno|].
  assert (Hseeds : seeds v <> []).
  { destruct (reachable_origin v Hr) as (_ & _ & _ & r & Hadv).
    rewrite (adv_seeds _ _ Hadv). simpl. intros Hnil.
    apply (f_equal length) in Hnil. rewrite genSeeds_length in Hnil. simpl in Hnil. lia. }
  destruct (good_all_assigned v Hg Hdone Hseeds x y Hxy) as [d Hd].
  unfold dist_at in Hd. destruct (cell v x y) as [[p|]|] eqn:Hc; try discriminate.
  destruct (reachable_settled v Hr x y p Hc) as (d' & s & Hd' & Hs & Hpcol & Hdist & _).
  assert (Hsome : is_Some (PColor s)).
  { destruct (reachable_origin v Hr) as (_ & _ & _ & r & Hadv).
    rewrite (adv_seeds _ _ Hadv) in Hs. simpl in Hs. eapply genSeeds_coloured, Hs. }
  destruct Hsome as [col Hscol].
  assert (Hcol : PColor p = Some col) by congruence.
  exists s, col. split; [exact Hs|]. split; [exact Hscol|].
  split; [unfold dist_at; rewrite Hc, Hd', Hdist; reflexivity|].
  rewrite Hbytes. unfold cellBytes, color_at. rewrite Hc, Hcol. reflexivity.
Qed.


Lemma completed_export_witness :
  exists v' pixels, Tessellate 8 true demo = Returned v' /\
    ToPixels v' = Some (pixels, v') /\ Z.of_nat (length pixels) = 64.
Proof.
  destruct (Tessellate 8 true demo) as [v'| |] eqn:Hrun;
    [|vm_compute in Hrun; discriminate..].
  assert (Hr : reachable v') by (eapply reach_step; [apply demo_reachable | exact Hrun]).
  destruct (Tessellate_good 8 true demo v' (reachable_good demo demo_reachable) Hrun)
    as [_ Hadv].
  destruct (completed_export v' Hr) as (pixels & Hp & Hlen & _).
  - apply (Tessellate_completes 8 demo v' Hrun).
  - rewrite (adv_numSeeds _ _ Hadv). simpl. lia.
  - exists v', pixels. split; [reflexivity|]. split; [exact Hp|].
    rewrite (adv_width _ _ Hadv), (adv_height _ _ Hadv) in Hlen. exact Hlen.
Defined.

(** ** The approximation made by the rings *)

Lemma ringRun_covers r todo still v still' v' :
  ringRun (octant r) todo still v still' v' -> shaped v ->
  forall s, s ∈ todo -> covered v s (r - 1) -> covered v' s r.
Proof.
  induction 1 as [still v | seed todo still v b v1 still' v' G Hrest IH];
    intros Hsh s Hin Hc.
  - apply elem_of_nil in Hin. contradiction.
  - pose proof (grows_shaped _ _ _ _ _ G) as Hsh1.
    apply elem_of_cons in Hin as [-> | Hin].
    + destruct (ringRun_frame _ _ _ _ _ _ Hrest Hsh1) as (Hs & _ & Hm).
      eapply covered_mono; [exact Hs | exact Hm|].
      eapply grows_ring_cover; eassumption.
    + apply IH; [exact Hsh1 | exact Hin|].
      eapply covered_mono; [apply G | apply G | exact Hc].
Qed.

Lemma step_towards (w h sx sy x y : Z) :
  0 <= sx < w -> 0 <= sy < h -> 0 <= x < w -> 0 <= y < h ->
  0 < Z.abs (x - sx) + Z.abs (y - sy) ->
  exists x' y', 0 <= x' < w /\ 0 <= y' < h /\
    Z.abs (x' - sx) + Z.abs (y' - sy) = Z.abs (x - sx) + Z.abs (y - sy) - 1 /\
    Z.abs (x - x') + Z.abs (y - y') = 1.
Proof.
  intros Hsx Hsy Hx Hy Hpos.
  destruct (Z.eq_dec x sx) as [Ex | Ex].
  - destruct (Z.lt_ge_cases y sy).
    + exists x, (y + 1). lia.
    + exists x, (y - 1). lia.
  - destruct (Z.lt_ge_cases x sx).
    + exists (x + 1), y. lia.
    + exists (x - 1), y. lia.
Qed.

Lemma ring_swept v v' :
  good v -> swept v -> ring v = Some (tt, v') -> swept v'.
Proof.
  intros Hg Hsw Hring.
  destruct (ring_good v v' Hg Hring) as (Hg' & Hadv & Hrad & _).
  destruct (ring_run v v' (good_shaped v Hg) (good_table v Hg) Hring)
    as (still & vm & Hchain & Hv').
  set (v1 := set_radius (radius v + 1) v) in *.
  assert (Hsh1 : shaped v1) by apply shaped_set_radius, Hg.
  destruct (ringRun_frame _ _ _ _ _ _ Hchain Hsh1) as (Hsame & _ & Hmono).
  assert (Hcells : forall x y, cell v' x y = cell vm x y) by (subst v'; reflexivity).
  assert (Hup : forall s k, covered v s k -> covered v' s k).
  { intros s k Hc x y Hin Hk.
    eapply mono_assignedAt; [apply (adv_mono v v' Hadv)|].
    apply Hc; [|exact Hk].
    unfold inGrid in *. rewrite <- (adv_width v v' Hadv), <- (adv_height v v' Hadv).
    exact Hin. }
  assert (Hactive : forall s, s ∈ activeSeeds v -> covered v' s (radius v + 1)).
  { intros s Hs x y Hin Hk.
    assert (Hcm : covered vm s (radius v + 1)).
    { apply (ringRun_covers _ _ _ _ _ _ Hchain Hsh1 s Hs).
      replace (radius v + 1 - 1) with (radius v) by lia.
      apply (wave_active v (good_wave v Hg)), Hs. }
    unfold assignedAt, dist_at. rewrite Hcells.
    apply Hcm; [|exact Hk]. subst v'. exact Hin. }
  intros s Hs x y Hin Hk. rewrite Hrad in Hk.
  rewrite (adv_seeds v v' Hadv) in Hs.
  assert (Hin0 : inGrid v x y).
  { unfold inGrid in *. rewrite <- (adv_width v v' Hadv), <- (adv_height v v' Hadv).
    exact Hin. }
  destruct (Z.eq_dec (l1 s x y) (radius v + 1)) as [Heq | Hne].
  - pose proof (good_seeds v Hg s Hs) as Hsin.
    pose proof (good_radius v Hg) as Hr0.
    destruct (step_towards (width v) (height v) (X s) (Y s) x y)
      as (x' & y' & Hx' & Hy' & Hl' & Hadj);
      [apply Hsin | apply Hsin | apply Hin0 | apply Hin0 | unfold l1 in Heq; lia|].
    assert (Ha' : assignedAt v x' y').
    { apply (Hsw s Hs); [split; assumption|]. unfold l1 in *. lia. }
    destruct (wave_cells v (good_wave v Hg) x' y' Ha') as (s' & [Hc | [Hl Hact]]).
    + apply (Hup s' _ Hc); [exact Hin|]. unfold l1 in *. lia.
    + apply (Hactive s' Hact); [exact Hin|]. unfold l1 in *. lia.
  - apply (Hup s _ (Hsw s Hs)); [exact Hin | lia].
Qed.

Lemma square_le_l1 (a b : Z) : a * a + b * b <= (Z.abs a + Z.abs b) * (Z.abs a + Z.abs b).
Proof.
  destruct (Z.abs_spec a) as [[? ->] | [? ->]], (Z.abs_spec b) as [[? ->] | [? ->]]; nia.
Qed.

Lemma l1_le_twice (a b : Z) : (Z.abs a + Z.abs b) * (Z.abs a + Z.abs b) <= 2 * (a * a + b * b).
Proof.
  destruct (Z.abs_spec a) as [[? ->] | [? ->]], (Z.abs_spec b) as [[? ->] | [? ->]];
    [pose proof (Z.square_nonneg (a - b)) | pose proof (Z.square_nonneg (a + b))
    | pose proof (Z.square_nonneg (a + b)) | pose proof (Z.square_nonneg (a - b))]; nia.
Qed.

Lemma ring_nearSeeds v v' :
  good v -> swept v -> settled (radius v) v -> nearSeeds v ->
  ring v = Some (tt, v') -> nearSeeds v'.
Proof.
  intros Hg Hsw Hset Hnear Hring.
  destruct (ring_good v v' Hg Hring) as (Hg' & Hadv & Hrad & _).
  pose proof (ring_settled v v' Hg Hset Hring) as Hset'.
  intros s x y d' Hs Hd'. rewrite (adv_seeds v v' Hadv) in Hs.
  destruct (dist_at v x y) as [d|] eqn:Hd.
  - destruct (adv_mono v v' Hadv x y d Hd) as (d2 & Hd2 & Hle).
    rewrite Hd' in Hd2. injection Hd2 as <-.
    pose proof (Hnear s x y d Hs Hd). lia.
  - unfold dist_at in Hd'.
    destruct (cell v' x y) as [[p|]|] eqn:Hc; try discriminate.
    destruct (Hset' x y p Hc) as (d2 & o & Hd2 & _ & _ & Hdist & Hl).
    rewrite Hd' in Hd2. injection Hd2 as <-.
    assert (Hin : inGrid v x y).
    { pose proof (proj1 (shaped_grid v' (good_shaped v' Hg') x y)) as Hin.
      unfold inGrid in *. rewrite <- (adv_width v v' Hadv), <- (adv_height v v' Hadv).
      apply Hin. rewrite Hc. eauto. }
    assert (Hfar : radius v < l1 s x y).
    { destruct (Z.lt_ge_cases (radius v) (l1 s x y)) as [|Hle]; [assumption|].
      destruct (Hsw s Hs x y Hin) as [d0 Hd0]; [lia|]. congruence. }
    pose proof (square_le_l1 (x - X o) (y - Y o)) as Hsq.
    unfold l1 in *. pose proof (good_radius v Hg). nia.
Qed.

Lemma Tessellate_nearSeeds : forall fuel b v v',
  good v -> swept v -> settled (radius v) v -> nearSeeds v ->
  Tessellate fuel b v = Returned v' -> swept v' /\ nearSeeds v'.
Proof.
  induction fuel as [|fuel IH]; intros b v v' Hg Hsw Hset Hnear Hrun; simpl in Hrun.
  - destruct (activeSeeds v); [injection Hrun as <-; split; assumption | discriminate].
  - destruct (activeSeeds v); [injection Hrun as <-; split; assumption|].
    destruct (ring v) as [[[] v1]|] eqn:Hring; [|discriminate].
    pose proof (ring_swept v v1 Hg Hsw Hring) as Hsw1.
    pose proof (ring_nearSeeds v v1 Hg Hsw Hset Hnear Hring) as Hnear1.
    pose proof (ring_settled v v1 Hg Hset Hring) as Hset1.
    destruct (ring_good v v1 Hg Hring) as (Hg1 & _).
    destruct (negb b); [injection Hrun as <-; split; assumption|].
    eapply IH; eassumption.
Qed.

Lemma startState_swept w h n ss :
  0 < w -> 0 < h -> (forall s, s ∈ ss -> seedLike w h s) ->
  swept (startState w h n ss) /\ nearSeeds (startState w h n ss).
Proof.
  intros Hw Hh Hlike.
  pose proof (startState_good w h n ss Hw Hh Hlike) as Hg.
  split.
  - intros s Hs x y Hin Hk. simpl in Hk.
    assert (x = X s /\ y = Y s) as [-> ->] by (unfold l1 in Hk; lia).
    apply (good_planted _ Hg), Hs.
  - intros s x y d Hs Hd. unfold dist_at in Hd.
    destruct (cell (startState w h n ss) x y) as [[p|]|] eqn:Hc; try discriminate.
    destruct (startState_settled w h n ss Hlike x y p Hc)
      as (d2 & o & Hd2 & _ & _ & Hdist & Hl).
    rewrite Hd in Hd2. injection Hd2 as <-.
    pose proof (square_le_l1 (x - X o) (y - Y o)) as Hsq.
    unfold l1 in *. nia.
Qed.

Lemma reachable_nearSeeds v : reachable v -> swept v /\ nearSeeds v.
Proof.
  induction 1 as [w h n r v0 v Hw Hh Hn Hnew Hinit
                 | fuel b v v' Hr IH Hrun
                 | r v v' Hr IH Hinit].
  - rewrite (Init_start w h n r v0 v Hw Hh Hnew Hinit).
    apply startState_swept; [exact Hw | exact Hh|].
    intros s Hs. eapply genSeeds_seedLike; eassumption.
  - destruct IH as [Hsw Hnear].
    eapply Tessellate_nearSeeds;
      [apply reachable_good, Hr | exact Hsw | apply reachable_settled, Hr
      | exact Hnear | exact Hrun].
  - destruct (reachable_origin v Hr) as (Hw & Hh & _).
    rewrite (Init_run r v (good_allocated v (reachable_good v Hr)) Hw Hh) in Hinit.
    injection Hinit as <-. apply startState_swept; [exact Hw | exact Hh|].
    intros s Hs. eapply genSeeds_seedLike; eassumption.
Qed.

(** X24. In every state the engine can be in, the distance stored in a
    cell is at most the square of the number of rings between the cell and
    any seed of the engine, hence at most twice the squared distance to
    that seed: the owner of a cell is never more than a factor of two, in
    squared distance, away from the nearest seed. *)
Theorem stored_distance_bound v s x y d :
  reachable v -> s ∈ seeds v -> dist_at v x y = Some d ->
  d <= l1 s x y * l1 s x y /\
  d <= 2 * ((x - X s) * (x - X s) + (y - Y s) * (y - Y s)).
Proof.
  intros Hr Hs Hd.
  destruct (reachable_nearSeeds v Hr) as [_ Hnear].
  pose proof (Hnear s x y d Hs Hd) as Hle.
  split; [exact Hle|].
  pose proof (l1_le_twice (x - X s) (y - Y s)). unfold l1 in Hle. lia.
Qed.

Lemma stored_distance_bound_witness :
  exists v', Tessellate 8 true demo = Returned v' /\
    dist_at v' 3 3 = Some 5 /\
    5 <= l1 demoSeedA 3 3 * l1 demoSeedA 3 3 /\
    5 <= 2 * ((3 - X demoSeedA) * (3 - X demoSeedA) +
              (3 - Y demoSeedA) * (3 - Y demoSeedA)).
Proof.
  destruct (Tessellate 8 true demo) as [v'| |] eqn:Hrun;
    [|vm_compute in Hrun; discriminate..].
  assert (Hr : reachable v') by (eapply reach_step; [apply demo_reachable | exact Hrun]).
  destruct (Tessellate_good 8 true demo v' (reachable_good demo demo_reachable) Hrun)
    as [_ Hadv].
  assert (Hd : dist_at v' 3 3 = Some 5).
  { vm_compute in Hrun. injection Hrun as <-. vm_compute. reflexivity. }
  exists v'. split; [reflexivity|]. split; [exact Hd|].
  apply (stored_distance_bound v' demoSeedA 3 3 5 Hr); [|exact Hd].
  rewrite (adv_seeds _ _ Hadv). apply elem_of_cons. left. reflexivity.
Defined.

(** X25. The completed diagram is not always the exact Voronoi diagram:
    on a 4 by 4 canvas with seeds at [(0, 0)], [(1, 2)] and [(3, 3)] the
    tessellation ends with the cell [(3, 0)] stored at squared distance 9,
    claimed in ring 3 from [(0, 0)] and then from [(3, 3)], although the
    seed at [(1, 2)] is at squared distance 8.  That seed makes no claim in
    ring 3, is dropped, and never probes the cell, which is four rings away
    from it. *)
Theorem completed_diagram_not_exact :
  exists v s x y d,
    reachable v /\ activeSeeds v = [] /\ s ∈ seeds v /\
    dist_at v x y = Some d /\
    (x - X s) * (x - X s) + (y - Y s) * (y - Y s) < d.
Proof.
  destruct (NewVoronoi 4 4 3) as [[v0|e]|] eqn:Hnew;
    [|vm_compute in Hnew; discriminate..].
  destruct (Init skewRand v0) as [[[] v]|] eqn:Hinit;
    [|vm_compute in Hnew; injection Hnew as <-; vm_compute in Hinit; discriminate].
  destruct (Tessellate 8 true v) as [v'| |] eqn:Hrun;
    [|vm_compute in Hnew; injection Hnew as <-; vm_compute in Hinit;
      injection Hinit as <-; vm_compute in Hrun; discriminate..].
  assert (Hr : reachable v').
  { eapply reach_step; [|exact Hrun].
    exact (reach_init 4 4 3 skewRand v0 v ltac:(lia) ltac:(lia) ltac:(lia) Hnew Hinit). }
  exists v', (mkPoint 1 2 (Some 0) (Some (mkColor x02 x02 x02 x02))), 3, 0, 9.
  split; [exact Hr|]. split; [apply (Tessellate_completes 8 v v' Hrun)|].
  vm_compute in Hnew. injection Hnew as <-. vm_compute in Hinit. injection Hinit as <-.
  vm_compute in Hrun. injection Hrun as <-.
  split; [|split; [vm_compute; reflexivity | simpl; lia]].
  simpl. apply elem_of_cons. right. apply elem_of_cons. left. reflexivity.
Qed.

(** * The revisions with getIncrementalVectors (part_003) *)

(** ** The vectors of a ring *)

Lemma octantLoop_acc : forall fuel dx dy acc,
  octantLoop fuel dx dy acc = acc ++ octantLoop fuel dx dy [].
Proof.
  induction fuel as [|fuel IH]; intros dx dy acc; simpl.
  - rewrite app_nil_r. reflexivity.
  - destruct (dy >=? dx); [|rewrite app_nil_r; reflexivity].
    rewrite (IH _ _ (acc ++ _)), (IH _ _ [_]). rewrite <- app_assoc. reflexivity.
Qed.

Lemma vectorsOf_app l1 l2 : vectorsOf (l1 ++ l2) = vectorsOf l1 ++ vectorsOf l2.
Proof. unfold vectorsOf. apply flat_map_app. Qed.

Lemma vectorsOf_cons p l :
  vectorsOf (p :: l) = eightVectors (X p) (Y p) ++ vectorsOf l.
Proof. reflexivity. Qed.

Lemma FromTop_vectorsLoop : forall fuel dx dy acc,
  FromTop.vectorsLoop fuel dx dy acc = acc ++ vectorsOf (octantLoop fuel dx dy []).
Proof.
  induction fuel as [|fuel IH]; intros dx dy acc; simpl.
  - rewrite app_nil_r. reflexivity.
  - destruct (dy >=? dx); [|rewrite app_nil_r; reflexivity].
    rewrite IH, (octantLoop_acc fuel _ _ [_]). cbn [app].
    rewrite vectorsOf_cons, <- app_assoc. reflexivity.
Qed.

Lemma FromRight_vectorsLoop : forall fuel dx dy acc,
  FromRight.vectorsLoop fuel dx dy acc =
  acc ++ vectorsOf (map mirrored (octantLoop fuel dy dx [])).
Proof.
  induction fuel as [|fuel IH]; intros dx dy acc; simpl.
  - rewrite app_nil_r. reflexivity.
  - destruct (dx >=? dy); [|rewrite app_nil_r; reflexivity].
    rewrite IH, (octantLoop_acc fuel _ _ [_]). cbn [app map].
    rewrite vectorsOf_cons, <- app_assoc. reflexivity.
Qed.

Lemma FromTop_getIncrementalVectors_run v :
  FromTop.getIncrementalVectors v =
  Some (vectorsOf (octant (radius v + 1)), set_radius (radius v + 1) v).
Proof.
  unfold FromTop.getIncrementalVectors, bind, modify, get, ret. cbn [radius set_radius].
  rewrite FromTop_vectorsLoop. reflexivity.
Qed.

Lemma FromRight_getIncrementalVectors_run v :
  FromRight.getIncrementalVectors v =
  Some (vectorsOf (map mirrored (octant (radius v + 1))),
        set_radius (radius v + 1) v).
Proof.
  unfold FromRight.getIncrementalVectors, bind, modify, get, ret. cbn [radius set_radius].
  rewrite FromRight_vectorsLoop. reflexivity.
Qed.

Lemma eightVectors_offsets dx dy :
  map offsetOfVector (eightVectors dx dy) = specReflections dx dy.
Proof. reflexivity. Qed.

Lemma vectorsOf_offsets l :
  map offsetOfVector (vectorsOf l) =
  flat_map (fun p => specReflections (X p) (Y p)) l.
Proof.
  induction l as [|p l IH]; [reflexivity|].
  unfold vectorsOf in *. cbn [flat_map]. rewrite map_app, IH. reflexivity.
Qed.

Lemma vectors_ringOffsets r :
  Permutation (map offsetOfVector (vectorsOf (octant r))) (ringOffsets r).
Proof.
  rewrite vectorsOf_offsets. unfold ringOffsets.
  induction (octant r) as [|p l IH]; [constructor|].
  cbn [flat_map]. apply Permutation_app; [|exact IH].
  symmetry. apply reflections_spec_order.
Qed.

Lemma eightVectors_mirrored dx dy :
  Permutation (eightVectors dy dx) (eightVectors dx dy).
Proof.
  unfold eightVectors.
  change (Permutation
    ([mkPoint dy dx None None; mkPoint dy (- dx) None None;
      mkPoint (- dy) dx None None; mkPoint (- dy) (- dx) None None] ++
     [mkPoint dx dy None None; mkPoint dx (- dy) None None;
      mkPoint (- dx) dy None None; mkPoint (- dx) (- dy) None None])
    ([mkPoint dx dy None None; mkPoint dx (- dy) None None;
      mkPoint (- dx) dy None None; mkPoint (- dx) (- dy) None None] ++
     [mkPoint dy dx None None; mkPoint dy (- dx) None None;
      mkPoint (- dy) dx None None; mkPoint (- dy) (- dx) None None])).
  apply Permutation_app_comm.
Qed.

Lemma vectorsOf_mirrored l :
  Permutation (vectorsOf (map mirrored l)) (vectorsOf l).
Proof.
  induction l as [|p l IH]; [constructor|].
  unfold vectorsOf in *. cbn [map flat_map]. apply Permutation_app; [|exact IH].
  apply eightVectors_mirrored.
Qed.

Lemma vectorsOf_elem r p :
  p ∈ vectorsOf (octant r) <->
  Z.abs (X p) + Z.abs (Y p) = r /\ Distance p = None /\ PColor p = None.
Proof.
  split.
  - intros Hp.
    assert (Ho : offsetOfVector p ∈ ringOffsets r).
    { rewrite <- (vectors_ringOffsets r). apply list_elem_of_fmap_2. exact Hp. }
    apply ringOffsets_diamond in Ho. split; [exact Ho|].
    unfold vectorsOf in Hp. apply list_elem_of_In, in_flat_map in Hp as (q & _ & Hp).
    unfold eightVectors in Hp. simpl in Hp.
    decompose [or] Hp; subst; try contradiction; split; reflexivity.
  - intros (Hr & Hd & Hc).
    assert (Ho : (X p, Y p) ∈ map offsetOfVector (vectorsOf (octant r))).
    { rewrite (vectors_ringOffsets r). apply ringOffsets_complete. exact Hr. }
    apply list_elem_of_fmap in Ho as (q & Hq & Hin).
    assert (p = q); [|subst; exact Hin].
    assert (Hnone : Distance q = None /\ PColor q = None).
    { unfold vectorsOf in Hin. apply list_elem_of_In, in_flat_map in Hin as (q' & _ & Hin).
      unfold eightVectors in Hin. simpl in Hin.
      decompose [or] Hin; subst; try contradiction; split; reflexivity. }
    destruct Hnone as [Hdq Hcq]. unfold offsetOfVector in Hq. injection Hq as Hx Hy.
    destruct p, q; simpl in *; congruence.
Qed.

Lemma octantLoop_length : forall fuel dx dy,
  dy - dx < 2 * Z.of_nat fuel ->
  Z.of_nat (length (octantLoop fuel dx dy [])) =
  if dy >=? dx then (dy - dx) / 2 + 1 else 0.
Proof.
  induction fuel as [|fuel IH]; intros dx dy Hfuel.
  - simpl. destruct (Z.geb_spec dy dx); [lia | reflexivity].
  - cbn [octantLoop]. destruct (Z.geb_spec dy dx) as [Hge | Hlt]; [|reflexivity].
    rewrite octantLoop_acc, length_app. cbn [app length].
    rewrite Nat2Z.inj_add, IH by lia. change (Z.of_nat 1) with 1.
    destruct (Z.geb_spec (dy - 1) (dx + 1)) as [Hge' | Hlt'].
    + replace (dy - dx) with ((dy - 1 - (dx + 1)) + 1 * 2) by lia.
      rewrite Z.div_add by lia. lia.
    + assert (dy - dx = 0 \/ dy - dx = 1) as [-> | ->] by lia; reflexivity.
Qed.

Lemma octant_length r :
  Z.of_nat (length (octant r)) = if r <? 0 then 0 else r / 2 + 1.
Proof.
  unfold octant. rewrite octantLoop_length by lia.
  destruct (Z.geb_spec r 0), (Z.ltb_spec r 0); try lia.
  rewrite Z.sub_0_r. reflexivity.
Qed.

Lemma vectorsOf_length l : length (vectorsOf l) = (8 * length l)%nat.
Proof.
  induction l as [|p l IH]; [reflexivity|].
  unfold vectorsOf in *. cbn [flat_map]. rewrite length_app, IH. simpl. lia.
Qed.

(** ** Claim attempts in another order *)

(** Two diagrams with the same columns count and the same entries. *)
Lemma diagram_ext {T} (m1 m2 : list (list T)) :
  length m1 = length m2 ->
  (forall x y, index2 m1 x y = index2 m2 x y) ->
  m1 = m2.
Proof.
  intros Hlen Hcells. apply list_eq. intros i.
  destruct (m1 !! i) as [r1|] eqn:H1, (m2 !! i) as [r2|] eqn:H2.
  - f_equal. apply list_eq. intros j.
    specialize (Hcells (Z.of_nat i) (Z.of_nat j)). unfold index2, index in Hcells.
    destruct (Z.ltb_spec (Z.of_nat i) 0); [lia|].
    destruct (Z.ltb_spec (Z.of_nat j) 0); [lia|].
    rewrite !Nat2Z.id, H1, H2 in Hcells. exact Hcells.
  - apply lookup_lt_Some in H1. apply lookup_ge_None in H2. lia.
  - apply lookup_lt_Some in H2. apply lookup_ge_None in H1. lia.
  - reflexivity.
Qed.

Lemma sameCells_eq v v1 v2 :
  sameButDiagram v v1 -> sameButDiagram v v2 ->
  (forall x y, cell v1 x y = cell v2 x y) -> v1 = v2.
Proof.
  intros [E1 L1] [E2 L2] Hcells. rewrite E1, E2. f_equal.
  apply diagram_ext; [congruence | exact Hcells].
Qed.

(** The outcome of a claim attempt on a well-formed diagram. *)
Lemma attempt_cases v seed d dx dy :
  shaped v ->
  ((~ inGrid v (X seed + dx) (Y seed + dy) \/
    exists s, dist_at v (X seed + dx) (Y seed + dy) = Some s /\ s < d) /\
   assignPointToSeed seed d dx dy v = Some (false, v)) \/
  (inGrid v (X seed + dx) (Y seed + dy) /\
   (forall s, dist_at v (X seed + dx) (Y seed + dy) = Some s -> d <= s) /\
   exists v', assignPointToSeed seed d dx dy v = Some (true, v') /\
     updatedAt v v' (X seed + dx) (Y seed + dy)
       (mkPoint (X seed + dx) (Y seed + dy) (Some d) (PColor seed))).
Proof.
  intros Hsh.
  assert (Hg : inGrid v (X seed + dx) (Y seed + dy) \/
               ~ inGrid v (X seed + dx) (Y seed + dy)) by (unfold inGrid; lia).
  destruct Hg as [Hin | Hout].
  - destruct (dist_at v (X seed + dx) (Y seed + dy)) as [s|] eqn:Hd.
    + destruct (Z.lt_ge_cases s d) as [Hlt | Hge].
      * left. split; [right; eauto|].
        eapply assignPointToSeed_closer; eassumption.
      * right. split; [exact Hin|].
        assert (Hall : forall s0, Some s = Some s0 -> d <= s0)
          by (intros s0 [= <-]; lia).
        split; [exact Hall|]. apply assignPointToSeed_claims; try assumption.
        rewrite Hd. exact Hall.
    + right. split; [exact Hin|]. split; [discriminate|].
      apply assignPointToSeed_claims; try assumption. rewrite Hd. discriminate.
  - left. split; [left; exact Hout|]. apply assignPointToSeed_outside, Hout.
Qed.

Lemma updatedAt_other v v' x y p x' y' :
  updatedAt v v' x y p -> (x', y') <> (x, y) -> cell v' x' y' = cell v x' y'.
Proof.
  intros [_ Hlook] Hne. rewrite Hlook.
  destruct ((x' =? x) && (y' =? y)) eqn:E; [|reflexivity].
  apply andb_true_iff in E as [Ex Ey]. apply Z.eqb_eq in Ex, Ey. congruence.
Qed.

Lemma updatedAt_dist v v' x y p x' y' :
  updatedAt v v' x y p -> (x', y') <> (x, y) -> dist_at v' x' y' = dist_at v x' y'.
Proof. intros H Hne. unfold dist_at. rewrite (updatedAt_other _ _ _ _ _ _ _ H Hne). reflexivity. Qed.

Ltac runs :=
  repeat (progress (repeat match goal with
                           | H : assignPointToSeed _ _ _ _ _ = Some _ |- _ => rewrite H
                           end; cbv beta iota)).

(** Two claim attempts of one seed at different offsets commute. *)
Lemma attempts_commute v seed d1 dx1 dy1 d2 dx2 dy2 :
  shaped v -> (dx1, dy1) <> (dx2, dy2) ->
  bind (assignPointToSeed seed d1 dx1 dy1)
       (fun b1 => bind (assignPointToSeed seed d2 dx2 dy2)
                       (fun b2 => ret (b1, b2))) v =
  bind (assignPointToSeed seed d2 dx2 dy2)
       (fun b2 => bind (assignPointToSeed seed d1 dx1 dy1)
                       (fun b1 => ret (b1, b2))) v.
Proof.
  intros Hsh Hne.
  assert (Ht : (X seed + dx1, Y seed + dy1) <> (X seed + dx2, Y seed + dy2)).
  { intros [= H1 H2]. apply Hne. f_equal; lia. }
  assert (Ht' : (X seed + dx2, Y seed + dy2) <> (X seed + dx1, Y seed + dy1))
    by congruence.
  destruct (attempt_cases v seed d1 dx1 dy1 Hsh)
    as [[Hrej1 Hrun1] | (Hin1 & Hacc1 & v1 & Hrun1 & Hup1)];
  destruct (attempt_cases v seed d2 dx2 dy2 Hsh)
    as [[Hrej2 Hrun2] | (Hin2 & Hacc2 & v2 & Hrun2 & Hup2)];
  unfold bind.
  - runs. reflexivity.
  - (* 1 rejected, 2 accepted *)
    assert (Hsh2 : shaped v2) by exact (updatedAt_shaped v v2 _ _ _ _ Hsh Hin2 Hup2).
    assert (Hrun1' : assignPointToSeed seed d1 dx1 dy1 v2 = Some (false, v2)).
    { destruct Hrej1 as [Hout | (s & Hs & Hlt)].
      - apply assignPointToSeed_outside.
        rewrite (inGrid_same _ _ _ _ (proj1 Hup2)). exact Hout.
      - eapply assignPointToSeed_closer; [exact Hsh2 | | exact Hlt].
        rewrite (updatedAt_dist _ _ _ _ _ _ _ Hup2 Ht). exact Hs. }
    runs. reflexivity.
  - assert (Hsh1 : shaped v1) by exact (updatedAt_shaped v v1 _ _ _ _ Hsh Hin1 Hup1).
    assert (Hrun2' : assignPointToSeed seed d2 dx2 dy2 v1 = Some (false, v1)).
    { destruct Hrej2 as [Hout | (s & Hs & Hlt)].
      - apply assignPointToSeed_outside.
        rewrite (inGrid_same _ _ _ _ (proj1 Hup1)). exact Hout.
      - eapply assignPointToSeed_closer; [exact Hsh1 | | exact Hlt].
        rewrite (updatedAt_dist _ _ _ _ _ _ _ Hup1 Ht'). exact Hs. }
    runs. reflexivity.
  - assert (Hsh1 : shaped v1) by exact (updatedAt_shaped v v1 _ _ _ _ Hsh Hin1 Hup1).
    assert (Hsh2 : shaped v2) by exact (updatedAt_shaped v v2 _ _ _ _ Hsh Hin2 Hup2).
    destruct (assignPointToSeed_claims v1 seed d2 dx2 dy2 Hsh1) as (v12 & Hrun12 & Hup12).
    { rewrite (inGrid_same _ _ _ _ (proj1 Hup1)). exact Hin2. }
    { rewrite (updatedAt_dist _ _ _ _ _ _ _ Hup1 Ht'). exact Hacc2. }
    destruct (assignPointToSeed_claims v2 seed d1 dx1 dy1 Hsh2) as (v21 & Hrun21 & Hup21).
    { rewrite (inGrid_same _ _ _ _ (proj1 Hup2)). exact Hin1. }
    { rewrite (updatedAt_dist _ _ _ _ _ _ _ Hup2 Ht). exact Hacc1. }
    runs. unfold ret. do 2 f_equal.
    apply (sameCells_eq v).
    + eapply sameButDiagram_trans; [apply Hup1 | apply Hup12].
    + eapply sameButDiagram_trans; [apply Hup2 | apply Hup21].
    + intros x y. rewrite (proj2 Hup12), (proj2 Hup21), (proj2 Hup1), (proj2 Hup2).
      destruct ((x =? X seed + dx2) && (y =? Y seed + dy2)) eqn:E2;
      destruct ((x =? X seed + dx1) && (y =? Y seed + dy1)) eqn:E1; try reflexivity.
      apply andb_true_iff in E1 as [Ex1 Ey1]. apply andb_true_iff in E2 as [Ex2 Ey2].
      apply Z.eqb_eq in Ex1, Ey1, Ex2, Ey2. exfalso. apply Ht. congruence.
Qed.

Lemma probe_swap seed p q acc v :
  shaped v -> p.1 <> q.1 ->
  forRange [p; q] (probeBody seed) acc v = forRange [q; p] (probeBody seed) acc v.
Proof.
  intros Hsh Hne.
  pose proof (attempts_commute v seed p.2 p.1.1 p.1.2 q.2 q.1.1 q.1.2 Hsh) as E.
  specialize (E ltac:(destruct p as [[? ?] ?], q as [[? ?] ?]; simpl in *; congruence)).
  cbn [forRange]. unfold probeBody, bind, ret in *.
  destruct (assignPointToSeed seed p.2 p.1.1 p.1.2 v) as [[b1 v1]|];
  destruct (assignPointToSeed seed q.2 q.1.1 q.1.2 v) as [[b2 v2]|].
  - destruct (assignPointToSeed seed q.2 q.1.1 q.1.2 v1) as [[b3 v3]|];
    destruct (assignPointToSeed seed p.2 p.1.1 p.1.2 v2) as [[b4 v4]|];
    try discriminate E; [|reflexivity].
    injection E as -> -> ->. f_equal. f_equal.
    destruct b4, b2, acc; reflexivity.
  - destruct (assignPointToSeed seed q.2 q.1.1 q.1.2 v1) as [[b3 v3]|];
    [discriminate E | reflexivity].
  - destruct (assignPointToSeed seed p.2 p.1.1 p.1.2 v2) as [[b4 v4]|];
    [discriminate E | reflexivity].
  - reflexivity.
Qed.

Lemma probeBody_shaped seed p acc v b v' :
  shaped v -> probeBody seed p acc v = Some (b, v') -> shaped v'.
Proof.
  intros Hsh Hrun. unfold probeBody, bind, ret in Hrun.
  destruct (assignPointToSeed_grows v seed p.2 p.1.1 p.1.2 Hsh) as (b1 & v1 & Hrun1 & G).
  rewrite Hrun1 in Hrun. injection Hrun as _ <-. apply G.
Qed.

(** The claim attempts of one seed can be made in any order, when the
    candidate distance is a function of the offset. *)
Lemma probes_perm seed ps qs :
  Permutation ps qs ->
  (forall p q, p ∈ ps -> q ∈ ps -> p.1 = q.1 -> p = q) ->
  forall acc v, shaped v ->
    forRange ps (probeBody seed) acc v = forRange qs (probeBody seed) acc v.
Proof.
  induction 1 as [|x l l' Hperm IH|x y l|l l' l'' H1 IH1 H2 IH2]; intros Hfun acc v Hsh.
  - reflexivity.
  - cbn [forRange]. unfold bind.
    destruct (probeBody seed x acc v) as [[a1 v1]|] eqn:Hx; [|reflexivity].
    apply IH.
    + intros p q Hp Hq. apply Hfun; apply elem_of_cons; right; assumption.
    + eapply probeBody_shaped; eassumption.
  - change (y :: x :: l) with ([y; x] ++ l). change (x :: y :: l) with ([x; y] ++ l).
    rewrite !forRange_app.
    destruct (decide (y.1 = x.1)) as [Heq | Hne].
    + assert (y = x) as ->; [|reflexivity].
      apply Hfun; [apply elem_of_cons; left; reflexivity
                  | apply elem_of_cons; right; apply elem_of_cons; left; reflexivity
                  | exact Heq].
    + unfold bind. rewrite (probe_swap seed y x acc v Hsh Hne). reflexivity.
  - rewrite IH1 by assumption. apply IH2; [|exact Hsh].
    intros p q Hp Hq. apply Hfun; rewrite H1; assumption.
Qed.

(** ** The loop over the vectors *)

Lemma abs_spec x : abs x = Z.abs x.
Proof. unfold abs. destruct (Z.ltb_spec x 0); lia. Qed.

Lemma abs_square x : abs x * abs x = x * x.
Proof. rewrite abs_spec. apply Z.abs_square. Qed.

Lemma vectorBody_run seed p acc v :
  tableReady v ->
  vectorBody seed p acc v =
  if inTable v (abs (X p)) (abs (Y p))
  then probeBody seed (vectorProbe p) acc v
  else None.
Proof.
  intros Htab. unfold vectorBody, probeBody, bind, get, lift.
  rewrite (table_at v Htab).
  destruct (inTable v (abs (X p)) (abs (Y p))); [|reflexivity].
  unfold vectorProbe. simpl. rewrite !abs_square. reflexivity.
Qed.

Lemma probeBody_frame seed q acc v b v' :
  shaped v -> probeBody seed q acc v = Some (b, v') ->
  shaped v' /\ sameButDiagram v v'.
Proof.
  intros Hsh Hrun. unfold probeBody, bind, ret in Hrun.
  destruct (assignPointToSeed_grows v seed q.2 q.1.1 q.1.2 Hsh) as (b1 & v1 & Hrun1 & G).
  rewrite Hrun1 in Hrun. injection Hrun as _ <-. split; apply G.
Qed.

Lemma vectorsInTable_same v v' vecs :
  sameButDiagram v v' -> vectorsInTable v vecs -> vectorsInTable v' vecs.
Proof.
  intros Hs Hin p Hp. rewrite (inTable_same _ _ _ _ Hs). apply Hin, Hp.
Qed.

Lemma vectorLoop_probes seed : forall vecs acc v,
  shaped v -> tableReady v -> vectorsInTable v vecs ->
  forRange vecs (vectorBody seed) acc v =
  forRange (map vectorProbe vecs) (probeBody seed) acc v.
Proof.
  induction vecs as [|p vecs IH]; intros acc v Hsh Htab Hin; [reflexivity|].
  cbn [map forRange]. unfold bind.
  rewrite (vectorBody_run seed p acc v Htab),
    (Hin p ltac:(apply elem_of_cons; left; reflexivity)).
  destruct (probeBody seed (vectorProbe p) acc v) as [[a1 v1]|] eqn:Hp; [|reflexivity].
  destruct (probeBody_frame _ _ _ _ _ _ Hsh Hp) as [Hsh1 Hsame].
  apply IH; [exact Hsh1 | eapply tableReady_same; eassumption|].
  eapply vectorsInTable_same; [exact Hsame|].
  intros q Hq. apply Hin, elem_of_cons. right. exact Hq.
Qed.

(** A failing lookup makes the loop panic. *)
Lemma vectorLoop_panics seed : forall vecs acc v p,
  shaped v -> tableReady v ->
  p ∈ vecs -> inTable v (abs (X p)) (abs (Y p)) = false ->
  forRange vecs (vectorBody seed) acc v = None.
Proof.
  induction vecs as [|q vecs IH]; intros acc v p Hsh Htab Hp Hout.
  - apply elem_of_nil in Hp. contradiction.
  - cbn [forRange]. unfold bind. rewrite (vectorBody_run seed q acc v Htab).
    destruct (inTable v (abs (X q)) (abs (Y q))) eqn:Hq; [|reflexivity].
    destruct (probeBody seed (vectorProbe q) acc v) as [[a1 v1]|] eqn:Hrun; [|reflexivity].
    destruct (probeBody_frame _ _ _ _ _ _ Hsh Hrun) as [Hsh1 Hsame].
    apply elem_of_cons in Hp as [-> | Hp]; [congruence|].
    apply (IH a1 v1 p Hsh1); [eapply tableReady_same; eassumption | exact Hp|].
    rewrite (inTable_same _ _ _ _ Hsame). exact Hout.
Qed.

Lemma vectorProbe_functional (vecs : list Point) p q :
  p ∈ map vectorProbe vecs -> q ∈ map vectorProbe vecs -> p.1 = q.1 -> p = q.
Proof.
  intros Hp Hq. apply list_elem_of_fmap in Hp as (a & -> & _).
  apply list_elem_of_fmap in Hq as (b & -> & _).
  unfold vectorProbe. simpl. intros [= -> ->]. reflexivity.
Qed.

(** The vectors of a ring can be processed in any order. *)
Lemma vectors_any_order seed vecs1 vecs2 acc v :
  Permutation vecs1 vecs2 ->
  shaped v -> tableReady v -> vectorsInTable v vecs1 ->
  forRange vecs1 (vectorBody seed) acc v = forRange vecs2 (vectorBody seed) acc v.
Proof.
  intros Hperm Hsh Htab Hin.
  rewrite !vectorLoop_probes; try assumption.
  - apply probes_perm; [apply Permutation_map, Hperm | | exact Hsh].
    intros p q. apply vectorProbe_functional.
  - intros p Hp. apply Hin. rewrite Hperm. exact Hp.
Qed.

Lemma vectorProbes_ringProbes l :
  Permutation (map vectorProbe (vectorsOf l)) (ringProbes l).
Proof.
  induction l as [|p l IH]; [constructor|].
  rewrite vectorsOf_cons, map_app.
  change (ringProbes (p :: l))
    with (probes (X p * X p + Y p * Y p) (X p) (Y p) ++ ringProbes l).
  apply Permutation_app; [|exact IH].
  transitivity (map (fun o : Z * Z => (o.1, o.2, X p * X p + Y p * Y p))
                    (specReflections (X p) (Y p))).
  - apply Permutation_refl'. unfold eightVectors, specReflections, vectorProbe. simpl.
    repeat (f_equal; try ring).
  - unfold probes. apply Permutation_map. symmetry. apply reflections_spec_order.
Qed.

Lemma ringProbes_functional r p q :
  p ∈ ringProbes (octant r) -> q ∈ ringProbes (octant r) -> p.1 = q.1 -> p = q.
Proof.
  destruct p as [[dx dy] d], q as [[dx' dy'] d']. simpl.
  intros Hp Hq [= -> ->].
  apply ringProbes_octant in Hp as [_ ->]. apply ringProbes_octant in Hq as [_ ->].
  reflexivity.
Qed.

Lemma vectors_in_table v r :
  r <= 2 * width v -> r <= 2 * height v -> vectorsInTable v (vectorsOf (octant r)).
Proof.
  intros Hw Hh p Hp. apply vectorsOf_elem in Hp as (Hr & _).
  unfold inTable. rewrite !abs_spec, !andb_true_iff, !Z.leb_le. lia.
Qed.

(** For one seed, the loop over the vectors of part_003 is the loop of
    voronoi.go over the octant points. *)
Lemma vectors_growSeed seed r acc v :
  shaped v -> tableReady v ->
  0 <= width v -> r <= 2 * width v -> r <= 2 * height v ->
  forRange (vectorsOf (octant r)) (vectorBody seed) acc v =
  forRange (octant r) (growBody seed) acc v.
Proof.
  intros Hsh Htab Hw0 Hw Hh.
  rewrite vectorLoop_probes by (try assumption; apply vectors_in_table; assumption).
  rewrite growSeed_probeAll; try assumption.
  - apply probes_perm; [apply vectorProbes_ringProbes | | exact Hsh].
    intros p q. apply vectorProbe_functional.
  - intros p Hp. apply octant_elem in Hp as (k & Hk & Hle & ->).
    unfold inTable. simpl. rewrite !andb_true_iff, !Z.leb_le. lia.
Qed.

(** ** The ring and Tessellate of a revision *)

Lemma forRange_ext_inv {T St} (I : Voronoi -> Prop) (f g : T -> St -> M St) :
  (forall x a v, I v -> f x a v = g x a v) ->
  (forall x a v a' v', I v -> g x a v = Some (a', v') -> I v') ->
  forall l a v, I v -> forRange l f a v = forRange l g a v.
Proof.
  intros Heq Hinv. induction l as [|x l IH]; intros a v Hv; [reflexivity|].
  cbn [forRange]. unfold bind. rewrite (Heq x a v Hv).
  destruct (g x a v) as [[a1 v1]|] eqn:Hg; [|reflexivity].
  apply IH. eapply Hinv; eassumption.
Qed.

Section VectorRing.

Variable getIncrementalVectors : M (list Point).
Variable vectorsAt : Z -> list Point.

Hypothesis generator_run : forall v,
  getIncrementalVectors v =
  Some (vectorsAt (radius v + 1), set_radius (radius v + 1) v).

Hypothesis generator_perm : forall r,
  Permutation (vectorsAt r) (vectorsOf (octant r)).

Lemma vectorSeedBody_ringBody r seed still v :
  shaped v -> tableReady v ->
  0 <= width v -> r <= 2 * width v -> r <= 2 * height v ->
  vectorSeedBody (vectorsAt r) seed still v = ringBody (octant r) seed still v.
Proof.
  intros Hsh Htab Hw0 Hw Hh. unfold vectorSeedBody, ringBody, growSeed, bind.
  rewrite (vectors_any_order seed (vectorsAt r) (vectorsOf (octant r)) false v
             (generator_perm r) Hsh Htab).
  - rewrite vectors_growSeed by assumption. reflexivity.
  - intros p Hp. rewrite (generator_perm r) in Hp.
    eapply vectors_in_table; eassumption.
Qed.

Lemma vectorRing_ring v :
  shaped v -> tableReady v -> 0 <= width v ->
  radius v + 1 <= 2 * width v -> radius v + 1 <= 2 * height v ->
  vectorRing getIncrementalVectors v = ring v.
Proof.
  intros Hsh Htab Hw0 Hw Hh. unfold vectorRing, ring.
  unfold bind at 1. rewrite generator_run.
  unfold bind at 3. rewrite getProximityDistances_run.
  unfold bind at 1. unfold bind at 2. unfold get.
  set (v1 := set_radius (radius v + 1) v).
  unfold bind.
  rewrite (forRange_ext_inv
             (fun u => shaped u /\ tableReady u /\ sameButDiagram v1 u)
             (vectorSeedBody (vectorsAt (radius v + 1)))
             (ringBody (octant (radius v + 1)))); [reflexivity| | |].
  - intros seed still u (Hu1 & Hu2 & Hu3).
    pose proof (sameButDiagram_fields _ _ Hu3) as (Hwu & Hhu & _).
    apply vectorSeedBody_ringBody; try assumption; rewrite ?Hwu, ?Hhu; assumption.
  - intros seed still u still' u' (Hu1 & Hu2 & Hu3) Hrun.
    unfold ringBody in Hrun. apply bind_inv in Hrun as (b & u1 & Hgrow & Hret).
    injection Hret as _ <-.
    pose proof (growSeed_sound seed _ u b u1 Hu1 Hu2 Hgrow) as G.
    split; [apply G|]. split; [eapply tableReady_same; [apply G | exact Hu2]|].
    eapply sameButDiagram_trans; [exact Hu3 | apply G].
  - split; [apply shaped_set_radius, Hsh|].
    split; [apply tableReady_set_radius, Htab | apply sameButDiagram_refl].
Qed.

Lemma vectorRing_panics v s rest :
  shaped v -> tableReady v -> 0 <= radius v ->
  activeSeeds v = s :: rest ->
  2 * width v < radius v + 1 \/ 2 * height v < radius v + 1 ->
  vectorRing getIncrementalVectors v = None.
Proof.
  intros Hsh Htab Hr Hact Hout. unfold vectorRing.
  unfold bind at 1. rewrite generator_run.
  unfold bind at 1. unfold get. unfold bind at 1.
  cbn [activeSeeds set_radius]. rewrite Hact. cbn [forRange]. unfold bind at 1.
  unfold vectorSeedBody at 1. unfold bind at 1.
  set (r := radius v + 1) in *.
  assert (Hex : exists p, p ∈ vectorsAt r /\
            inTable (set_radius r v) (abs (X p)) (abs (Y p)) = false).
  { destruct Hout as [Hw | Hh].
    - exists (mkPoint r 0 None None). split.
      + rewrite (generator_perm r). apply vectorsOf_elem. simpl. repeat split. lia.
      + unfold inTable. simpl. rewrite !abs_spec.
        destruct (Z.leb_spec (Z.abs r) (2 * width v)); [lia|].
        rewrite andb_false_r. reflexivity.
    - exists (mkPoint 0 r None None). split.
      + rewrite (generator_perm r). apply vectorsOf_elem. simpl. repeat split. lia.
      + unfold inTable. simpl. rewrite !abs_spec.
        destruct (Z.leb_spec (Z.abs r) (2 * height v)); [lia|].
        rewrite andb_false_r. reflexivity. }
  destruct Hex as (p & Hp & Hpout).
  rewrite (vectorLoop_panics s (vectorsAt r) false (set_radius r v) p); try assumption.
  - reflexivity.
  - apply shaped_set_radius, Hsh.
  - apply tableReady_set_radius, Htab.
Qed.

(** Wherever the Tessellate of the revision does not panic, it does what
    the Tessellate of voronoi.go does. *)
Lemma vectorTessellate_refines : forall fuel b v,
  good v ->
  vectorTessellate getIncrementalVectors fuel b v = Panicked \/
  vectorTessellate getIncrementalVectors fuel b v = Tessellate fuel b v.
Proof.
  induction fuel as [|fuel IH]; intros b v Hg; [right; reflexivity|].
  cbn [vectorTessellate Tessellate].
  destruct (activeSeeds v) as [|s rest] eqn:Hact; [right; reflexivity|].
  pose proof (good_shaped v Hg) as Hsh. pose proof (good_table v Hg) as Htab.
  pose proof (good_radius v Hg) as Hr. pose proof (good_width v Hg) as Hw.
  destruct (Z.lt_ge_cases (2 * width v) (radius v + 1)) as [Hbig | Hw2].
  { left. rewrite (vectorRing_panics v s rest) by (try assumption; left; exact Hbig).
    reflexivity. }
  destruct (Z.lt_ge_cases (2 * height v) (radius v + 1)) as [Hbig | Hh2].
  { left. rewrite (vectorRing_panics v s rest) by (try assumption; right; exact Hbig).
    reflexivity. }
  rewrite vectorRing_ring by (try assumption; lia).
  destruct (ring v) as [[[] v1]|] eqn:Hring; [|left; reflexivity].
  destruct (negb b); [right; reflexivity|].
  apply IH. apply (ring_good v v1 Hg Hring).
Qed.

Lemma vectorTessellate_near_square : forall fuel b v,
  good v -> Z.abs (width v - height v) <= 1 ->
  vectorTessellate getIncrementalVectors fuel b v = Tessellate fuel b v.
Proof.
  induction fuel as [|fuel IH]; intros b v Hg Hsq; [reflexivity|].
  cbn [vectorTessellate Tessellate].
  destruct (activeSeeds v) as [|s rest] eqn:Hact; [reflexivity|].
  pose proof (good_bound v Hg s) as Hb. rewrite Hact in Hb.
  specialize (Hb ltac:(apply elem_of_cons; left; reflexivity)).
  pose proof (good_width v Hg) as Hw.
  rewrite vectorRing_ring;
    [|apply (good_shaped v Hg) | apply (good_table v Hg) | lia | lia | lia].
  destruct (ring v) as [[[] v1]|] eqn:Hring; [|reflexivity].
  destruct (negb b); [reflexivity|].
  destruct (ring_good v v1 Hg Hring) as (Hg1 & Hadv & _).
  apply IH; [exact Hg1|].
  rewrite (adv_width _ _ Hadv), (adv_height _ _ Hadv). exact Hsq.
Qed.

(** A ring of the revision: when it panics, and what it does otherwise. *)
Lemma vectorRing_outcome v :
  shaped v -> tableReady v -> 0 <= radius v -> 0 <= width v ->
  (vectorRing getIncrementalVectors v = None <->
   activeSeeds v <> [] /\
   (2 * width v < radius v + 1 \/ 2 * height v < radius v + 1)) /\
  (vectorRing getIncrementalVectors v <> None ->
   vectorRing getIncrementalVectors v = ring v).
Proof.
  intros Hsh Htab Hr Hw.
  destruct (activeSeeds v) as [|s rest] eqn:Hact.
  - assert (Hidle : vectorRing getIncrementalVectors v =
                    Some (tt, set_activeSeeds [] (set_radius (radius v + 1) v))).
    { unfold vectorRing, bind. rewrite generator_run. unfold get.
      cbn [activeSeeds set_radius]. rewrite Hact. reflexivity. }
    split; [rewrite Hidle; split; [discriminate | intros [H _]; contradiction]|].
    intros _. rewrite Hidle, (ring_idle v Hact). reflexivity.
  - destruct (Z.lt_ge_cases (2 * width v) (radius v + 1)) as [Hbig | Hw2];
      [|destruct (Z.lt_ge_cases (2 * height v) (radius v + 1)) as [Hbig | Hh2]].
    + rewrite (vectorRing_panics v s rest) by (try assumption; left; exact Hbig).
      split; [|contradiction].
      split; [intros _; split; [discriminate | left; exact Hbig] | reflexivity].
    + rewrite (vectorRing_panics v s rest) by (try assumption; right; exact Hbig).
      split; [|contradiction].
      split; [intros _; split; [discriminate | right; exact Hbig] | reflexivity].
    + rewrite (vectorRing_ring v) by assumption.
      split; [|reflexivity].
      destruct (ring_total v Hsh Htab) as [v' Hv'].
      { apply octant_inTable_iff; lia. }
      rewrite Hv'. split; [discriminate | intros [_ [|]]; lia].
Qed.

Lemma vector_after_frames : forall (k : nat) v vk fuel,
  good v ->
  radius v + Z.of_nat k <= 2 * width v -> radius v + Z.of_nat k <= 2 * height v ->
  TessellateMany (frames k) v = Returned vk -> activeSeeds vk <> [] ->
  vectorTessellate getIncrementalVectors (k + fuel) true v =
  vectorTessellate getIncrementalVectors fuel true vk.
Proof.
  induction k as [|k IH]; intros v vk fuel Hg Hw Hh Hrun Hact.
  - injection Hrun as <-. reflexivity.
  - rewrite frames_S in Hrun.
    destruct (activeSeeds v) as [|s rest] eqn:Hv.
    + rewrite (Tessellate_idle 1 false v Hv) in Hrun.
      rewrite (TessellateMany_idle (frames k) v Hv) in Hrun.
      injection Hrun as <-. contradiction.
    + rewrite (frame_active v s rest Hv) in Hrun.
      change (S k + fuel)%nat with (S (k + fuel)). cbn [vectorTessellate]. rewrite Hv.
      rewrite (vectorRing_ring v);
        [|apply (good_shaped v Hg) | apply (good_table v Hg)
         |pose proof (good_width v Hg); lia | lia | lia].
      destruct (ring v) as [[[] v1]|] eqn:Hring; [|discriminate].
      cbn [negb].
      destruct (ring_good v v1 Hg Hring) as (Hg1 & Hadv & Hrad & _).
      apply IH; try assumption;
        rewrite ?(adv_width _ _ Hadv), ?(adv_height _ _ Hadv); lia.
Qed.

Lemma vectorTessellate_more_fuel : forall fuel b v o,
  vectorTessellate getIncrementalVectors fuel b v = o -> o <> OutOfFuel ->
  forall fuel', (fuel <= fuel')%nat ->
    vectorTessellate getIncrementalVectors fuel' b v = o.
Proof.
  induction fuel as [|fuel IH]; intros b v o Hrun Ho fuel' Hle.
  - simpl in Hrun. destruct fuel'; simpl; destruct (activeSeeds v); congruence.
  - destruct fuel' as [|fuel']; [lia|]. simpl in *.
    destruct (activeSeeds v); [exact Hrun|].
    destruct (vectorRing getIncrementalVectors v) as [[[] v1]|]; [|exact Hrun].
    destruct (negb b); [exact Hrun|]. apply (IH _ _ _ Hrun Ho). lia.
Qed.

Lemma vectorTessellate_corner w h r v0 v :
  0 < w -> 0 < h -> 2 <= Z.abs (w - h) ->
  draws r (cursor r) mod w = 0 -> draws r (S (cursor r)) mod h = 0 ->
  NewVoronoi w h 1 = Some (inl v0) -> Init r v0 = Some (tt, v) ->
  forall fuel,
    (forall v', vectorTessellate getIncrementalVectors fuel true v <> Returned v') /\
    ((Z.to_nat (w + h) <= fuel)%nat ->
     vectorTessellate getIncrementalVectors fuel true v = Panicked).
Proof.
  intros Hw Hh Hskew Hdx Hdy Hnew Hinit.
  pose proof (reachable_good v (reach_init w h 1 r v0 v Hw Hh ltac:(lia) Hnew Hinit))
    as Hg.
  pose proof (Init_start w h 1 r v0 v Hw Hh Hnew Hinit) as Hv.
  change (Z.to_nat 1) with 1%nat in Hv. cbn [genSeeds] in Hv.
  set (s := (drawSeed w h r).1) in Hv.
  assert (Hx : X s = 0) by (unfold s, drawSeed; simpl; exact Hdx).
  assert (Hy : Y s = 0) by (unfold s, drawSeed; simpl; exact Hdy).
  set (R := 2 * Z.min w h).
  assert (Hfacts : width v = w /\ height v = h /\ radius v = 0 /\
                   seeds v = [s] /\ activeSeeds v = [s])
    by (rewrite Hv; repeat split).
  destruct Hfacts as (Hwv & Hhv & Hrv & Hsv & Hav).
  destruct (corner_frames s (Z.to_nat R) v Hg Hsv Hav Hx Hy)
    as (vk & Hrun & Hgk & Hactk & Hwk & Hhk & Hrk);
    [unfold R; lia | unfold R; lia | unfold R; lia|].
  assert (Hpanic : vectorRing getIncrementalVectors vk = None).
  { apply (vectorRing_panics vk s []);
      [apply (good_shaped vk Hgk) | apply (good_table vk Hgk)
      | apply (good_radius vk Hgk) | exact Hactk | unfold R in *; lia]. }
  assert (Hlate : forall f,
            vectorTessellate getIncrementalVectors (Z.to_nat R + S f) true v = Panicked).
  { intros f. rewrite (vector_after_frames _ v vk (S f) Hg);
      [|unfold R; lia | unfold R; lia | exact Hrun | rewrite Hactk; discriminate].
    cbn [vectorTessellate]. rewrite Hactk, Hpanic. reflexivity. }
  intros fuel. split.
  - intros v' Hret.
    pose proof (vectorTessellate_more_fuel fuel true v (Returned v') Hret
                  ltac:(discriminate) (Z.to_nat R + S fuel)%nat ltac:(lia)) as Hmore.
    rewrite Hlate in Hmore. discriminate.
  - intros Hfuel.
    replace fuel with (Z.to_nat R + S (fuel - Z.to_nat R - 1))%nat by (unfold R; lia).
    apply Hlate.
Qed.

End VectorRing.

Lemma FromRight_perm r :
  Permutation (vectorsOf (map mirrored (octant r))) (vectorsOf (octant r)).
Proof. apply vectorsOf_mirrored. Qed.

Lemma FromTop_perm r : Permutation (vectorsOf (octant r)) (vectorsOf (octant r)).
Proof. reflexivity. Qed.

(** The two revisions run alike. *)
Lemma revisions_agree : forall fuel b v,
  good v -> FromRight.Tessellate fuel b v = FromTop.Tessellate fuel b v.
Proof.
  unfold FromRight.Tessellate, FromTop.Tessellate.
  induction fuel as [|fuel IH]; intros b v Hg; [reflexivity|].
  cbn [vectorTessellate]. destruct (activeSeeds v) as [|s rest] eqn:Hact; [reflexivity|].
  pose proof (good_width v Hg) as Hw.
  destruct (vectorRing_outcome _ _ FromTop_getIncrementalVectors_run FromTop_perm v
              (good_shaped v Hg) (good_table v Hg) (good_radius v Hg) ltac:(lia))
    as [Ht1 Ht2].
  destruct (vectorRing_outcome _ _ FromRight_getIncrementalVectors_run FromRight_perm v
              (good_shaped v Hg) (good_table v Hg) (good_radius v Hg) ltac:(lia))
    as [Hr1 Hr2].
  destruct (vectorRing FromTop.getIncrementalVectors v) as [[[] v1]|] eqn:Htop.
  - assert (Hright : vectorRing FromRight.getIncrementalVectors v <> None).
    { rewrite Hr1, <- Ht1. discriminate. }
    rewrite (Hr2 Hright), <- (Ht2 ltac:(discriminate)).
    destruct (negb b); [reflexivity|]. apply IH.
    eapply ring_good; [exact Hg | symmetry; apply Ht2; discriminate].
  - rewrite (proj2 Hr1 (proj1 Ht1 eq_refl)). reflexivity.
Qed.

(** X15. getIncrementalVectors of the second revision (the walk from
    [(0, radius)]) increments the radius and returns exactly the vectors,
    without distance or colour, on the diamond [|X| + |Y| = radius]:
    eight for each of the [radius/2 + 1] octant points, and as offsets a
    permutation of those that voronoi.go probes in the ring of that
    radius. *)
Theorem FromTop_getIncrementalVectors_spec v :
  exists vecs,
    FromTop.getIncrementalVectors v = Some (vecs, set_radius (radius v + 1) v) /\
    (forall p, p ∈ vecs <->
       Z.abs (X p) + Z.abs (Y p) = radius v + 1 /\
       Distance p = None /\ PColor p = None) /\
    Z.of_nat (length vecs) =
      (if radius v + 1 <? 0 then 0 else 8 * ((radius v + 1) / 2 + 1)) /\
    Permutation (map offsetOfVector vecs) (ringOffsets (radius v + 1)).
Proof.
  exists (vectorsOf (octant (radius v + 1))).
  split; [apply FromTop_getIncrementalVectors_run|].
  split; [intros p; apply vectorsOf_elem|].
  split; [|apply vectors_ringOffsets].
  rewrite vectorsOf_length, Nat2Z.inj_mul, octant_length.
  destruct (radius v + 1 <? 0); lia.
Qed.

(** X16. getIncrementalVectors of the first revision (the walk from
    [(radius, 0)]) returns a permutation of the vectors of the second
    revision, which starts at [(0, radius)]: the same vectors of the
    diamond, in another order. *)
Theorem FromRight_getIncrementalVectors_spec v :
  exists vecs vecsTop,
    FromRight.getIncrementalVectors v = Some (vecs, set_radius (radius v + 1) v) /\
    FromTop.getIncrementalVectors v = Some (vecsTop, set_radius (radius v + 1) v) /\
    Permutation vecs vecsTop /\
    (forall p, p ∈ vecs <->
       Z.abs (X p) + Z.abs (Y p) = radius v + 1 /\
       Distance p = None /\ PColor p = None) /\
    (0 <= radius v + 1 ->
     head vecs = Some (mkPoint (radius v + 1) 0 None None) /\
     head vecsTop = Some (mkPoint 0 (radius v + 1) None None)).
Proof.
  exists (vectorsOf (map mirrored (octant (radius v + 1)))),
         (vectorsOf (octant (radius v + 1))).
  split; [apply FromRight_getIncrementalVectors_run|].
  split; [apply FromTop_getIncrementalVectors_run|].
  split; [apply FromRight_perm|].
  split; [intros p; rewrite (FromRight_perm (radius v + 1)); apply vectorsOf_elem|].
  intros Hr. unfold octant.
  destruct (Z.to_nat (radius v + 1 + 1)) as [|fuel] eqn:Hfuel; [lia|].
  cbn [octantLoop]. destruct (Z.geb_spec (radius v + 1) 0); [|lia].
  rewrite octantLoop_acc. split; reflexivity.
Qed.

(** X17. A ring of either revision, on a well-formed state with the table
    of [initDistances], panics exactly when some seed is active and the new
    radius exceeds [2*width] or [2*height] (the lookups of the vectors
    [(radius, 0)] and [(0, radius)]); when it does not panic it returns
    what the ring of voronoi.go returns. *)
Theorem vectorRing_panics_iff v :
  shaped v -> tableReady v -> 0 <= radius v -> 0 <= width v ->
  (FromTop.ring v = None <->
   activeSeeds v <> [] /\
   (2 * width v < radius v + 1 \/ 2 * height v < radius v + 1)) /\
  (FromRight.ring v = None <-> FromTop.ring v = None) /\
  (FromTop.ring v <> None -> FromTop.ring v = ring v /\ FromRight.ring v = ring v).
Proof.
  intros Hsh Htab Hr Hw.
  destruct (vectorRing_outcome _ _ FromTop_getIncrementalVectors_run FromTop_perm v
              Hsh Htab Hr Hw) as [Ht1 Ht2].
  destruct (vectorRing_outcome _ _ FromRight_getIncrementalVectors_run FromRight_perm v
              Hsh Htab Hr Hw) as [Hr1 Hr2].
  unfold FromTop.ring, FromRight.ring.
  split; [exact Ht1|]. split; [rewrite Hr1, Ht1; reflexivity|].
  intros Hsome. split; [apply Ht2, Hsome|]. apply Hr2. rewrite Hr1, <- Ht1. exact Hsome.
Qed.

Lemma vectorRing_panics_iff_witness :
  FromTop.ring demo <> None /\ FromTop.ring demo = ring demo /\
  FromRight.ring demo = ring demo.
Proof.
  pose proof (reachable_good demo demo_reachable) as Hg.
  destruct (vectorRing_panics_iff demo (good_shaped demo Hg) (good_table demo Hg))
    as (Hiff & _ & Hsame); [simpl; lia | simpl; lia|].
  assert (Hsome : FromTop.ring demo <> None).
  { intros Hnone. apply Hiff in Hnone as [_ Hbig]. simpl in Hbig. lia. }
  split; [exact Hsome | apply Hsame, Hsome].
Defined.

(** X18. From any state the engine can be in, the Tessellate of the
    revisions either panics or does exactly what the Tessellate of
    voronoi.go does with the same number of rings; the two revisions
    always do the same; and on a canvas whose width and height differ by
    at most 1 all three do the same. *)
Theorem revisions_refine_Tessellate v fuel b :
  reachable v ->
  (FromTop.Tessellate fuel b v = Panicked \/
   FromTop.Tessellate fuel b v = Tessellate fuel b v) /\
  FromRight.Tessellate fuel b v = FromTop.Tessellate fuel b v /\
  (Z.abs (width v - height v) <= 1 ->
   FromTop.Tessellate fuel b v = Tessellate fuel b v).
Proof.
  intros Hr. pose proof (reachable_good v Hr) as Hg.
  split; [|split].
  - apply (vectorTessellate_refines _ _ FromTop_getIncrementalVectors_run FromTop_perm), Hg.
  - apply revisions_agree, Hg.
  - intros Hsq.
    apply (vectorTessellate_near_square _ _ FromTop_getIncrementalVectors_run FromTop_perm);
      assumption.
Qed.

Lemma revisions_refine_Tessellate_witness :
  FromRight.Tessellate 8 true demo = FromTop.Tessellate 8 true demo /\
  FromTop.Tessellate 8 true demo = Tessellate 8 true demo.
Proof.
  destruct (revisions_refine_Tessellate demo 8 true demo_reachable) as (_ & Hsame & Hsq).
  split; [exact Hsame|]. apply Hsq. simpl. lia.
Defined.

(** X19. On a canvas whose width and height differ by 2 or more, the
    engine of either revision with one seed drawn in the corner [(0, 0)]
    never completes: Tessellate(true) panics, whatever number of rings it
    is given, and within [width + height] rings.  This includes canvases
    on which voronoi.go completes, such as 1 by 3. *)
Theorem revisions_panic_on_skewed_canvas w h r v0 v :
  0 < w -> 0 < h -> 2 <= Z.abs (w - h) ->
  draws r (cursor r) mod w = 0 -> draws r (S (cursor r)) mod h = 0 ->
  NewVoronoi w h 1 = Some (inl v0) -> Init r v0 = Some (tt, v) ->
  forall fuel,
    (forall v', FromTop.Tessellate fuel true v <> Returned v') /\
    (forall v', FromRight.Tessellate fuel true v <> Returned v') /\
    ((Z.to_nat (w + h) <= fuel)%nat ->
     FromTop.Tessellate fuel true v = Panicked /\
     FromRight.Tessellate fuel true v = Panicked).
Proof.
  intros Hw Hh Hskew Hdx Hdy Hnew Hinit fuel.
  destruct (vectorTessellate_corner _ _ FromTop_getIncrementalVectors_run FromTop_perm
              w h r v0 v Hw Hh Hskew Hdx Hdy Hnew Hinit fuel) as [Ht1 Ht2].
  destruct (vectorTessellate_corner _ _ FromRight_getIncrementalVectors_run FromRight_perm
              w h r v0 v Hw Hh Hskew Hdx Hdy Hnew Hinit fuel) as [Hr1 Hr2].
  split; [exact Ht1|]. split; [exact Hr1|]. intros Hfuel.
  split; [apply Ht2, Hfuel | apply Hr2, Hfuel].
Qed.

Lemma revisions_panic_on_skewed_canvas_witness :
  exists v0 v v',
    NewVoronoi 1 3 1 = Some (inl v0) /\ Init demoRand v0 = Some (tt, v) /\
    FromTop.Tessellate 4 true v = Panicked /\
    FromRight.Tessellate 4 true v = Panicked /\
    Tessellate 4 true v = Returned v'.
Proof.
  pose (v0 := mkVoronoi 1 3 1 [] [] [[]] 0 [[]; []; []]).
  assert (Hnew : NewVoronoi 1 3 1 = Some (inl v0)) by reflexivity.
  destruct (Init demoRand v0) as [[[] v]|] eqn:Hinit; [|vm_compute in Hinit; discriminate].
  destruct (Tessellate 4 true v) as [v'| |] eqn:Hrun;
    [|vm_compute in Hinit; injection Hinit as <-; vm_compute in Hrun; discriminate..].
  exists v0, v, v'. split; [exact Hnew|]. split; [exact Hinit|].
  destruct (revisions_panic_on_skewed_canvas 1 3 demoRand v0 v) with (fuel := 4%nat)
    as (_ & _ & Hpanic); try assumption; try lia; try reflexivity.
  destruct Hpanic as [Ht Hr]; [simpl; lia|]. auto.
Defined.

(** * The game loop (game.go, main.go, part_001) *)

Lemma reinit_ready r v v' :
  reachable v -> Init r v = Some (tt, v') ->
  reachable v' /\ width v' = width v /\ height v' = height v /\
  numSeeds v' = numSeeds v.
Proof.
  intros Hr Hinit. split; [eapply reach_reinit; eassumption|].
  destruct (reachable_origin v Hr) as (Hw & Hh & _).
  rewrite (Init_run r v (good_allocated v (reachable_good v Hr)) Hw Hh) in Hinit.
  injection Hinit as <-. repeat split.
Qed.

Lemma Init_reachable_total r v :
  reachable v -> exists v', Init r v = Some (tt, v').
Proof.
  intros Hr. destruct (reachable_origin v Hr) as (Hw & Hh & _).
  eexists. apply (Init_run r v (good_allocated v (reachable_good v Hr)) Hw Hh).
Qed.

Lemma Update_ready w h n e s r fuel g :
  gameReady w h n g -> safeCanvas w h -> (Z.to_nat (w + h) <= fuel)%nat ->
  exists g', Update e s r fuel g = GameReturned g' /\
    gameReady w h n g' /\
    gameRunning g' = (if e then negb (gameRunning g) else gameRunning g) /\
    frameDuration g' = frameDuration g /\
    (gameRunning g' = true -> activeSeeds (voronoi g') = []) /\
    (gameRunning g' = false -> s = false -> voronoi g' = voronoi g).
Proof.
  intros [Hr Hw Hh Hn Hgw Hgh] Hsafe Hfuel. unfold Update.
  set (g1 := if e then set_gameRunning (negb (gameRunning g)) g else g).
  assert (H1 : voronoi g1 = voronoi g /\ g_width g1 = g_width g /\
               g_height g1 = g_height g /\ frameDuration g1 = frameDuration g /\
               gameRunning g1 = if e then negb (gameRunning g) else gameRunning g).
  { unfold g1. destruct e; repeat split. }
  destruct H1 as (Hv1 & Hw1 & Hh1 & Hf1 & Hrun1). rewrite Hv1.
  assert (Hreinit : exists v1,
            (if s then Init r (voronoi g) else Some (tt, voronoi g)) = Some (tt, v1) /\
            reachable v1 /\ width v1 = w /\ height v1 = h /\ numSeeds v1 = n /\
            (s = false -> v1 = voronoi g)).
  { destruct s.
    - destruct (Init_reachable_total r (voronoi g) Hr) as [v1 Hinit].
      destruct (reinit_ready r _ _ Hr Hinit) as (Hr1 & Hw' & Hh' & Hn').
      exists v1. repeat split; try assumption; try congruence; discriminate.
    - exists (voronoi g). repeat split; assumption. }
  destruct Hreinit as (v1 & -> & Hr1 & Hwv1 & Hhv1 & Hnv1 & Hsame).
  cbn [voronoi set_voronoi gameRunning]. rewrite Hrun1.
  destruct (if e then negb (gameRunning g) else gameRunning g) eqn:Hrunning.
  - destruct (Tessellate_returns fuel true v1 (reachable_good v1 Hr1)) as [v2 Hrun].
    { rewrite Hwv1, Hhv1. exact Hsafe. }
    { pose proof (good_radius v1 (reachable_good v1 Hr1)). rewrite Hwv1, Hhv1. lia. }
    rewrite Hrun.
    destruct (Tessellate_good fuel true v1 v2 (reachable_good v1 Hr1) Hrun) as [_ Hadv].
    eexists. split; [reflexivity|]. cbn.
    split; [split; cbn; try congruence|].
    + eapply reach_step; eassumption.
    + rewrite (adv_width _ _ Hadv). exact Hwv1.
    + rewrite (adv_height _ _ Hadv). exact Hhv1.
    + rewrite (adv_numSeeds _ _ Hadv). exact Hnv1.
    + split; [exact Hrun1|]. split; [exact Hf1|].
      split; [intros _; eapply Tessellate_completes; exact Hrun|].
      rewrite Hrun1. discriminate.
  - eexists. split; [reflexivity|]. cbn.
    split; [split; cbn; congruence|].
    split; [exact Hrun1|]. split; [exact Hf1|].
    split; [rewrite Hrun1; discriminate|]. intros _ Hs. apply Hsame, Hs.
Qed.

Lemma updates_ready w h n : forall ticks g,
  gameReady w h n g -> safeCanvas w h ->
  (forall t, t ∈ ticks -> (Z.to_nat (w + h) <= tickFuel t)%nat) ->
  exists g', updates ticks g = GameReturned g' /\ gameReady w h n g' /\
    frameDuration g' = frameDuration g /\
    (ticks <> [] -> gameRunning g' = true -> activeSeeds (voronoi g') = []).
Proof.
  induction ticks as [|t ticks IH]; intros g Hg Hsafe Hfuel.
  - exists g. split; [reflexivity|]. split; [exact Hg|]. split; [reflexivity|].
    intros H. contradiction.
  - cbn [updates].
    destruct (Update_ready w h n (enterPressed t) (spacePressed t) (tickRand t)
                (tickFuel t) g Hg Hsafe) as (g1 & Hrun & Hg1 & _ & Hf1 & Hdone1 & _).
    { apply Hfuel, elem_of_cons. left. reflexivity. }
    rewrite Hrun.
    destruct (IH g1 Hg1 Hsafe) as (g' & Hrest & Hg' & Hf' & Hdone').
    { intros t' Ht'. apply Hfuel, elem_of_cons. right. exact Ht'. }
    exists g'. split; [exact Hrest|]. split; [exact Hg'|]. split; [congruence|].
    intros _ Hrunning. destruct ticks as [|t2 ticks'].
    + injection Hrest as <-. apply Hdone1, Hrunning.
    + apply Hdone'; [discriminate | exact Hrunning].
Qed.

Lemma NewGame_ready w h n v0 fd r :
  0 < w -> 0 < h -> 0 <= n ->
  NewVoronoi w h n = Some (inl v0) ->
  exists g, NewGame w h v0 fd r = Some g /\ gameReady w h n g /\
    gameRunning g = true /\ frameDuration g = fd /\ g_numSeeds g = 0.
Proof.
  intros Hw Hh Hn Hnew.
  destruct (NewVoronoi_allocated _ _ _ _ Hnew) as (Hal & Hwv & Hhv & Hnv & _).
  unfold NewGame. rewrite (Init_run r v0 Hal) by lia.
  eexists. split; [reflexivity|]. split; [|repeat split].
  split; cbn; try congruence.
  apply (reach_init w h n r v0); try assumption.
  rewrite (Init_run r v0 Hal) by lia. reflexivity.
Qed.

(** X20. A game built by [NewGame] on the engine of [NewVoronoi], on a
    canvas of positive size with [width <= height + 1] and
    [height <= 3*width + 2]: after any ticks, whatever keys were pressed,
    [Update] returns; Enter toggles [gameRunning]; while the game runs the
    call leaves no seed active, so a whole diagram is computed in one tick;
    while it is paused and Space is not pressed the engine is untouched;
    [Layout] returns the size of the canvas and [Draw] hands
    [width*height*4] bytes to the screen. *)
Theorem Update_on_safe_canvas w h n v0 fd r ticks e s r' fuel :
  0 < w -> 0 < h -> 0 <= n -> safeCanvas w h ->
  NewVoronoi w h n = Some (inl v0) ->
  (forall t, t ∈ ticks -> (Z.to_nat (w + h) <= tickFuel t)%nat) ->
  (Z.to_nat (w + h) <= fuel)%nat ->
  exists g0 g g',
    NewGame w h v0 fd r = Some g0 /\
    updates ticks g0 = GameReturned g /\
    Update e s r' fuel g = GameReturned g' /\
    gameRunning g' = (if e then negb (gameRunning g) else gameRunning g) /\
    (gameRunning g' = true -> activeSeeds (voronoi g') = []) /\
    (gameRunning g' = false -> s = false -> voronoi g' = voronoi g) /\
    Layout 0 0 g' = (w, h) /\
    exists pixels, Draw g' = Some (pixels, g') /\
      Z.of_nat (length pixels) = w * h * 4.
Proof.
  intros Hw Hh Hn Hsafe Hnew Hticks Hfuel.
  destruct (NewGame_ready w h n v0 fd r Hw Hh Hn Hnew) as (g0 & Hg0 & Hready0 & _).
  destruct (updates_ready w h n ticks g0 Hready0 Hsafe Hticks) as (g & Hg & Hready & _).
  destruct (Update_ready w h n e s r' fuel g Hready Hsafe Hfuel)
    as (g' & Hg' & Hready' & Hrun & _ & Hdone & Hpaused).
  exists g0, g, g'. split; [exact Hg0|]. split; [exact Hg|]. split; [exact Hg'|].
  split; [exact Hrun|]. split; [exact Hdone|]. split; [exact Hpaused|].
  destruct Hready' as [Hr' Hw' Hh' _ Hgw' Hgh'].
  split; [unfold Layout; congruence|].
  pose proof (reachable_good _ Hr') as Hgood.
  destruct (ToPixels_run (voronoi g') (good_shaped _ Hgood)) as (pixels & Hp & Hlen & _).
  { pose proof (good_height _ Hgood). lia. }
  { apply (good_seeds _ Hgood). }
  exists pixels. unfold Draw. rewrite Hp. split; [|congruence].
  destruct g'; reflexivity.
Qed.

Lemma Update_on_safe_canvas_witness :
  exists v0 g0 g',
    NewVoronoi 4 4 2 = Some (inl v0) /\
    NewGame 4 4 v0 0 demoRand = Some g0 /\
    Update true false demoRand 8 g0 = GameReturned g' /\
    gameRunning g' = negb (gameRunning g0) /\ Layout 0 0 g' = (4, 4).
Proof.
  pose (v0 := mkVoronoi 4 4 2 [] [] [[]; []; []; []] 0 [[]; []; []; []; []; []; []; []; []]).
  assert (Hnew : NewVoronoi 4 4 2 = Some (inl v0)) by reflexivity.
  destruct (Update_on_safe_canvas 4 4 2 v0 0 demoRand [] true false demoRand 8)
    as (g0 & g & g' & Hg0 & Hg & Hg' & Hrun & _ & _ & Hlay & _).
  - lia.
  - lia.
  - lia.
  - unfold safeCanvas. lia.
  - exact Hnew.
  - intros t Ht. apply elem_of_nil in Ht. contradiction.
  - lia.
  - injection Hg as <-. exists v0, g0, g'. auto.
Defined.

(** X21. A tick of the running game that returns ends in a fixed point:
    the next tick with no key pressed returns the same game, whatever
    rings it is allowed; the animation shows no intermediate ring. *)
Theorem Update_fixed_point e s r fuel g g' r' fuel' :
  Update e s r fuel g = GameReturned g' -> gameRunning g' = true ->
  Update false false r' fuel' g' = GameReturned g'.
Proof.
  intros Hrun Hrunning. unfold Update in *.
  set (g1 := if e then set_gameRunning (negb (gameRunning g)) g else g) in Hrun.
  destruct (if s then Init r (voronoi g1) else Some (tt, voronoi g1)) as [[[] v1]|];
    [|discriminate].
  cbn [voronoi set_voronoi gameRunning] in Hrun.
  destruct (gameRunning g1) eqn:Hg1.
  - destruct (Tessellate fuel true v1) as [v2| |] eqn:Htess; try discriminate.
    injection Hrun as <-. cbn. rewrite Hg1.
    rewrite (Tessellate_idle fuel' true v2 (Tessellate_completes _ _ _ Htess)).
    reflexivity.
  - injection Hrun as <-. cbn in Hrunning. congruence.
Qed.

Lemma Update_fixed_point_witness :
  exists g0 g',
    NewGame 4 4 (mkVoronoi 4 4 2 [] [] [[]; []; []; []] 0
                   [[]; []; []; []; []; []; []; []; []]) 0 demoRand = Some g0 /\
    Update false false demoRand 8 g0 = GameReturned g' /\
    Update false false demoRand 0 g' = GameReturned g'.
Proof.
  destruct (NewGame 4 4 _ 0 demoRand) as [g0|] eqn:Hg0; [|vm_compute in Hg0; discriminate].
  destruct (Update false false demoRand 8 g0) as [g'| |] eqn:Hup;
    [|vm_compute in Hg0; injection Hg0 as <-; vm_compute in Hup; discriminate..].
  exists g0, g'. split; [reflexivity|]. split; [exact Hup|].
  apply (Update_fixed_point false false demoRand 8 g0 g' demoRand 0 Hup).
  vm_compute in Hg0. injection Hg0 as <-. vm_compute in Hup. injection Hup as <-.
  reflexivity.
Defined.

(** X22. The program of main.go (a 400 by 400 canvas with 100 seeds) does
    not panic: whatever the random draws and the keys pressed, [main]
    builds its game, every [Update] returns within 800 rings, [Layout]
    returns 400 by 400 and [Draw] hands 640000 bytes to the screen; after
    a tick that leaves the game running no seed is active and all 160000
    cells are assigned. *)
Theorem main_never_panics r ticks :
  (forall t, t ∈ ticks -> (800 <= tickFuel t)%nat) ->
  exists g0 g,
    mainGame r = Some g0 /\ gameRunning g0 = true /\
    updates ticks g0 = GameReturned g /\
    Layout 0 0 g = (400, 400) /\
    (exists pixels, Draw g = Some (pixels, g) /\ Z.of_nat (length pixels) = 640000) /\
    (ticks <> [] -> gameRunning g = true ->
     activeSeeds (voronoi g) = [] /\
     forall x y, 0 <= x < 400 -> 0 <= y < 400 -> assignedAt (voronoi g) x y).
Proof.
  intros Hticks.
  assert (Hnew : exists v0, NewVoronoi 400 400 100 = Some (inl v0)).
  { eexists. apply NewVoronoi_run; lia. }
  destruct Hnew as [v0 Hnew].
  destruct (NewGame_ready 400 400 100 v0 0 r ltac:(lia) ltac:(lia) ltac:(lia) Hnew)
    as (g0 & Hg0 & Hready0 & Hrun0 & _).
  assert (Hsafe : safeCanvas 400 400) by (unfold safeCanvas; lia).
  destruct (updates_ready 400 400 100 ticks g0 Hready0 Hsafe)
    as (g & Hg & Hready & _ & Hdone).
  { intros t Ht. specialize (Hticks t Ht). lia. }
  exists g0, g. split; [unfold mainGame; rewrite Hnew; exact Hg0|].
  split; [exact Hrun0|]. split; [exact Hg|].
  destruct Hready as [Hr Hw Hh Hn Hgw Hgh].
  split; [unfold Layout; congruence|].
  pose proof (reachable_good _ Hr) as Hgood.
  split.
  - destruct (ToPixels_run (voronoi g) (good_shaped _ Hgood)) as (pixels & Hp & Hlen & _).
    { pose proof (good_height _ Hgood). lia. }
    { apply (good_seeds _ Hgood). }
    exists pixels. unfold Draw. rewrite Hp. split; [destruct g; reflexivity|].
    rewrite Hw, Hh in Hlen. lia.
  - intros Hne Hrunning. pose proof (Hdone Hne Hrunning) as Hact.
    split; [exact Hact|]. intros x y Hx Hy.
    apply (good_all_assigned _ Hgood Hact).
    + destruct (reachable_origin _ Hr) as (_ & _ & _ & r0 & Hadv).
      rewrite (adv_seeds _ _ Hadv), Hn. cbn [seeds startState]. intros Hnil.
      apply (f_equal length) in Hnil. rewrite genSeeds_length in Hnil.
      cbn [length] in Hnil. lia.
    + unfold inGrid. rewrite Hw, Hh. lia.
Qed.

Lemma main_never_panics_witness :
  exists g0 g,
    mainGame demoRand = Some g0 /\
    updates [mkTick false false demoRand 800] g0 = GameReturned g /\
    Layout 0 0 g = (400, 400).
Proof.
  destruct (main_never_panics demoRand [mkTick false false demoRand 800])
    as (g0 & g & Hmain & _ & Hup & Hlay & _).
  - intros t Ht. apply list_elem_of_singleton in Ht as ->. cbn [tickFuel]. lia.
  - exists g0, g. auto.
Defined.

Lemma frame_fuel fuel v : Tessellate (S fuel) false v = Tessellate 1 false v.
Proof.
  cbn [Tessellate]. destruct (activeSeeds v); [reflexivity|].
  destruct (ring v) as [[[] v']|]; reflexivity.
Qed.

Lemma frames_not_starved : forall k v, TessellateMany (frames k) v <> OutOfFuel.
Proof.
  induction k as [|k IH]; intros v; [discriminate|].
  rewrite frames_S. destruct (activeSeeds v) as [|s rest] eqn:Hact.
  - rewrite (Tessellate_idle _ _ v Hact). apply IH.
  - rewrite (frame_active v s rest Hact).
    destruct (ring v) as [[[] v1]|]; [apply IH | discriminate].
Qed.

Lemma idleTicks_frames : forall k r fuel w h v,
  idleTicks k r (S fuel) (Canvas.mkCanvas w h true false v) =
  match TessellateMany (frames k) v with
  | Returned v' => Canvas.CanvasReturned (Canvas.mkCanvas w h true false v')
  | Panicked => Canvas.CanvasPanicked
  | OutOfFuel => Canvas.CanvasOutOfFuel
  end.
Proof.
  induction k as [|k IH]; intros r fuel w h v; [reflexivity|].
  rewrite frames_S. cbn [idleTicks]. unfold Canvas.Update.
  cbn [Canvas.gameRunning Canvas.hideIterations Canvas.voronoi
       Canvas.c_width Canvas.c_height].
  rewrite frame_fuel.
  destruct (Tessellate 1 false v) as [v1| |]; [apply IH | reflexivity | reflexivity].
Qed.

(** X23. The canvas of part_001 passes its flag to Tessellate.  With the
    flag unset, a tick with no key pressed processes one ring; [k] such
    ticks return the engine that one tick of the canvas with the flag set
    returns when given [k] rings, and they panic exactly when it panics:
    the animation ends in the diagram that the one-shot run computes. *)
Theorem Canvas_animation k r fuel w h v :
  (forall v',
     Canvas.Update false false r k (Canvas.mkCanvas w h true true v) =
       Canvas.CanvasReturned (Canvas.mkCanvas w h true true v') <->
     idleTicks k r (S fuel) (Canvas.mkCanvas w h true false v) =
       Canvas.CanvasReturned (Canvas.mkCanvas w h true false v') /\
     activeSeeds v' = []) /\
  (Canvas.Update false false r k (Canvas.mkCanvas w h true true v) =
     Canvas.CanvasPanicked <->
   idleTicks k r (S fuel) (Canvas.mkCanvas w h true false v) = Canvas.CanvasPanicked).
Proof.
  rewrite idleTicks_frames. unfold Canvas.Update.
  cbn [Canvas.gameRunning Canvas.hideIterations Canvas.voronoi
       Canvas.c_width Canvas.c_height].
  rewrite Tessellate_frames_eq.
  pose proof (frames_not_starved k v) as Hno.
  destruct (TessellateMany (frames k) v) as [v1| |]; [| |contradiction].
  - destruct (activeSeeds v1) as [|s rest] eqn:Hact.
    + split; [|split; discriminate].
      intros v'. split; [intros [= <-]; auto | intros [[= <-] _]; reflexivity].
    + split; [|split; discriminate].
      intros v'. split; [discriminate | intros [[= <-] H]; congruence].
  - split; [|tauto]. intros v'. split; [discriminate | intros [H _]; discriminate].
Qed.
